(** * Component registry, discovery and validation engine

    A shallow embedding of the registry code of shadcn-admin:
    - [registry/agent-api.ts]           (class [AgentAPI]),
    - [registry/component-registry.ts]  (class [ComponentRegistryIndex]),
    - [registry/validators.ts]          ([validatePropsAgainstSchema],
                                         [validateComponentMetadata],
                                         [validateImportStatement],
                                         [validateJSXUsage],
                                         [validateDesignTokens],
                                         [generateValidationReport]),
    - [mcp/tools/discovery.ts]          (tool handlers, [getSuggestions],
                                         [levenshteinDistance]),
    - [mcp/tools/generation.ts]         (tool handlers, [getImportPath]),
    - [mcp/utils/formatters.ts]         ([formatComponentSummary],
                                         [formatComponentDetail],
                                         [formatSearchResult]).

    Modelling conventions.
    - A JavaScript string is a [string]; its code units are the [ascii]
      characters of [chars s].  [toLowerCase] is the ASCII restriction of
      [String.prototype.toLowerCase].
    - A [Map<string, V>] is a [gmap string V]; arrays are lists.
    - [null] is [None]; closed string unions are inductive types. *)

From Stdlib Require Import Ascii String List Arith ZArith Lia Bool.
From stdpp Require Import base decidable option list gmap strings fin_maps.
From Stdlib Require Import Sorted.

Local Open Scope string_scope.
Local Open Scope list_scope.
Local Open Scope nat_scope.

(** ** Strings *)

Module JsString.

(** The UTF-16 code units of a string (here: its ASCII characters). *)
Definition chars (s : string) : list ascii := list_ascii_of_string s.

Definition toLowerCase_char (c : ascii) : ascii :=
  let n := nat_of_ascii c in
  if ((65 <=? n) && (n <=? 90))%nat then ascii_of_nat (n + 32) else c.

(** [String.prototype.toLowerCase] *)
Fixpoint toLowerCase (s : string) : string :=
  match s with
  | EmptyString => EmptyString
  | String c s' => String (toLowerCase_char c) (toLowerCase s')
  end.

(** [l] starts with [p] *)
Fixpoint startsWith_chars (p l : list ascii) : bool :=
  match p, l with
  | [], _ => true
  | _ :: _, [] => false
  | c :: p', d :: l' => bool_decide (c = d) && startsWith_chars p' l'
  end.

(** search for [sub] at every position of [l], left to right *)
Fixpoint includes_chars (l sub : list ascii) : bool :=
  startsWith_chars sub l ||
  match l with
  | [] => false
  | _ :: l' => includes_chars l' sub
  end.

(** [String.prototype.includes] *)
Definition includes (s sub : string) : bool :=
  includes_chars (chars s) (chars sub).

(** [sub] occurs in [s] as a contiguous block of characters. *)
Definition is_substring (sub s : string) : Prop :=
  ∃ pre post : list ascii, chars s = pre ++ chars sub ++ post.

End JsString.

Import JsString.

(** ** The data model: [ComponentMetadata] *)

Inductive Category := CatAtom | CatMolecule | CatOrganism | CatTemplate | CatPattern.
Inductive Complexity := CxSimple | CxModerate | CxComplex.
Inductive WcagLevel := WcagA | WcagAA | WcagAAA.
Inductive MigrationStatus := MsDocumented | MsPending | MsIntegrated.

#[global] Instance Category_eq_dec : EqDecision Category.
Proof. solve_decision. Defined.
#[global] Instance Complexity_eq_dec : EqDecision Complexity.
Proof. solve_decision. Defined.
#[global] Instance WcagLevel_eq_dec : EqDecision WcagLevel.
Proof. solve_decision. Defined.
#[global] Instance MigrationStatus_eq_dec : EqDecision MigrationStatus.
Proof. solve_decision. Defined.

Definition Category_to_nat (c : Category) : nat :=
  match c with
  | CatAtom => 0 | CatMolecule => 1 | CatOrganism => 2
  | CatTemplate => 3 | CatPattern => 4
  end.

Definition Category_of_nat (n : nat) : option Category :=
  match n with
  | 0 => Some CatAtom | 1 => Some CatMolecule | 2 => Some CatOrganism
  | 3 => Some CatTemplate | 4 => Some CatPattern | _ => None
  end.

#[global] Instance Category_countable : Countable Category.
Proof.
  apply (inj_countable Category_to_nat Category_of_nat).
  by intros [].
Defined.

(** [schema] and [documentation] hold a path, the sentinel ["pending"]
    (written by the scanner into the TypeScript registry) or [null]
    (written by the scanner into the JSON registry). *)
Record ComponentMetadata := {
  name : string;
  category : Category;
  path : string;
  schema : option string;
  documentation : option string;
  internalDependencies : list string;
  externalDependencies : list string;
  componentDependencies : list string;
  tags : list string;
  complexity : Complexity;
  lastUpdated : string;
  version : string;
  description : string;
  wcagLevel : WcagLevel;
  hasTesting : bool;
  hasStorybook : bool;
  migrationStatus : option MigrationStatus
}.

#[global] Instance ComponentMetadata_eq_dec : EqDecision ComponentMetadata.
Proof. solve_decision. Defined.

(** JavaScript truthiness of a value of type [string | null]. *)
Definition truthy (v : option string) : bool :=
  match v with
  | None => false
  | Some s => negb (bool_decide (s = ""))
  end.

(** ** [class AgentAPI]: construction and lookup *)

Record AgentAPI := {
  components : list ComponentMetadata;
  componentMap : gmap string ComponentMetadata
}.

(** [map.set(component.name.toLowerCase(), component)] *)
Definition insert_component (m : gmap string ComponentMetadata)
    (component : ComponentMetadata) : gmap string ComponentMetadata :=
  <[toLowerCase (name component) := component]> m.

(** [constructor()], with the imported [fullRegistry.components] made an
    argument. *)
Definition AgentAPI_new (fullRegistry : list ComponentMetadata) : AgentAPI :=
  {| components := fullRegistry;
     componentMap := foldl insert_component ∅ fullRegistry |}.

Definition getComponent (api : AgentAPI) (n : string) : option ComponentMetadata :=
  componentMap api !! toLowerCase n.

Definition getAllComponents (api : AgentAPI) : list ComponentMetadata :=
  components api.

(** ** [class ComponentRegistryIndex] *)

Record ComponentRegistryIndex := {
  nameIndex : gmap string ComponentMetadata;
  categoryIndex : gmap Category (list ComponentMetadata);
  tagIndex : gmap string (list ComponentMetadata)
}.

(** [if (!m.has(k)) m.set(k, []); m.get(k)!.push(component)] *)
Definition push_at `{Countable K} (k : K) (component : ComponentMetadata)
    (m : gmap K (list ComponentMetadata)) : gmap K (list ComponentMetadata) :=
  let m' := if bool_decide (is_Some (m !! k)) then m else <[k := []]> m in
  alter (λ l, l ++ [component]) k m'.

(** One iteration of the [for (const component of registry)] loop. *)
Definition index_component (idx : ComponentRegistryIndex)
    (component : ComponentMetadata) : ComponentRegistryIndex :=
  {| nameIndex := insert_component (nameIndex idx) component;
     categoryIndex := push_at (category component) component (categoryIndex idx);
     tagIndex :=
       foldl (λ ti tag, push_at tag component ti) (tagIndex idx) (tags component) |}.

Definition buildIndices (idx : ComponentRegistryIndex)
    (registry : list ComponentMetadata) : ComponentRegistryIndex :=
  foldl index_component idx registry.

Definition ComponentRegistryIndex_new (registry : list ComponentMetadata)
    : ComponentRegistryIndex :=
  buildIndices {| nameIndex := ∅; categoryIndex := ∅; tagIndex := ∅ |} registry.

Definition findByName (idx : ComponentRegistryIndex) (n : string)
    : option ComponentMetadata :=
  nameIndex idx !! toLowerCase n.

Definition findByCategory (idx : ComponentRegistryIndex) (c : Category)
    : list ComponentMetadata :=
  default [] (categoryIndex idx !! c).

Definition findByTag (idx : ComponentRegistryIndex) (tag : string)
    : list ComponentMetadata :=
  default [] (tagIndex idx !! tag).

(** ** [AgentAPI]: discovery *)

Record ComponentFilters := {
  filter_category : option Category;
  filter_tags : option (list string);
  filter_complexity : option Complexity;
  filter_migrationStatus : option MigrationStatus;
  filter_hasSchema : option bool;
  filter_hasDocumentation : option bool;
  filter_hasTesting : option bool
}.

Definition noFilters : ComponentFilters :=
  {| filter_category := None; filter_tags := None; filter_complexity := None;
     filter_migrationStatus := None; filter_hasSchema := None;
     filter_hasDocumentation := None; filter_hasTesting := None |}.

Definition with_tags (filters : ComponentFilters) (t : option (list string))
    : ComponentFilters :=
  {| filter_category := filter_category filters;
     filter_tags := t;
     filter_complexity := filter_complexity filters;
     filter_migrationStatus := filter_migrationStatus filters;
     filter_hasSchema := filter_hasSchema filters;
     filter_hasDocumentation := filter_hasDocumentation filters;
     filter_hasTesting := filter_hasTesting filters |}.

(** [if (cond) results = results.filter(p)] *)
Definition filter_when {A} (o : option A) (p : A → ComponentMetadata → bool)
    (results : list ComponentMetadata) : list ComponentMetadata :=
  match o with
  | Some v => List.filter (p v) results
  | None => results
  end.

(** [c.tags.includes(tag)] *)
Definition has_tag (c : ComponentMetadata) (tag : string) : bool :=
  bool_decide (tag ∈ tags c).

(** [v !== null && v !== 'pending'] and its complement
    [v === null || v === 'pending'] *)
Definition reference_present (v : option string) : bool :=
  bool_decide (v ≠ None) && bool_decide (v ≠ Some "pending").

Definition reference_missing (v : option string) : bool :=
  bool_decide (v = None) || bool_decide (v = Some "pending").

Definition discoverComponents (api : AgentAPI) (filters : option ComponentFilters)
    : list ComponentMetadata :=
  let results := components api in
  match filters with
  | None => results
  | Some filters =>
    let results :=
      filter_when (filter_category filters)
        (λ cat c, bool_decide (category c = cat)) results in
    let results :=
      match filter_tags filters with
      | Some ftags =>
          if (0 <? length ftags)%nat
          then List.filter (λ c, existsb (has_tag c) ftags) results
          else results
      | None => results
      end in
    let results :=
      filter_when (filter_complexity filters)
        (λ cx c, bool_decide (complexity c = cx)) results in
    let results :=
      filter_when (filter_migrationStatus filters)
        (λ ms c, bool_decide (migrationStatus c = Some ms)) results in
    let results :=
      filter_when (filter_hasSchema filters)
        (λ (want : bool) c,
           if want then reference_present (schema c)
           else reference_missing (schema c)) results in
    let results :=
      filter_when (filter_hasDocumentation filters)
        (λ (want : bool) c,
           if want then reference_present (documentation c)
           else reference_missing (documentation c)) results in
    let results :=
      filter_when (filter_hasTesting filters)
        (λ want c, bool_decide (hasTesting c = want)) results in
    results
  end.

(** The predicate of the [filter] callback in [searchComponents]. *)
Definition search_match (lowerQuery : string) (c : ComponentMetadata) : bool :=
  includes (toLowerCase (name c)) lowerQuery
  || includes (toLowerCase (description c)) lowerQuery
  || existsb (λ tag, includes (toLowerCase tag) lowerQuery) (tags c).

Definition searchComponents (api : AgentAPI) (query : string)
    : list ComponentMetadata :=
  let lowerQuery := toLowerCase query in
  List.filter (search_match lowerQuery) (components api).

(** ** [AgentAPI]: health *)

Inductive HealthStatus := Healthy | Warning | Error.

Record ComponentHealth := {
  health_name : string;
  health_status : HealthStatus;
  health_hasTests : bool;
  health_hasStorybook : bool;
  health_hasSchema : bool;
  health_hasDocumentation : bool;
  health_importCount : nat;
  health_lastUpdated : string;
  health_coverage : nat;
  health_issues : list string;
  health_migrationStatus : MigrationStatus
}.

(** [!v || v === 'pending'] *)
Definition missing_or_pending (v : option string) : bool :=
  negb (truthy v) || bool_decide (v = Some "pending").

Definition getComponentHealth (api : AgentAPI) (componentName : string)
    : option ComponentHealth :=
  match getComponent api componentName with
  | None => None
  | Some component =>
    let issues : list string := [] in
    let issues :=
      if missing_or_pending (schema component)
      then issues ++ ["Missing component schema"] else issues in
    let issues :=
      if missing_or_pending (documentation component)
      then issues ++ ["Missing documentation"] else issues in
    let issues :=
      if negb (hasTesting component)
      then issues ++ ["No unit tests"] else issues in
    let issues :=
      if negb (hasStorybook component)
      then issues ++ ["No Storybook stories"] else issues in
    let status :=
      if (3 <? length issues)%nat then Error
      else if (0 <? length issues)%nat then Warning
      else Healthy in
    Some {| health_name := name component;
            health_status := status;
            health_hasTests := hasTesting component;
            health_hasStorybook := hasStorybook component;
            health_hasSchema :=
              truthy (schema component)
              && bool_decide (schema component ≠ Some "pending");
            health_hasDocumentation :=
              truthy (documentation component)
              && bool_decide (documentation component ≠ Some "pending");
            health_importCount := 0;
            health_lastUpdated := lastUpdated component;
            health_coverage := 0;
            health_issues := issues;
            health_migrationStatus :=
              default MsPending (migrationStatus component) |}
  end.

(** ** [mcp/utils/formatters.ts] *)

Record ComponentSummary := {
  summary_name : string;
  summary_category : Category;
  summary_description : string;
  summary_tags : list string;
  summary_complexity : Complexity;
  summary_hasSchema : bool;
  summary_hasDocumentation : bool;
  summary_path : string;
  summary_wcagLevel : WcagLevel
}.

(** [Boolean(component.schema)] is the truthiness of the field. *)
Definition formatComponentSummary (component : ComponentMetadata)
    : ComponentSummary :=
  {| summary_name := name component;
     summary_category := category component;
     summary_description := description component;
     summary_tags := tags component;
     summary_complexity := complexity component;
     summary_hasSchema := truthy (schema component);
     summary_hasDocumentation := truthy (documentation component);
     summary_path := path component;
     summary_wcagLevel := wcagLevel component |}.

Record ComponentDependencies := {
  deps_internal : list string;
  deps_external : list string;
  deps_components : list string
}.

Record ComponentDetail := {
  detail_name : string;
  detail_category : Category;
  detail_path : string;
  detail_description : string;
  detail_tags : list string;
  detail_complexity : Complexity;
  detail_version : string;
  detail_lastUpdated : string;
  detail_wcagLevel : WcagLevel;
  detail_dependencies : ComponentDependencies;
  detail_schema : option string;
  detail_documentation : option string;
  detail_hasTesting : bool;
  detail_hasStorybook : bool;
  detail_migrationStatus : MigrationStatus
}.

(** [v || null] *)
Definition or_null (v : option string) : option string :=
  if truthy v then v else None.

Definition formatComponentDetail (component : ComponentMetadata)
    : ComponentDetail :=
  {| detail_name := name component;
     detail_category := category component;
     detail_path := path component;
     detail_description := description component;
     detail_tags := tags component;
     detail_complexity := complexity component;
     detail_version := version component;
     detail_lastUpdated := lastUpdated component;
     detail_wcagLevel := wcagLevel component;
     detail_dependencies :=
       {| deps_internal := internalDependencies component;
          deps_external := externalDependencies component;
          deps_components := componentDependencies component |};
     detail_schema := or_null (schema component);
     detail_documentation := or_null (documentation component);
     detail_hasTesting := hasTesting component;
     detail_hasStorybook := hasStorybook component;
     detail_migrationStatus := default MsPending (migrationStatus component) |}.

Inductive Relevance := RelName | RelDescription | RelTag.

Record SearchResult := {
  result_name : string;
  result_description : string;
  result_relevance : Relevance;
  result_category : Category
}.

Definition formatSearchResult (component : ComponentMetadata) (query : string)
    : SearchResult :=
  let lowerQuery := toLowerCase query in
  let relevance :=
    if includes (toLowerCase (name component)) lowerQuery then RelName
    else if existsb (λ tag, includes (toLowerCase tag) lowerQuery)
                    (tags component)
    then RelTag
    else RelDescription in
  {| result_name := name component;
     result_description := description component;
     result_relevance := relevance;
     result_category := category component |}.

(** ** [mcp/tools/discovery.ts]: fuzzy suggestions *)

(** [arr[i] = v].  Inside the array the element is overwritten, at
    [arr.length] the array grows by one.  An index beyond the length would
    leave holes; such sparse arrays are outside the model ([None]). *)
Definition array_set {A} (arr : list A) (i : nat) (v : A) : option (list A) :=
  if (i <? length arr)%nat then Some (<[i := v]> arr)
  else if (i =? length arr)%nat then Some (arr ++ [v])
  else None.

(** [for (let i = from; i <= to; i++) body], threading the state [st];
    the loop stops with [None] as soon as its body does. *)
Fixpoint for_each {St} (range : list nat) (body : nat → St → option St)
    (st : St) : option St :=
  match range with
  | [] => Some st
  | i :: range' => body i st ≫= for_each range' body
  end.

(** [matrix[i][j]]; [None] when the cell was never written. *)
Definition cell (matrix : list (list nat)) (i j : nat) : option nat :=
  matrix !! i ≫= (.!! j).

(** [matrix[i][j] = v] *)
Definition set_cell (matrix : list (list nat)) (i j v : nat)
    : option (list (list nat)) :=
  row ← matrix !! i;
  row' ← array_set row j v;
  array_set matrix i row'.

(** [s.charAt(k)]; [None] stands for the empty string that [charAt]
    returns out of range. *)
Definition charAt (s : list ascii) (k : nat) : option ascii := s !! k.

Definition levenshtein_cell (a b : list ascii) (matrix : list (list nat))
    (i j : nat) : option nat :=
  if bool_decide (charAt b (i - 1) = charAt a (j - 1))
  then cell matrix (i - 1) (j - 1)
  else
    sub ← cell matrix (i - 1) (j - 1);
    ins ← cell matrix i (j - 1);
    del ← cell matrix (i - 1) j;
    Some ((sub + 1) `min` ((ins + 1) `min` (del + 1))).

Definition levenshtein_matrix (a b : list ascii) : option (list (list nat)) :=
  let matrix : list (list nat) := [] in
  matrix ← for_each (seq 0 (S (length b)))
              (λ i matrix, array_set matrix i [i]) matrix;
  matrix ← for_each (seq 0 (S (length a)))
              (λ j matrix, set_cell matrix 0 j j) matrix;
  for_each (seq 1 (length b))
    (λ i matrix,
       for_each (seq 1 (length a))
         (λ j matrix,
            v ← levenshtein_cell a b matrix i j;
            set_cell matrix i j v) matrix) matrix.

Definition levenshteinDistance (a b : string) : option nat :=
  matrix ← levenshtein_matrix (chars a) (chars b);
  cell matrix (length (chars b)) (length (chars a)).

(** [levenshteinDistance(cName, lowerName) <= 3] *)
Definition within_distance (d : option nat) (bound : nat) : bool :=
  match d with
  | Some n => (n <=? bound)%nat
  | None => false
  end.

Definition suggestion_match (lowerName : string) (c : ComponentMetadata) : bool :=
  let cName := toLowerCase (name c) in
  includes cName lowerName
  || includes lowerName cName
  || within_distance (levenshteinDistance cName lowerName) 3.

Definition getSuggestions (api : AgentAPI) (n : string) : list string :=
  let all := getAllComponents api in
  let lowerName := toLowerCase n in
  map name (take 5 (List.filter (suggestion_match lowerName) all)).

(** ** [mcp/tools/discovery.ts]: tool handlers *)

Record ComponentNotFound := {
  error : string;
  message : string;
  suggestions : list string
}.

(** [s] between double quotes *)
Definition quoted (s : string) : string :=
  let dquote := String (ascii_of_nat 34) EmptyString in
  dquote +:+ s +:+ dquote.

Definition tool_getComponent (api : AgentAPI) (input_name : string)
    : ComponentNotFound + ComponentDetail :=
  match getComponent api input_name with
  | None =>
      inl {| error := "COMPONENT_NOT_FOUND";
             message :=
               "Component " +:+ quoted input_name +:+ " not found in registry";
             suggestions := getSuggestions api input_name |}
  | Some component => inr (formatComponentDetail component)
  end.

(** ** [registry/validators.ts]: property validation *)

(** A value of type [any] as far as the validator looks at it: its
    [typeof] and, for strings, its contents.  Arrays, objects and
    functions are [JSObject]; numbers carry an integer. *)
Inductive JSValue :=
| JSUndefined
| JSNull
| JSBool (b : bool)
| JSNumber (n : Z)
| JSString (s : string)
| JSObject.

#[global] Instance JSValue_eq_dec : EqDecision JSValue.
Proof. solve_decision. Defined.

Definition typeof (v : JSValue) : string :=
  match v with
  | JSUndefined => "undefined"
  | JSNull => "object"
  | JSBool _ => "boolean"
  | JSNumber _ => "number"
  | JSString _ => "string"
  | JSObject => "object"
  end.

(** A plain object is the ordered list of its own enumerable properties
    ([Object.entries]); its prototype is [Object.prototype], whose
    members every plain object inherits. *)
Definition JSObj (V : Type) : Type := list (string * V).

Definition Object_prototype_keys : list string :=
  [ "constructor"; "__defineGetter__"; "__defineSetter__"; "hasOwnProperty";
    "__lookupGetter__"; "__lookupSetter__"; "isPrototypeOf";
    "propertyIsEnumerable"; "toString"; "valueOf"; "__proto__";
    "toLocaleString" ].

Fixpoint own_property {V} (o : JSObj V) (key : string) : option V :=
  match o with
  | [] => None
  | (k, v) :: o' => if bool_decide (k = key) then Some v else own_property o' key
  end.

(** The outcome of the member access [o[key]]. *)
Inductive Member (V : Type) :=
| Own (v : V)        (* an own property of [o] *)
| Inherited          (* a member of [Object.prototype]: a truthy value *)
| Missing.           (* [undefined] *)
Arguments Own {V} v.
Arguments Inherited {V}.
Arguments Missing {V}.

Definition member {V} (o : JSObj V) (key : string) : Member V :=
  match own_property o key with
  | Some v => Own v
  | None =>
      if bool_decide (key ∈ Object_prototype_keys) then Inherited else Missing
  end.

(** [key in o] *)
Definition has_property {V} (o : JSObj V) (key : string) : bool :=
  match member o key with
  | Missing => false
  | _ => true
  end.

(** One entry of a schema's [props] section. *)
Record PropDefinition := {
  prop_type : option string;
  prop_values : option (list string);
  prop_required : bool
}.

Record Schema := {
  schema_props : option (JSObj PropDefinition)
}.

Record PropValidationError := {
  pve_prop : string;
  pve_value : JSValue;
  pve_error : string;
  pve_expected : option (list string)
}.

Record PropValidationResult := {
  pvr_valid : bool;
  pvr_errors : list PropValidationError;
  pvr_warnings : list PropValidationError
}.

(** [propDef.type] and [propDef.values] of whatever
    [schemaPropDefinitions[propName]] evaluated to.  No member of
    [Object.prototype] has a field [type]; [values] is read only after
    [type] was found to be ['enum'], so only on an own definition. *)
Definition def_type (propDef : Member PropDefinition) : option string :=
  match propDef with Own d => prop_type d | _ => None end.

Definition def_values (propDef : Member PropDefinition) : option (list string) :=
  match propDef with Own d => prop_values d | _ => None end.

(** [values.includes(propValue)] on an array of strings *)
Definition values_include (values : list string) (propValue : JSValue) : bool :=
  match propValue with
  | JSString s => bool_decide (s ∈ values)
  | _ => false
  end.

(** [if (cond) errors.push(e)] *)
Definition push_if {A} (cond : bool) (e : A) (l : list A) : list A :=
  if cond then l ++ [e] else l.

(** The body of the loop over [Object.entries(props)]. *)
Definition check_prop (schemaPropDefinitions : JSObj PropDefinition)
    (acc : list PropValidationError * list PropValidationError)
    (entry : string * JSValue)
    : list PropValidationError * list PropValidationError :=
  let '(errors, warnings) := acc in
  let '(propName, propValue) := entry in
  match member schemaPropDefinitions propName with
  | Missing =>
      (errors,
       warnings ++
         [{| pve_prop := propName; pve_value := propValue;
             pve_error :=
               "Prop not defined in schema (may be a valid HTML attribute)";
             pve_expected := None |}])
  | propDef =>
      let errors :=
        if bool_decide (def_type propDef = Some "enum")
        then
          match def_values propDef with
          | Some values =>
              push_if (negb (values_include values propValue))
                {| pve_prop := propName; pve_value := propValue;
                   pve_error := "Invalid value for prop " +:+ quoted propName;
                   pve_expected := Some values |} errors
          | None => errors
          end
        else errors in
      let errors :=
        push_if (bool_decide (def_type propDef = Some "boolean")
                 && bool_decide (typeof propValue ≠ "boolean"))
          {| pve_prop := propName; pve_value := propValue;
             pve_error := "Prop " +:+ quoted propName +:+ " must be a boolean";
             pve_expected := Some ["true"; "false"] |} errors in
      let errors :=
        push_if (bool_decide (def_type propDef = Some "number")
                 && bool_decide (typeof propValue ≠ "number"))
          {| pve_prop := propName; pve_value := propValue;
             pve_error := "Prop " +:+ quoted propName +:+ " must be a number";
             pve_expected := None |} errors in
      let errors :=
        push_if (bool_decide (def_type propDef = Some "string")
                 && bool_decide (typeof propValue ≠ "string"))
          {| pve_prop := propName; pve_value := propValue;
             pve_error := "Prop " +:+ quoted propName +:+ " must be a string";
             pve_expected := None |} errors in
      (errors, warnings)
  end.

(** The body of the loop over [Object.entries(schemaPropDefinitions)]. *)
Definition check_required (props : JSObj JSValue)
    (errors : list PropValidationError) (entry : string * PropDefinition)
    : list PropValidationError :=
  let '(propName, propDef) := entry in
  push_if (prop_required propDef && negb (has_property props propName))
    {| pve_prop := propName; pve_value := JSUndefined;
       pve_error := "Required prop " +:+ quoted propName +:+ " is missing";
       pve_expected := None |} errors.

Definition validatePropsAgainstSchema (schema : option Schema)
    (props : JSObj JSValue) : PropValidationResult :=
  let errors : list PropValidationError := [] in
  let warnings : list PropValidationError := [] in
  match schema ≫= schema_props with
  | None => {| pvr_valid := true; pvr_errors := errors; pvr_warnings := warnings |}
  | Some schemaPropDefinitions =>
      let '(errors, warnings) :=
        foldl (check_prop schemaPropDefinitions) (errors, warnings) props in
      let errors := foldl (check_required props) errors schemaPropDefinitions in
      {| pvr_valid := bool_decide (length errors = 0);
         pvr_errors := errors;
         pvr_warnings := warnings |}
  end.

(** ** [AgentAPI.validateProps] *)

Record ValidationError := {
  ve_field : string;
  ve_value : JSValue;
  ve_error : string;
  ve_expected : option string
}.

Record ValidationResult := {
  vr_valid : bool;
  vr_errors : list ValidationError
}.

(** What [validateProps] hands back: an object literal of its own, or the
    object returned by [validatePropsAgainstSchema]. *)
Inductive ValidatePropsResult :=
| OwnResult (r : ValidationResult)
| SchemaResult (r : PropValidationResult).

Definition result_valid (r : ValidatePropsResult) : bool :=
  match r with
  | OwnResult r => vr_valid r
  | SchemaResult r => pvr_valid r
  end.

Definition result_error_count (r : ValidatePropsResult) : nat :=
  match r with
  | OwnResult r => length (vr_errors r)
  | SchemaResult r => length (pvr_errors r)
  end.

(** The outcome of a call that may throw: [Throws] carries the message of
    the error. *)
Inductive Thrown (A : Type) :=
| Throws (error_message : string)
| Returns (value : A).
Arguments Throws {A} error_message.
Arguments Returns {A} value.

(** The outcome of [require(specifier)] where [require] is a function:
    the exports of the module, or an exception. *)
Inductive RequireResult :=
| RequireThrows
| RequireModule (exports : option Schema).

(** The [require] that [validateProps] names.  The sources are ES modules
    ([import] and [export] throughout, [import.meta.url] in the scanner),
    and in an ES module [require] is not defined: evaluating it throws a
    [ReferenceError].  Where the code is built as CommonJS, [require] is a
    function: [validators] says whether [require('./validators')] loads
    the module [validators.ts] of this repository, and
    [buttonSchemaModule] is the outcome of
    [require('../components/atoms/button/Button.schema.json')], a file
    that is not part of the sources. *)
Inductive Require :=
| RequireUndefined
| RequireFunction (validators : bool) (buttonSchemaModule : RequireResult).

(** [validateProps].  The [require('./validators')] stands before the
    [try] block, so that its exception leaves the method; the [require]
    of the schema stands inside, where the [catch] swallows it. *)
Definition validateProps (require : Require) (api : AgentAPI)
    (componentName : string) (props : JSObj JSValue)
    : Thrown ValidatePropsResult :=
  match getComponent api componentName with
  | None =>
      Returns
        (OwnResult
           {| vr_valid := false;
              vr_errors :=
                [{| ve_field := "component"; ve_value := JSString componentName;
                    ve_error := "Component not found in registry";
                    ve_expected := None |}] |})
  | Some component =>
      if missing_or_pending (schema component)
      then Returns (OwnResult {| vr_valid := true; vr_errors := [] |})
      else
        match require with
        | RequireUndefined => Throws "require is not defined"
        | RequireFunction false _ => Throws "Cannot find module './validators'"
        | RequireFunction true buttonSchemaModule =>
            let fallthrough :=
              Returns (OwnResult {| vr_valid := true; vr_errors := [] |}) in
            if bool_decide (name component = "Button")
            then
              match buttonSchemaModule with
              | RequireModule buttonSchema =>
                  Returns (SchemaResult
                             (validatePropsAgainstSchema buttonSchema props))
              | RequireThrows => fallthrough
              end
            else fallthrough
        end
  end.

(** ** Regular expressions *)

(** The fragment of the regular-expression syntax that the two literals in
    [validateDesignTokens] use.  [Plus cls] is [c+] for a character class
    [c]; [Group n r] is the [n]-th capturing group. *)
Inductive regex :=
| Lit (s : string)
| Plus (cls : ascii → bool)
| Seq (r1 r2 : regex)
| Alt (r1 r2 : regex)
| Group (n : nat) (r : regex).

(** Backtracking matcher in continuation-passing style: alternatives are
    tried left to right and [c+] is greedy, giving characters back one at
    a time when the continuation fails. *)
Fixpoint rmatch {R} (r : regex) (s : list ascii) (caps : gmap nat (list ascii))
    (k : list ascii → gmap nat (list ascii) → option R) : option R :=
  match r with
  | Lit l =>
      if startsWith_chars (chars l) s
      then k (drop (length (chars l)) s) caps else None
  | Plus cls =>
      (fix plus (s : list ascii) : option R :=
         match s with
         | c :: s' =>
             if cls c
             then match plus s' with
                  | Some res => Some res
                  | None => k s' caps
                  end
             else None
         | [] => None
         end) s
  | Seq r1 r2 => rmatch r1 s caps (λ s' caps', rmatch r2 s' caps' k)
  | Alt r1 r2 =>
      match rmatch r1 s caps k with
      | Some res => Some res
      | None => rmatch r2 s caps k
      end
  | Group n r =>
      rmatch r s caps
        (λ s' caps', k s' (<[n := take (length s - length s') s]> caps'))
  end.

(** The array returned by [exec]: [match[0]], the groups and [index]. *)
Record RegExpMatch := {
  match_text : list ascii;
  match_groups : gmap nat (list ascii);
  match_index : nat
}.

(** [match[n]] *)
Definition match_group (m : RegExpMatch) (n : nat) : option (list ascii) :=
  match n with
  | 0 => Some (match_text m)
  | _ => match_groups m !! n
  end.

(** Try to match [r] at the start of [s]. *)
Definition match_here (r : regex) (s : list ascii) (index : nat)
    : option RegExpMatch :=
  rmatch r s ∅
    (λ s' caps,
       Some {| match_text := take (length s - length s') s;
               match_groups := caps;
               match_index := index |}).

(** Leftmost match in [s], which starts at position [index] of the input. *)
Fixpoint search (r : regex) (s : list ascii) (index : nat) : option RegExpMatch :=
  match match_here r s index with
  | Some m => Some m
  | None =>
      match s with
      | [] => None
      | _ :: s' => search r s' (S index)
      end
  end.

(** [re.exec(input)] for a regular expression with the [g] flag whose
    [lastIndex] is [lastIndex]; returns the match and the new
    [lastIndex]. *)
Definition exec (r : regex) (input : list ascii) (lastIndex : nat)
    : option RegExpMatch * nat :=
  if (length input <? lastIndex)%nat then (None, 0)
  else
    match search r (drop lastIndex input) lastIndex with
    | Some m => (Some m, match_index m + length (match_text m))
    | None => (None, 0)
    end.

(** [while ((match = re.exec(input)) !== null) body].  The loop runs as
    long as [exec] finds a match; [fuel] bounds the number of iterations
    and [None] says that the bound was hit. *)
Fixpoint exec_loop {St} (fuel : nat) (r : regex) (input : list ascii)
    (lastIndex : nat) (body : RegExpMatch → St → St) (st : St) : option St :=
  match fuel with
  | 0 => None
  | S fuel' =>
      match exec r input lastIndex with
      | (Some m, lastIndex') =>
          exec_loop fuel' r input lastIndex' body (body m st)
      | (None, _) => Some st
      end
  end.

(** ** [registry/validators.ts]: design tokens *)

Definition in_range (lo hi : nat) (c : ascii) : bool :=
  let n := nat_of_ascii c in ((lo <=? n) && (n <=? hi))%nat.

(** [\d] *)
Definition is_digit (c : ascii) : bool := in_range 48 57 c.

(** [\w] *)
Definition is_word (c : ascii) : bool :=
  in_range 97 122 c || in_range 65 90 c || is_digit c || bool_decide (c = "_"%char).

(** [[^\]]] *)
Definition not_close_bracket (c : ascii) : bool := negb (bool_decide (c = "]"%char)).

(** [/(bg|text|border)-(\w+-\d+)/g] *)
Definition colorRegex : regex :=
  Seq (Group 1 (Alt (Lit "bg") (Alt (Lit "text") (Lit "border"))))
      (Seq (Lit "-")
           (Group 2 (Seq (Plus is_word) (Seq (Lit "-") (Plus is_digit))))).

(** [/\[([^\]]+)\]/g] *)
Definition arbitraryRegex : regex :=
  Seq (Lit "[") (Seq (Group 1 (Plus not_close_bracket)) (Lit "]")).

Record TokenValidation := {
  valid : bool;
  hardCodedValues : list string;
  warnings : list string
}.

Definition str (l : list ascii) : string := string_of_list_ascii l.

(** The body of the first [while] loop. *)
Definition color_body (m : RegExpMatch) (acc : list string * list string)
    : list string * list string :=
  let '(hardCodedValues, warnings) := acc in
  if bool_decide (match_group m 2 ≠ Some (chars "inherit"))
     && bool_decide (match_group m 2 ≠ Some (chars "current"))
     && bool_decide (match_group m 2 ≠ Some (chars "transparent"))
  then
    (hardCodedValues ++ [str (match_text m)],
     warnings ++
       ["Hard-coded color found: " +:+ quoted (str (match_text m))
        +:+ ". Use semantic tokens instead."])
  else acc.

(** The body of the second [while] loop. *)
Definition arbitrary_body (m : RegExpMatch) (acc : list string * list string)
    : list string * list string :=
  let '(hardCodedValues, warnings) := acc in
  (hardCodedValues ++ [str (match_text m)],
   warnings ++
     ["Arbitrary value found: " +:+ quoted (str (match_text m))
      +:+ ". Use design tokens instead."]).

(** Both loops get enough fuel for one iteration per character and the
    final failing [exec]; [None] would mean that a loop does not stop. *)
Definition validateDesignTokens (className : string) : option TokenValidation :=
  let input := chars className in
  let fuel := S (length input) in
  acc ← exec_loop fuel colorRegex input 0 color_body ([], []);
  acc ← exec_loop fuel arbitraryRegex input 0 arbitrary_body acc;
  let '(hardCodedValues, warnings) := acc in
  Some {| valid := bool_decide (length hardCodedValues = 0);
          hardCodedValues := hardCodedValues;
          warnings := warnings |}.

(** ** The tool server: [mcp/server.ts] and the [search_components] tool *)

(** [Array.prototype.slice(0, end)] *)
Definition slice0 {A} (l : list A) (e : Z) : list A :=
  if (e <? 0)%Z then take (length l - Z.to_nat (- e)) l
  else take (Z.to_nat e) l.

Record SearchComponentsInput := {
  input_query : string;
  input_limit : option Z
}.

Record SearchComponentsOutput := {
  output_query : string;
  output_count : nat;
  output_results : list SearchResult
}.

(** [input.limit || 10] *)
Definition limit_or (limit : option Z) (dflt : Z) : Z :=
  match limit with
  | Some n => if bool_decide (n = 0%Z) then dflt else n
  | None => dflt
  end.

(** The handler [searchComponents] of [discovery.ts]. *)
Definition tool_searchComponents (api : AgentAPI) (input : SearchComponentsInput)
    : SearchComponentsOutput :=
  let found := searchComponents api (input_query input) in
  let limited := slice0 found (limit_or (input_limit input) 10) in
  {| output_query := input_query input;
     output_count := length limited;
     output_results :=
       map (λ c, formatSearchResult c (input_query input)) limited |}.

(** [searchComponentsSchema]:
    [{ query: z.string().min(1), limit: z.number().optional().default(10) }].
    Parsing fails on a query shorter than one character and fills in the
    default limit. *)
Definition searchComponentsSchema (args : SearchComponentsInput)
    : option SearchComponentsInput :=
  if (1 <=? String.length (input_query args))%nat
  then Some {| input_query := input_query args;
               input_limit := Some (default 10%Z (input_limit args)) |}
  else None.

(** The answer to a tool call. [server.tool(name, description, schema, cb)]
    makes the server parse the arguments with [schema] before it runs
    [cb]; arguments that do not parse are answered with an
    invalid-parameters error and [cb] does not run. *)
Inductive ToolCallResult (R : Type) :=
| InvalidParams
| ToolResult (content : R).
Arguments InvalidParams {R}.
Arguments ToolResult {R} content.

Definition call_tool {I R} (schema : I → option I) (handler : I → R) (args : I)
    : ToolCallResult R :=
  match schema args with
  | None => InvalidParams
  | Some input => ToolResult (handler input)
  end.

(** A call of the registered tool [search_components]. *)
Definition call_search_components (api : AgentAPI) (args : SearchComponentsInput)
    : ToolCallResult SearchComponentsOutput :=
  call_tool searchComponentsSchema (tool_searchComponents api) args.

(** ** Sample data *)

(** The entry of [componentRegistry] in [component-registry.ts]. *)
Definition Button : ComponentMetadata :=
  {| name := "Button";
     category := CatAtom;
     path := "src/components/atoms/button/Button.tsx";
     schema := Some "src/components/atoms/button/Button.schema.json";
     documentation := Some "src/components/atoms/button/Button.md";
     internalDependencies := ["cn"];
     externalDependencies := ["@radix-ui/react-slot"; "class-variance-authority"];
     componentDependencies := [];
     tags := ["interactive"; "form"; "action"; "navigation"; "clickable"];
     complexity := CxSimple;
     lastUpdated := "2024-11-17";
     version := "1.0.0";
     description :=
       "A versatile button component with multiple variants and sizes for user interactions";
     wcagLevel := WcagAA;
     hasTesting := false;
     hasStorybook := false;
     migrationStatus := None |}.

Definition componentRegistry : list ComponentMetadata := [Button].

(** The record that the scanner ([scripts/scan-components.cjs]) emits for
    [src/components/ui/badge.tsx] once the directory
    [src/components/atoms/badge] exists: a migrated component with a
    schema of its own, whose name is not [Button]. *)
Definition Badge : ComponentMetadata :=
  {| name := "Badge";
     category := CatAtom;
     path := "src/components/ui/badge.tsx";
     schema := Some "src/components/atoms/badge/Badge.schema.json";
     documentation := Some "src/components/atoms/badge/Badge.md";
     internalDependencies := ["cn"];
     externalDependencies := ["@radix-ui/react-slot"; "class-variance-authority"];
     componentDependencies := [];
     tags := ["atom"; "display"];
     complexity := CxSimple;
     lastUpdated := "2024-11-17";
     version := "1.0.0";
     description := "Small status indicator or label for categorization";
     wcagLevel := WcagAA;
     hasTesting := false;
     hasStorybook := false;
     migrationStatus := Some MsDocumented |}.

(** A record as the scanner emits it for a component that is not migrated
    yet; [ref] is its schema and documentation reference. *)
Definition unmigrated (n : string) (ref : option string) : ComponentMetadata :=
  {| name := n;
     category := CatAtom;
     path := "src/components/ui/" +:+ toLowerCase n +:+ ".tsx";
     schema := ref;
     documentation := ref;
     internalDependencies := [];
     externalDependencies := [];
     componentDependencies := [];
     tags := ["ui"];
     complexity := CxSimple;
     lastUpdated := "2024-11-17";
     version := "1.0.0";
     description := n +:+ " component";
     wcagLevel := WcagAA;
     hasTesting := false;
     hasStorybook := false;
     migrationStatus := Some MsPending |}.

(** ** Specification-level notions *)

(** The key under which a record is stored in the name maps. *)
Definition name_key (c : ComponentMetadata) : string := toLowerCase (name c).

(** No two records of the list have names that are equal up to case. *)
Definition unique_names (registry : list ComponentMetadata) : Prop :=
  NoDup (map name_key registry).

(** The last record of the list whose name equals [n] up to case. *)
Definition last_named (registry : list ComponentMetadata) (n : string)
    : option ComponentMetadata :=
  last (List.filter (λ c, bool_decide (name_key c = toLowerCase n)) registry).

(** The entries that one record contributes to the list of tag [t]: one
    per occurrence of [t] among its tags. *)
Definition tag_entries (t : string) (c : ComponentMetadata)
    : list ComponentMetadata :=
  map (λ _, c) (List.filter (λ tag, bool_decide (tag = t)) (tags c)).

(** [m.get(k) || []] *)
Definition entries `{Countable K} (m : gmap K (list ComponentMetadata)) (k : K)
    : list ComponentMetadata :=
  default [] (m !! k).

(** A supplied filter [o] holds of [c]; an omitted one holds of everything. *)
Definition holds {A} (o : option A) (p : A → ComponentMetadata → bool)
    (c : ComponentMetadata) : bool :=
  match o with
  | Some v => p v c
  | None => true
  end.

(** The tag constraint of a filter object alone. *)
Definition tags_hold (ftags : option (list string)) (c : ComponentMetadata) : bool :=
  match ftags with
  | Some ((_ :: _) as ftags) => existsb (has_tag c) ftags
  | _ => true
  end.

(** The constraints of a filter object other than the tag constraint. *)
Definition others_hold (filters : ComponentFilters) (c : ComponentMetadata) : bool :=
  holds (filter_category filters) (λ cat c, bool_decide (category c = cat)) c
  && holds (filter_complexity filters) (λ cx c, bool_decide (complexity c = cx)) c
  && holds (filter_migrationStatus filters)
       (λ ms c, bool_decide (migrationStatus c = Some ms)) c
  && holds (filter_hasSchema filters)
       (λ (want : bool) c,
          if want then reference_present (schema c)
          else reference_missing (schema c)) c
  && holds (filter_hasDocumentation filters)
       (λ (want : bool) c,
          if want then reference_present (documentation c)
          else reference_missing (documentation c)) c
  && holds (filter_hasTesting filters) (λ want c, bool_decide (hasTesting c = want)) c.

(** ** The [discover_components] tool handler *)

Record DiscoverComponentsInput := {
  discover_category : option Category;
  discover_tags : option (list string);
  discover_complexity : option Complexity;
  discover_hasSchema : option bool;
  discover_hasDocumentation : option bool;
  discover_limit : option Z
}.

Record DiscoverComponentsOutput := {
  discovered_count : nat;
  discovered_totalMatches : nat;
  discovered_components : list ComponentSummary
}.

Definition tool_discoverComponents (api : AgentAPI)
    (input : DiscoverComponentsInput) : DiscoverComponentsOutput :=
  let filters :=
    {| filter_category := discover_category input;
       filter_tags := discover_tags input;
       filter_complexity := discover_complexity input;
       filter_migrationStatus := None;
       filter_hasSchema := discover_hasSchema input;
       filter_hasDocumentation := discover_hasDocumentation input;
       filter_hasTesting := None |} in
  let found := discoverComponents api (Some filters) in
  let limited := slice0 found (limit_or (discover_limit input) 20) in
  {| discovered_count := length limited;
     discovered_totalMatches := length found;
     discovered_components := map formatComponentSummary limited |}.

(** ** More sample data *)

(** The two records that differ only in how the missing schema and
    documentation are written. *)
Definition Card_pending : ComponentMetadata := unmigrated "Card" (Some "pending").
Definition Card_absent : ComponentMetadata := unmigrated "Card" None.

(** A filter object asking for components without a schema. *)
Definition without_schema : DiscoverComponentsInput :=
  {| discover_category := None; discover_tags := None;
     discover_complexity := None; discover_hasSchema := Some false;
     discover_hasDocumentation := None; discover_limit := None |}.

(** A schema in the shape of [Button.schema.json]: an enumerated
    [variant], a boolean flag and a required string. *)
Definition sampleSchema : Schema :=
  {| schema_props :=
       Some [ ("variant",
               {| prop_type := Some "enum";
                  prop_values := Some ["default"; "destructive"];
                  prop_required := false |});
              ("disabled",
               {| prop_type := Some "boolean"; prop_values := None;
                  prop_required := false |}) ] |}.

(** A schema that declares no property at all. *)
Definition emptySchema : Schema := {| schema_props := Some [] |}.

(** The property set declared by a schema section. *)
Definition declared (schemaPropDefinitions : JSObj PropDefinition) (propName : string)
    : Prop :=
  propName ∈ map fst schemaPropDefinitions.

(** The warning that [check_prop] pushes for an undeclared property. *)
Definition undeclared_warning (entry : string * JSValue) : PropValidationError :=
  {| pve_prop := fst entry; pve_value := snd entry;
     pve_error := "Prop not defined in schema (may be a valid HTML attribute)";
     pve_expected := None |}.

(** [schemaPropDefinitions[propName]] is [undefined]. *)
Definition is_missing (schemaPropDefinitions : JSObj PropDefinition)
    (entry : string * JSValue) : bool :=
  match member schemaPropDefinitions (fst entry) with
  | Missing => true
  | _ => false
  end.

(** ** Edit distance *)

(** [edits x y n]: [x] is turned into [y] by [n] single-character
    substitutions, deletions and insertions, read off an alignment of the
    two strings from left to right. *)
Inductive edits : list ascii → list ascii → nat → Prop :=
| edits_nil : edits [] [] 0
| edits_keep c x y n : edits x y n → edits (c :: x) (c :: y) n
| edits_substitute c d x y n : edits x y n → edits (c :: x) (d :: y) (S n)
| edits_delete c x y n : edits x y n → edits (c :: x) y (S n)
| edits_insert d x y n : edits x y n → edits x (d :: y) (S n).

(** [d] is the Levenshtein distance of [x] and [y]: the least number of
    edits that turn one into the other. *)
Definition levenshtein (x y : list ascii) (d : nat) : Prop :=
  edits x y d ∧ ∀ n, edits x y n → d ≤ n.

(** The recurrence that the matrix of [levenshteinDistance] follows, read
    from the front of the two strings. *)
Fixpoint lev (x y : list ascii) {struct x} : nat :=
  match x with
  | [] => length y
  | c :: x' =>
      (fix lev_c (y : list ascii) : nat :=
         match y with
         | [] => S (length x')
         | d :: y' =>
             if bool_decide (c = d) then lev x' y'
             else S (lev x' y' `min` (lev_c y' `min` lev x' y))
         end) y
  end.

(** The value that the matrix holds at row [i], column [j]. *)
Definition D (a b : list ascii) (i j : nat) : nat :=
  lev (rev (take i b)) (rev (take j a)).

(** The matrix while row [i] is being filled and has [j] entries: the rows
    above are complete, the rows below still are [[i']]. *)
Definition matrix_at (a b : list ascii) (i j : nat) : list (list nat) :=
  ((λ i', D a b i' <$> seq 0 (S (length a))) <$> seq 0 i)
  ++ [D a b i <$> seq 0 j]
  ++ ((λ i', [i']) <$> seq (S i) (length b - i)).

(** The lowercased name [cName] of a record is close to the lowercased
    query [lowerName]: it contains the query, is contained in it, or is at
    Levenshtein distance at most 3 from it. *)
Definition close_name (lowerName cName : string) : Prop :=
  is_substring lowerName cName
  ∨ is_substring cName lowerName
  ∨ ∃ d, levenshtein (chars cName) (chars lowerName) d ∧ d ≤ 3.

(** ** What a regular expression matches *)

(** [lang r caps t caps']: the text [t] matches [r], and matching it turns
    the captures [caps] into [caps']. *)
Inductive lang : regex → gmap nat (list ascii) → list ascii
                 → gmap nat (list ascii) → Prop :=
| lang_Lit l caps : lang (Lit l) caps (chars l) caps
| lang_Plus cls caps t :
    t ≠ [] → Forall (λ c, cls c = true) t → lang (Plus cls) caps t caps
| lang_Seq r1 r2 caps t1 caps1 t2 caps2 :
    lang r1 caps t1 caps1 → lang r2 caps1 t2 caps2 →
    lang (Seq r1 r2) caps (t1 ++ t2) caps2
| lang_Alt_l r1 r2 caps t caps' :
    lang r1 caps t caps' → lang (Alt r1 r2) caps t caps'
| lang_Alt_r r1 r2 caps t caps' :
    lang r2 caps t caps' → lang (Alt r1 r2) caps t caps'
| lang_Group n r caps t caps' :
    lang r caps t caps' → lang (Group n r) caps t (<[n := t]> caps').

(** The longest prefix of [s] whose characters all are in the class. *)
Fixpoint run (cls : ascii → bool) (s : list ascii) : list ascii :=
  match s with
  | c :: s' => if cls c then c :: run cls s' else []
  | [] => []
  end.

(** The matches that the [exec] loop finds in [s], the part of the input
    from position [index] on, when the next [skip] characters belong to
    the previous match. *)
Fixpoint matches (r : regex) (s : list ascii) (index skip : nat)
    : list RegExpMatch :=
  match s with
  | [] => []
  | _ :: s' =>
      match skip with
      | S skip' => matches r s' (S index) skip'
      | 0 =>
          match match_here r s index with
          | Some m => m :: matches r s' (S index) (length (match_text m) - 1)
          | None => matches r s' (S index) 0
          end
      end
  end.

(** A regular expression whose matches are never empty, so that the
    [exec] loop advances. *)
Definition consuming (r : regex) : Prop :=
  ∀ s index m, match_here r s index = Some m → match_text m ≠ [].

(** ** Tokens of a class string *)

(** [(bg|text|border)-<word>-<number>] *)
Definition is_color_token (tok : list ascii) : Prop :=
  ∃ p w d,
    p ∈ [chars "bg"; chars "text"; chars "border"]
    ∧ w ≠ [] ∧ Forall (λ c, is_word c = true) w
    ∧ d ≠ [] ∧ Forall (λ c, is_digit c = true) d
    ∧ tok = p ++ chars "-" ++ w ++ chars "-" ++ d.

(** [[...]] with a non-empty content free of closing brackets *)
Definition is_arbitrary_token (tok : list ascii) : Prop :=
  ∃ body,
    body ≠ [] ∧ Forall (λ c, not_close_bracket c = true) body
    ∧ tok = chars "[" ++ body ++ chars "]".

(** The characters that a color token is made of: [\w] and the hyphen. *)
Definition is_token_char (c : ascii) : bool :=
  is_word c || bool_decide (c = "-"%char).

(** Space, tab, line feed, form feed, carriage return. *)
Definition is_space (c : ascii) : bool :=
  bool_decide (nat_of_ascii c ∈ [32; 9; 10; 12; 13]).

(** The occurrence of a token between [pre] and [post] is delimited: it
    is not glued to a word character or hyphen before it, and no digit
    follows it.  A class name that stands between white space or at an
    end of the class string is delimited. *)
Definition delimited (pre post : list ascii) : Prop :=
  (pre = [] ∨ ∃ pre' c, pre = pre' ++ [c] ∧ is_token_char c = false)
  ∧ (post = [] ∨ ∃ c post', post = c :: post' ∧ is_digit c = false).

(** Every opening bracket in [pre] has a closing bracket after it. *)
Definition brackets_closed (pre : list ascii) : Prop :=
  ∀ u1 u2, pre = u1 ++ "["%char :: u2 → "]"%char ∈ u2.

(** ** [AgentAPI]: statistics *)

(** The counters that the [forEach] of [getStats] updates. *)
Record StatsCounters := {
  byCategory : Category → nat;
  byComplexity : Complexity → nat;
  documented : nat;
  withTests : nat;
  withStorybook : nat
}.

(** [counts[k]++] on an object that holds a counter for every key *)
Definition increment `{EqDecision K} (counts : K → nat) (k : K) : K → nat :=
  λ k', if decide (k' = k) then S (counts k') else counts k'.

(** [c.schema && c.schema !== 'pending' && c.documentation &&
     c.documentation !== 'pending'] *)
Definition is_documented (c : ComponentMetadata) : bool :=
  truthy (schema c) && bool_decide (schema c ≠ Some "pending")
  && truthy (documentation c) && bool_decide (documentation c ≠ Some "pending").

(** The callback of [this.components.forEach] in [getStats]. *)
Definition count_component (st : StatsCounters) (c : ComponentMetadata)
    : StatsCounters :=
  {| byCategory := increment (byCategory st) (category c);
     byComplexity := increment (byComplexity st) (complexity c);
     documented := if is_documented c then S (documented st) else documented st;
     withTests := if hasTesting c then S (withTests st) else withTests st;
     withStorybook :=
       if hasStorybook c then S (withStorybook st) else withStorybook st |}.

Record RegistryStats := {
  stats_total : nat;
  stats_byCategory : Category → nat;
  stats_byComplexity : Complexity → nat;
  stats_documented : nat;
  stats_withTests : nat;
  stats_withStorybook : nat;
  stats_wcagCompliance_AA : nat;
  stats_wcagCompliance_AAA : nat
}.

Definition getStats (api : AgentAPI) : RegistryStats :=
  let st :=
    foldl count_component
      {| byCategory := λ _, 0; byComplexity := λ _, 0;
         documented := 0; withTests := 0; withStorybook := 0 |}
      (components api) in
  {| stats_total := length (components api);
     stats_byCategory := byCategory st;
     stats_byComplexity := byComplexity st;
     stats_documented := documented st;
     stats_withTests := withTests st;
     stats_withStorybook := withStorybook st;
     stats_wcagCompliance_AA :=
       length (List.filter (λ c, bool_decide (wcagLevel c = WcagAA)) (components api));
     stats_wcagCompliance_AAA :=
       length (List.filter (λ c, bool_decide (wcagLevel c = WcagAAA)) (components api)) |}.

(** ** [AgentAPI]: helper methods *)

Definition getByTag (api : AgentAPI) (tag : string) : list ComponentMetadata :=
  List.filter (λ c, has_tag c tag) (components api).

Definition getFormComponents (api : AgentAPI) : list ComponentMetadata :=
  getByTag api "form".

Definition getInteractiveComponents (api : AgentAPI) : list ComponentMetadata :=
  getByTag api "interactive".

Definition getLayoutComponents (api : AgentAPI) : list ComponentMetadata :=
  getByTag api "layout".

Definition getAtoms (api : AgentAPI) : list ComponentMetadata :=
  List.filter (λ c, bool_decide (category c = CatAtom)) (components api).

Definition getMolecules (api : AgentAPI) : list ComponentMetadata :=
  List.filter (λ c, bool_decide (category c = CatMolecule)) (components api).

Definition getOrganisms (api : AgentAPI) : list ComponentMetadata :=
  List.filter (λ c, bool_decide (category c = CatOrganism)) (components api).

(** ** [AgentAPI.suggestAlternatives] *)

(** [Array.prototype.sort(compare)].  The sort is stable: elements that
    compare equal keep their order.  For a comparator that orders by a
    key, as the one of [suggestAlternatives] does, this fixes the result,
    which is computed here by insertion from the right. *)
Fixpoint sort_insert {A} (compare : A → A → Z) (x : A) (sorted : list A) : list A :=
  match sorted with
  | [] => [x]
  | y :: rest =>
      if (compare x y <=? 0)%Z then x :: sorted
      else y :: sort_insert compare x rest
  end.

Definition Array_sort {A} (compare : A → A → Z) (l : list A) : list A :=
  foldr (sort_insert compare) [] l.

(** A comparator that orders by a key, greatest first:
    [(a, b) => key(b) - key(a)]. *)
Definition by_key_descending {A} (key : A → nat) (a b : A) : Z :=
  (Z.of_nat (key b) - Z.of_nat (key a))%Z.

(** [a.tags.filter(tag => component.tags.includes(tag)).length] *)
Definition matching_tags (component a : ComponentMetadata) : nat :=
  length (List.filter (has_tag component) (tags a)).

(** The predicate of the [filter] callback in [suggestAlternatives]. *)
Definition is_alternative (componentName : string) (component c : ComponentMetadata)
    : bool :=
  bool_decide (name c ≠ componentName)
  && existsb (has_tag component) (tags c).

Definition suggestAlternatives (api : AgentAPI) (componentName : string)
    : list string :=
  match getComponent api componentName with
  | None => []
  | Some component =>
      let alternatives :=
        map name
          (slice0
             (Array_sort
                (λ a b,
                   let aMatches := matching_tags component a in
                   let bMatches := matching_tags component b in
                   (Z.of_nat bMatches - Z.of_nat aMatches)%Z)
                (List.filter (is_alternative componentName component)
                             (components api)))
             5) in
      alternatives
  end.

(** ** [AgentAPI]: loading *)

Definition loadDocumentation (api : AgentAPI) (componentName : string)
    : Thrown (option string) :=
  match getComponent api componentName with
  | None => Throws ("Component " +:+ quoted componentName +:+ " not found")
  | Some component =>
      match documentation component with
      | Some doc =>
          if missing_or_pending (Some doc) then Returns None
          else Returns (Some ("See documentation at: " +:+ doc))
      | None => Returns None
      end
  end.

(** ** [mcp/tools/discovery.ts]: statistics and category lists *)

Definition getRegistryStats (api : AgentAPI) : RegistryStats := getStats api.

Record ListByCategoryOutput := {
  listed_category : Category;
  listed_count : nat;
  listed_total : nat;
  listed_components : list ComponentSummary
}.

(** The common body of [listAtoms], [listMolecules] and [listOrganisms]. *)
Definition list_category (cat : Category) (components : list ComponentMetadata)
    (limit : option Z) : ListByCategoryOutput :=
  let limited := slice0 components (limit_or limit 50) in
  {| listed_category := cat;
     listed_count := length limited;
     listed_total := length components;
     listed_components := map formatComponentSummary limited |}.

Definition listAtoms (api : AgentAPI) (limit : option Z) : ListByCategoryOutput :=
  list_category CatAtom (getAtoms api) limit.

Definition listMolecules (api : AgentAPI) (limit : option Z) : ListByCategoryOutput :=
  list_category CatMolecule (getMolecules api) limit.

Definition listOrganisms (api : AgentAPI) (limit : option Z) : ListByCategoryOutput :=
  list_category CatOrganism (getOrganisms api) limit.

(** ** [mcp/tools/generation.ts]: [load_documentation] *)

Record ToolError := {
  tool_error : string;
  tool_message : string
}.

(** [{ error: 'COMPONENT_NOT_FOUND', message: ... }] *)
Definition component_not_found (input_name : string) : ToolError :=
  {| tool_error := "COMPONENT_NOT_FOUND";
     tool_message := "Component " +:+ quoted input_name +:+ " not found in registry" |}.

Inductive LoadDocumentationOutput :=
| DocumentationError (e : ToolError)
| DocumentationNotAvailable (e : ToolError) (component : string)
    (hasDocumentation : bool)
| DocumentationLoaded (componentName : string) (doc : string)
    (doc_path : option string).

(** The handler [loadDocumentation] of [generation.ts]; an exception of
    [agentAPI.loadDocumentation] would propagate. *)
Definition tool_loadDocumentation (api : AgentAPI) (input_name : string)
    : Thrown LoadDocumentationOutput :=
  match getComponent api input_name with
  | None => Returns (DocumentationError (component_not_found input_name))
  | Some component =>
      match loadDocumentation api input_name with
      | Throws e => Throws e
      | Returns doc =>
          match doc with
          | Some text =>
              if truthy doc
              then Returns (DocumentationLoaded (name component) text
                              (documentation component))
              else Returns (DocumentationNotAvailable
                     {| tool_error := "DOCUMENTATION_NOT_AVAILABLE";
                        tool_message :=
                          "No documentation available for component "
                          +:+ quoted input_name |}
                     (name component) false)
          | None =>
              Returns (DocumentationNotAvailable
                     {| tool_error := "DOCUMENTATION_NOT_AVAILABLE";
                        tool_message :=
                          "No documentation available for component "
                          +:+ quoted input_name |}
                     (name component) false)
          end
      end
  end.

(** ** More [String.prototype] methods *)

(** [s.startsWith(prefix)] *)
Definition startsWith (s prefix : string) : bool :=
  startsWith_chars (chars prefix) (chars s).

(** [s.replace(pattern, replacement)] for a string [pattern]: the first
    occurrence of the pattern, read from the left, is replaced.  The
    replacement is inserted as it is; the replacement patterns that start
    with a dollar sign do not occur in the replacements of this code. *)
Fixpoint replace_chars (pat rep l : list ascii) : list ascii :=
  if startsWith_chars pat l then rep ++ drop (length pat) l
  else match l with
       | [] => []
       | c :: l' => c :: replace_chars pat rep l'
       end.

Definition replace (s pattern replacement : string) : string :=
  str (replace_chars (chars pattern) (chars replacement) (chars s)).

(** [parts.join(separator)] *)
Fixpoint join (separator : string) (parts : list string) : string :=
  match parts with
  | [] => ""
  | part :: rest =>
      match rest with
      | [] => part
      | _ :: _ => part +:+ separator +:+ join separator rest
      end
  end.

(** [l] ends with [suffix] *)
Definition endsWith_chars (l suffix : list ascii) : bool :=
  (length suffix <=? length l)%nat
  && bool_decide (drop (length l - length suffix) l = suffix).

(** ** [AgentAPI]: code generation *)

Definition generateImport (api : AgentAPI) (componentName : string)
    : Thrown string :=
  match getComponent api componentName with
  | None => Throws ("Component " +:+ quoted componentName +:+ " not found")
  | Some component =>
      let importPath :=
        replace (replace (replace (path component) "src/" "@/") ".tsx" "")
                ".ts" "" in
      Returns ("import { " +:+ name component +:+ " } from '" +:+ importPath +:+ "'")
  end.

(** ** [mcp/tools/generation.ts]: [generate_import] *)

(** [filePath.replace(/^src\//, '@/')]: the pattern is anchored at the
    start of the string. *)
Definition replace_leading_src (filePath : string) : string :=
  if startsWith filePath "src/"
  then "@/" +:+ str (drop 4 (chars filePath))
  else filePath.

(** [s.replace(/\.tsx?$/, '')]: the pattern is anchored at the end of the
    string, so that it matches a final [.tsx] or else a final [.ts]. *)
Definition strip_ts_extension (s : string) : string :=
  let l := chars s in
  if endsWith_chars l (chars ".tsx") then str (take (length l - 4) l)
  else if endsWith_chars l (chars ".ts") then str (take (length l - 3) l)
  else s.

Definition getImportPath (filePath : string) : string :=
  strip_ts_extension (replace_leading_src filePath).

Record GenerateImportOutput := {
  generated_import : string;
  generated_typeImport : option string;
  generated_path : string
}.

(** The handler [generateImport] of [generation.ts]; an exception of
    [agentAPI.generateImport] would propagate. *)
Definition tool_generateImport (api : AgentAPI) (input_name : string)
    (includeTypes : option bool) : Thrown (ToolError + GenerateImportOutput) :=
  match getComponent api input_name with
  | None => Returns (inl (component_not_found input_name))
  | Some component =>
      match generateImport api input_name with
      | Throws e => Throws e
      | Returns importStatement =>
          let typeImport :=
            if default false includeTypes
            then Some ("import type { " +:+ name component +:+ "Props } from '"
                       +:+ getImportPath (path component) +:+ "'")
            else None in
          Returns (inr {| generated_import := importStatement;
                          generated_typeImport := typeImport;
                          generated_path := getImportPath (path component) |})
      end
  end.

(** ** [registry/validators.ts]: import statements *)

Record ImportStatementValidation := {
  statement_valid : bool;
  statement_error : option string
}.

Definition validateImportStatement (importStatement componentName expectedPath : string)
    : ImportStatementValidation :=
  if negb (includes importStatement componentName)
  then {| statement_valid := false;
          statement_error :=
            Some ("Import statement must include component name "
                  +:+ quoted componentName) |}
  else if negb (startsWith importStatement "import")
  then {| statement_valid := false;
          statement_error :=
            Some ("Statement must start with " +:+ quoted "import") |}
  else if negb (includes importStatement "@/") && negb (includes importStatement "./")
  then {| statement_valid := false;
          statement_error :=
            Some ("Import path must use " +:+ quoted "@/" +:+ " or relative "
                  +:+ quoted "./" +:+ " notation") |}
  else {| statement_valid := true; statement_error := None |}.

(** ** [registry/validators.ts]: component metadata *)

Record SchemaValidationError := {
  sve_path : string;
  sve_error : string
}.

Record SchemaValidationResult := {
  svr_valid : bool;
  svr_errors : list SchemaValidationError
}.

(** [\d+\.\d+\.\d+] *)
Definition semverRegex : regex :=
  Seq (Plus is_digit)
      (Seq (Lit ".") (Seq (Plus is_digit) (Seq (Lit ".") (Plus is_digit)))).

(** [/^r$/.test(s)]: the match starts at the start of [s] and has to end
    at its end. *)
Definition test_anchored (r : regex) (s : list ascii) : bool :=
  match rmatch r s ∅ (λ s' _, if bool_decide (s' = []) then Some () else None) with
  | Some _ => true
  | None => false
  end.

(** A component record as [validateComponentMetadata] reads it.  The
    registry comes from a JSON file through a cast that checks nothing
    ([as unknown as ComponentMetadata[]]), so that the category, the
    complexity and the WCAG level are the strings that the file holds,
    among the values of their types or not.  A field that the file leaves
    out is the empty string here (the empty list for the tags): the
    checks below treat the two alike. *)
Record RawMetadata := {
  raw_name : string;
  raw_category : string;
  raw_path : string;
  raw_description : string;
  raw_complexity : string;
  raw_wcagLevel : string;
  raw_version : string;
  raw_tags : list string
}.

Definition Category_string (c : Category) : string :=
  match c with
  | CatAtom => "atom"
  | CatMolecule => "molecule"
  | CatOrganism => "organism"
  | CatTemplate => "template"
  | CatPattern => "pattern"
  end.

Definition Complexity_string (c : Complexity) : string :=
  match c with
  | CxSimple => "simple"
  | CxModerate => "moderate"
  | CxComplex => "complex"
  end.

Definition WcagLevel_string (l : WcagLevel) : string :=
  match l with
  | WcagA => "A"
  | WcagAA => "AA"
  | WcagAAA => "AAA"
  end.

(** A record of the type [ComponentMetadata], as the validator reads it. *)
Definition raw_metadata (c : ComponentMetadata) : RawMetadata :=
  {| raw_name := name c;
     raw_category := Category_string (category c);
     raw_path := path c;
     raw_description := description c;
     raw_complexity := Complexity_string (complexity c);
     raw_wcagLevel := WcagLevel_string (wcagLevel c);
     raw_version := version c;
     raw_tags := tags c |}.

Definition validCategories : list string :=
  ["atom"; "molecule"; "organism"; "template"; "pattern"].

Definition validComplexities : list string := ["simple"; "moderate"; "complex"].

Definition validWCAG : list string := ["A"; "AA"; "AAA"].

Definition validateComponentMetadata (metadata : RawMetadata)
    : SchemaValidationResult :=
  let errors : list SchemaValidationError := [] in
  let errors :=
    push_if (bool_decide (raw_name metadata = ""))
      {| sve_path := "name"; sve_error := "Component name is required" |} errors in
  let errors :=
    push_if (bool_decide (raw_category metadata = ""))
      {| sve_path := "category";
         sve_error := "Component category is required" |} errors in
  let errors :=
    push_if (bool_decide (raw_path metadata = ""))
      {| sve_path := "path"; sve_error := "Component path is required" |} errors in
  let errors :=
    push_if (bool_decide (raw_description metadata = ""))
      {| sve_path := "description";
         sve_error := "Component description is required" |} errors in
  let errors :=
    push_if (negb (bool_decide (raw_category metadata = ""))
             && negb (bool_decide (raw_category metadata ∈ validCategories)))
      {| sve_path := "category";
         sve_error :=
           "Invalid category " +:+ quoted (raw_category metadata)
           +:+ ". Must be one of: " +:+ join ", " validCategories |} errors in
  let errors :=
    push_if (negb (bool_decide (raw_complexity metadata = ""))
             && negb (bool_decide (raw_complexity metadata ∈ validComplexities)))
      {| sve_path := "complexity";
         sve_error :=
           "Invalid complexity " +:+ quoted (raw_complexity metadata)
           +:+ ". Must be one of: " +:+ join ", " validComplexities |} errors in
  let errors :=
    push_if (negb (bool_decide (raw_wcagLevel metadata = ""))
             && negb (bool_decide (raw_wcagLevel metadata ∈ validWCAG)))
      {| sve_path := "wcagLevel";
         sve_error :=
           "Invalid WCAG level " +:+ quoted (raw_wcagLevel metadata)
           +:+ ". Must be one of: " +:+ join ", " validWCAG |} errors in
  let errors :=
    push_if (negb (bool_decide (raw_version metadata = ""))
             && negb (test_anchored semverRegex (chars (raw_version metadata))))
      {| sve_path := "version";
         sve_error :=
           "Invalid version format " +:+ quoted (raw_version metadata)
           +:+ ". Must be semver (e.g., 1.0.0)" |} errors in
  let errors :=
    push_if (bool_decide (length (raw_tags metadata) = 0))
      {| sve_path := "tags";
         sve_error := "Component must have at least one tag" |} errors in
  {| svr_valid := bool_decide (length errors = 0);
     svr_errors := errors |}.





(** The version strings that [semverRegex] accepts:
    [<digits>.<digits>.<digits>]. *)
Definition is_semver (v : list ascii) : Prop :=
  ∃ major minor patch,
    major ≠ [] ∧ Forall (λ c, is_digit c = true) major
    ∧ minor ≠ [] ∧ Forall (λ c, is_digit c = true) minor
    ∧ patch ≠ [] ∧ Forall (λ c, is_digit c = true) patch
    ∧ v = major ++ chars "." ++ minor ++ chars "." ++ patch.

(** ** [ComponentRegistryIndex]: enumeration *)

(** A [Map] iterates over its entries in the order in which their keys
    were first set; setting a key again replaces the value and keeps the
    place.  [nameIndex_keys registry] are the keys of the [nameIndex]
    that [buildIndices] fills from [registry], in that order. *)
Definition nameIndex_keys (registry : list ComponentMetadata) : list string :=
  foldl (λ keys component,
           let key := toLowerCase (name component) in
           if bool_decide (key ∈ keys) then keys else keys ++ [key])
        [] registry.

(** The methods of the instance [new ComponentRegistryIndex(registry)]
    that enumerate its maps. *)
Module RegistryIndex.

(** [Array.from(this.nameIndex.values())] *)
Definition nameIndex_values (registry : list ComponentMetadata)
    : list ComponentMetadata :=
  omap (λ key, nameIndex (ComponentRegistryIndex_new registry) !! key)
       (nameIndex_keys registry).

Definition getAll (registry : list ComponentMetadata) : list ComponentMetadata :=
  nameIndex_values registry.

Definition findByComplexity (registry : list ComponentMetadata) (cx : Complexity)
    : list ComponentMetadata :=
  List.filter (λ c, bool_decide (complexity c = cx)) (nameIndex_values registry).

Definition search (registry : list ComponentMetadata) (keyword : string)
    : list ComponentMetadata :=
  let lowerKeyword := toLowerCase keyword in
  List.filter
    (λ c, includes (toLowerCase (name c)) lowerKeyword
          || includes (toLowerCase (description c)) lowerKeyword
          || existsb (λ tag, includes (toLowerCase tag) lowerKeyword) (tags c))
    (nameIndex_values registry).

(** [counts[category] = components.length] for every entry of
    [categoryIndex] *)
Definition getCountByCategory (registry : list ComponentMetadata)
    : gmap Category nat :=
  length <$> categoryIndex (ComponentRegistryIndex_new registry).

Record Stats := {
  idx_total : nat;
  idx_byCategory : gmap Category nat;
  idx_byComplexity : Complexity → nat;
  idx_withTests : nat;
  idx_withStorybook : nat;
  idx_wcagCompliance : WcagLevel → nat
}.

Definition getStats (registry : list ComponentMetadata) : Stats :=
  let all := getAll registry in
  {| idx_total := length all;
     idx_byCategory := getCountByCategory registry;
     idx_byComplexity := λ cx, length (findByComplexity registry cx);
     idx_withTests := length (List.filter hasTesting all);
     idx_withStorybook := length (List.filter hasStorybook all);
     idx_wcagCompliance :=
       λ level, length (List.filter (λ c, bool_decide (wcagLevel c = level)) all) |}.

End RegistryIndex.

(** ** [AgentAPI.generateUsage] and [validateJSXUsage] *)


Section Usage.

(** [JSON.stringify(value)], as it appears in a template string. *)
Variable JSON_stringify : JSValue → string.

(** [(text.match(new RegExp(source, 'g')) || []).length]; the constructor
    throws on a source that is no regular expression. *)
Variable count_matches : string → string → Thrown nat.

(** The callback of [Object.entries(props).map] in [generateUsage]. *)
Definition render_prop (entry : string * JSValue) : string :=
  let '(key, value) := entry in
  match value with
  | JSString s => key +:+ "=" +:+ quoted s
  | JSBool b => if b then key else ""
  | _ => key +:+ "={" +:+ JSON_stringify value +:+ "}"
  end.

Definition generateUsage (api : AgentAPI) (componentName : string)
    (props : JSObj JSValue) : Thrown string :=
  match getComponent api componentName with
  | None => Throws ("Component " +:+ quoted componentName +:+ " not found")
  | Some component =>
      let propsString :=
        join " " (List.filter (λ s, negb (bool_decide (s = "")))
                              (map render_prop props)) in
      Returns (if negb (bool_decide (propsString = ""))
               then "<" +:+ name component +:+ " " +:+ propsString +:+ " />"
               else "<" +:+ name component +:+ " />")
  end.


End Usage.

(** ** [mcp/tools/generation.ts]: [generate_usage] *)

(** The replacement text of [s.replace(pattern, replacement)] for a
    string [pattern]: [$$] stands for a dollar sign, [$&] for the matched
    text, [$`] and [$'] for the text before and after the match; any other
    character, and a dollar sign before any other character, stands for
    itself. *)
Fixpoint expand_replacement (replacement matched before after : list ascii)
    : list ascii :=
  match replacement with
  | [] => []
  | c :: rest =>
      if bool_decide (c = "$"%char)
      then match rest with
           | d :: rest' =>
               if bool_decide (d = "$"%char)
               then "$"%char :: expand_replacement rest' matched before after
               else if bool_decide (d = "&"%char)
               then matched ++ expand_replacement rest' matched before after
               else if bool_decide (d = "`"%char)
               then before ++ expand_replacement rest' matched before after
               else if bool_decide (d = "'"%char)
               then after ++ expand_replacement rest' matched before after
               else c :: expand_replacement rest matched before after
           | [] => [c]
           end
      else c :: expand_replacement rest matched before after
  end.

(** The text before and the text after the first occurrence of [pat]. *)
Fixpoint find_first (pat l : list ascii) : option (list ascii * list ascii) :=
  if startsWith_chars pat l then Some ([], drop (length pat) l)
  else match l with
       | [] => None
       | c :: l' =>
           match find_first pat l' with
           | Some (before, after) => Some (c :: before, after)
           | None => None
           end
       end.

(** [s.replace(pattern, replacement)] for a string [pattern] and any
    replacement. *)
Definition replace_first (s pattern replacement : string) : string :=
  match find_first (chars pattern) (chars s) with
  | Some (before, after) =>
      str (before
           ++ expand_replacement (chars replacement) (chars pattern) before after
           ++ after)
  | None => s
  end.

Record GenerateUsageOutput := {
  generated_usage : string;
  generated_usage_import : string;
  generated_complete : string
}.

(** Two line feeds *)
Definition blank_line : string :=
  String (ascii_of_nat 10) (String (ascii_of_nat 10) EmptyString).

(** The handler [generateUsage] of [generation.ts]; exceptions of
    [agentAPI.generateUsage] and [agentAPI.generateImport] would
    propagate. *)
Definition tool_generateUsage (JSON_stringify : JSValue → string)
    (api : AgentAPI) (input_name : string)
    (input_props : option (JSObj JSValue)) (input_children : option string)
    : Thrown (ToolError + GenerateUsageOutput) :=
  match getComponent api input_name with
  | None => Returns (inl (component_not_found input_name))
  | Some component =>
      let props := default [] input_props in
      match generateUsage JSON_stringify api input_name props with
      | Throws e => Throws e
      | Returns usage =>
          match generateImport api input_name with
          | Throws e => Throws e
          | Returns importStatement =>
              let usageWithChildren :=
                match input_children with
                | Some children =>
                    if truthy input_children
                    then
                      if includes usage "/>"
                      then replace_first usage "/>"
                             (">" +:+ children +:+ "</" +:+ name component +:+ ">")
                      else if includes usage ("></" +:+ name component +:+ ">")
                      then replace_first usage ("></" +:+ name component +:+ ">")
                             (">" +:+ children +:+ "</" +:+ name component +:+ ">")
                      else usage
                    else usage
                | None => usage
                end in
              let complete := importStatement +:+ blank_line +:+ usageWithChildren in
              Returns (inr {| generated_usage := usageWithChildren;
                              generated_usage_import := importStatement;
                              generated_complete := complete |})
          end
      end
  end.

(** ** [AgentAPI.validateImportPath] *)

Definition validateImportPath (api : AgentAPI) (componentName importPath : string)
    : ValidationResult :=
  match getComponent api componentName with
  | None =>
      {| vr_valid := false;
         vr_errors :=
           [{| ve_field := "import";
               ve_value := JSString importPath;
               ve_error := "Component " +:+ quoted componentName +:+ " not found";
               ve_expected := None |}] |}
  | Some component =>
      let expectedPath :=
        replace (replace (replace (path component) "src/" "@/") ".tsx" "")
                ".ts" "" in
      let normalizedImport :=
        replace (replace (replace importPath "@/components/" "@/") ".tsx" "")
                ".ts" "" in
      if negb (includes normalizedImport (toLowerCase (name component)))
      then {| vr_valid := false;
              vr_errors :=
                [{| ve_field := "import";
                    ve_value := JSString importPath;
                    ve_error := "Import path does not match component location";
                    ve_expected := Some expectedPath |}] |}
      else {| vr_valid := true; vr_errors := [] |}
  end.

(** ** Loading a schema: [AgentAPI.loadSchema] and [load_schema] *)

Inductive LoadSchemaOutput (Json : Type) :=
| SchemaError (e : ToolError)
| SchemaNotAvailable (e : ToolError) (component : string) (hasSchema : bool)
| SchemaLoaded (componentName : string) (component_category : Category)
    (loaded : Json).
Arguments SchemaError {Json} e.
Arguments SchemaNotAvailable {Json} e component hasSchema.
Arguments SchemaLoaded {Json} componentName component_category loaded.

Section Loading.

(** The values that a JSON module can hold. *)
Variable Json : Type.

(** [await import(specifier)]: the module, or the error that the import
    is rejected with. *)
Variable import_ : string → Thrown Json.

(** [module.default || module] *)
Variable default_or_self : Json → Json.

Definition loadSchema (api : AgentAPI) (componentName : string)
    : Thrown (option Json) :=
  match getComponent api componentName with
  | None => Throws ("Component " +:+ quoted componentName +:+ " not found")
  | Some component =>
      match schema component with
      | Some schemaFile =>
          if missing_or_pending (Some schemaFile) then Returns None
          else
            let schemaPath :=
              replace (replace schemaFile "src/" "../../") ".json" "" in
            match import_ (schemaPath +:+ ".json") with
            | Returns module => Returns (Some (default_or_self module))
            | Throws _ => Returns None
            end
      | None => Returns None
      end
  end.

(** The handler [loadSchema] of [generation.ts]; an exception of
    [agentAPI.loadSchema] would propagate. *)
Definition tool_loadSchema (api : AgentAPI) (input_name : string)
    : Thrown (LoadSchemaOutput Json) :=
  match getComponent api input_name with
  | None => Returns (SchemaError (component_not_found input_name))
  | Some component =>
      match loadSchema api input_name with
      | Throws e => Throws e
      | Returns None =>
          Returns (SchemaNotAvailable
                     {| tool_error := "SCHEMA_NOT_AVAILABLE";
                        tool_message :=
                          "No schema available for component " +:+ quoted input_name |}
                     (name component) false)
      | Returns (Some loaded) =>
          Returns (SchemaLoaded (name component) (category component) loaded)
      end
  end.

End Loading.

(** * Properties *)

(** ** The name maps *)

Lemma filter_snoc {A} (p : A → bool) l x :
  List.filter p (l ++ [x]) = List.filter p l ++ (if p x then [x] else []).
Proof. rewrite List.filter_app. simpl. by destruct (p x). Qed.

Lemma filter_none {A} (p : A → bool) l :
  (∀ x, x ∈ l → p x = false) → List.filter p l = [].
Proof.
  induction l as [|x l IH]; intros Hall; [done|].
  simpl. rewrite Hall by left. apply IH. intros y Hy. apply Hall. by right.
Qed.

Lemma foldl_insert_lookup (m : gmap string ComponentMetadata) l k :
  foldl insert_component m l !! k =
    match last (List.filter (λ c, bool_decide (name_key c = k)) l) with
    | Some c => Some c
    | None => m !! k
    end.
Proof.
  induction l as [|c l IH] using rev_ind; [done|].
  rewrite foldl_app, filter_snoc. simpl. unfold insert_component at 1.
  case_bool_decide as Hk.
  - rewrite last_snoc. unfold name_key in Hk. subst k.
    by rewrite lookup_insert_eq.
  - rewrite app_nil_r. unfold name_key in Hk.
    by rewrite lookup_insert_ne.
Qed.

Lemma getComponent_last_named registry n :
  getComponent (AgentAPI_new registry) n = last_named registry n.
Proof.
  unfold getComponent, AgentAPI_new, last_named. simpl.
  rewrite foldl_insert_lookup. by destruct (last _).
Qed.

Lemma last_named_unique registry c n :
  unique_names registry → c ∈ registry →
  toLowerCase n = name_key c →
  last_named registry n = Some c.
Proof.
  unfold unique_names, last_named. intros Hnd Hin ->.
  induction registry as [|d l IH]; [by apply elem_of_nil in Hin|].
  simpl in Hnd. apply NoDup_cons in Hnd as [Hd Hnd].
  apply elem_of_cons in Hin as [->|Hin]; simpl.
  - rewrite bool_decide_eq_true_2 by done.
    rewrite filter_none; [done|].
    intros x Hx. apply bool_decide_eq_false_2. intros Heq.
    apply Hd. rewrite <- Heq. apply list_elem_of_fmap. by exists x.
  - rewrite bool_decide_eq_false_2; [by apply IH|].
    intros Heq. apply Hd. rewrite Heq. apply list_elem_of_fmap. by exists c.
Qed.

(** ** The indices of [ComponentRegistryIndex] *)

Section PushAt.
Context `{Countable K}.
Implicit Types (m : gmap K (list ComponentMetadata)) (k : K).

Lemma entries_push_at m k c k' :
  entries (push_at k c m) k' = entries m k' ++ (if decide (k = k') then [c] else []).
Proof.
  unfold entries, push_at. case_decide as Hk.
  - subst k'. rewrite lookup_alter_eq.
    case_bool_decide as Hs.
    + by destruct Hs as [l ->].
    + rewrite lookup_insert_eq. apply eq_None_not_Some in Hs.
      by rewrite Hs.
  - rewrite lookup_alter_ne by done.
    case_bool_decide; [|rewrite lookup_insert_ne by done]; by rewrite app_nil_r.
Qed.

End PushAt.

Lemma nameIndex_buildIndices idx registry :
  nameIndex (buildIndices idx registry) =
    foldl insert_component (nameIndex idx) registry.
Proof.
  unfold buildIndices. revert idx.
  induction registry as [|c l IH]; intros idx; [done|].
  simpl. by rewrite IH.
Qed.

Lemma categoryIndex_buildIndices idx registry cat :
  entries (categoryIndex (buildIndices idx registry)) cat =
    entries (categoryIndex idx) cat
    ++ List.filter (λ c, bool_decide (category c = cat)) registry.
Proof.
  unfold buildIndices. revert idx.
  induction registry as [|c l IH]; intros idx; simpl; [by rewrite app_nil_r|].
  rewrite IH. simpl. rewrite entries_push_at, <- app_assoc. f_equal.
  case_decide; case_bool_decide; done.
Qed.

Lemma tagIndex_push_tags (ti : gmap string (list ComponentMetadata)) c ts t :
  entries (foldl (λ ti tag, push_at tag c ti) ti ts) t =
    entries ti t ++ map (λ _, c) (List.filter (λ tag, bool_decide (tag = t)) ts).
Proof.
  revert ti. induction ts as [|tag ts IH]; intros ti; simpl; [by rewrite app_nil_r|].
  rewrite IH, entries_push_at, <- app_assoc. f_equal.
  case_decide; case_bool_decide; done.
Qed.

Lemma tagIndex_buildIndices idx registry t :
  entries (tagIndex (buildIndices idx registry)) t =
    entries (tagIndex idx) t ++ flat_map (tag_entries t) registry.
Proof.
  unfold buildIndices. revert idx.
  induction registry as [|c l IH]; intros idx; simpl; [by rewrite app_nil_r|].
  rewrite IH. simpl. by rewrite tagIndex_push_tags, <- app_assoc.
Qed.

Lemma findByName_last_named registry n :
  findByName (ComponentRegistryIndex_new registry) n = last_named registry n.
Proof.
  unfold findByName, ComponentRegistryIndex_new, last_named.
  rewrite nameIndex_buildIndices, foldl_insert_lookup. simpl.
  by destruct (last _).
Qed.

(** C1, as amended.  Building the lookup structures never fails, whatever
    the record list.  A lookup by name, through [AgentAPI] or through
    [ComponentRegistryIndex], answers with the last record of the list that
    has this name up to case: a later record with a duplicate name replaces
    the earlier one.  The category and tag indices keep every record, in
    list order. *)
Theorem build_indices_last_wins (registry : list ComponentMetadata) :
  let api := AgentAPI_new registry in
  let idx := ComponentRegistryIndex_new registry in
  components api = registry
  ∧ (∀ n, getComponent api n = last_named registry n)
  ∧ (∀ n, findByName idx n = last_named registry n)
  ∧ (∀ cat, findByCategory idx cat =
            List.filter (λ c, bool_decide (category c = cat)) registry)
  ∧ (∀ t, findByTag idx t = flat_map (tag_entries t) registry).
Proof.
  simpl. split_and!; [done|..].
  - apply getComponent_last_named.
  - apply findByName_last_named.
  - intros cat. unfold findByCategory, ComponentRegistryIndex_new.
    fold (entries (categoryIndex (buildIndices
            {| nameIndex := ∅; categoryIndex := ∅; tagIndex := ∅ |} registry)) cat).
    by rewrite categoryIndex_buildIndices.
  - intros t. unfold findByTag, ComponentRegistryIndex_new.
    fold (entries (tagIndex (buildIndices
            {| nameIndex := ∅; categoryIndex := ∅; tagIndex := ∅ |} registry)) t).
    by rewrite tagIndex_buildIndices.
Qed.

(** C1 fails on the code: from a list with the two names [Button] and
    [button] both constructions produce an index that answers queries, and
    the answer for that name is the later record; the earlier one is
    overwritten without any error. *)
Lemma duplicate_name_overwritten :
  let earlier := Button in
  let later := unmigrated "button" None in
  let registry := [earlier; later] in
  toLowerCase (name earlier) = toLowerCase (name later)
  ∧ earlier ≠ later
  ∧ getComponent (AgentAPI_new registry) "Button" = Some later
  ∧ findByName (ComponentRegistryIndex_new registry) "Button" = Some later
  ∧ findByCategory (ComponentRegistryIndex_new registry) CatAtom = registry.
Proof. by vm_compute. Qed.

(** C2.  When the names of the registry are unique up to case, every
    record of it is found by [getComponent] under every spelling of its
    name that lowercases to the same string. *)
Theorem getComponent_finds_every_record
    (registry : list ComponentMetadata) (R : ComponentMetadata) (s : string) :
  unique_names registry →
  R ∈ registry →
  toLowerCase s = toLowerCase (name R) →
  getComponent (AgentAPI_new registry) s = Some R.
Proof.
  intros Huniq Hin Hs. rewrite getComponent_last_named.
  by apply last_named_unique.
Qed.

Lemma getComponent_finds_every_record_witness :
  unique_names [Button; unmigrated "Card" None]
  ∧ Button ∈ [Button; unmigrated "Card" None]
  ∧ toLowerCase "BUTTON" = toLowerCase (name Button)
  ∧ getComponent (AgentAPI_new [Button; unmigrated "Card" None]) "BUTTON"
    = Some Button.
Proof.
  assert (unique_names [Button; unmigrated "Card" None]) as Huniq.
  { unfold unique_names. vm_compute.
    apply NoDup_cons. split; [|apply NoDup_singleton].
    by intros [=]%list_elem_of_singleton. }
  assert (Button ∈ [Button; unmigrated "Card" None]) as Hin by left.
  assert (toLowerCase "BUTTON" = toLowerCase (name Button)) as Hs by reflexivity.
  split_and!; [done..|].
  exact (getComponent_finds_every_record _ _ _ Huniq Hin Hs).
Defined.

(** ** Filtering *)

Lemma filter_filter {A} (p q : A → bool) l :
  List.filter q (List.filter p l) = List.filter (λ x, p x && q x) l.
Proof.
  induction l as [|x l IH]; [done|]. simpl.
  destruct (p x); simpl; [destruct (q x)|]; by rewrite IH.
Qed.

Lemma filter_when_holds {A} (o : option A) p q l :
  filter_when o p (List.filter q l) = List.filter (λ c, q c && holds o p c) l.
Proof.
  destruct o as [v|]; simpl; [apply filter_filter|].
  apply List.filter_ext. intros c. by rewrite andb_true_r.
Qed.

Lemma filter_true {A} (l : list A) : List.filter (λ _, true) l = l.
Proof. induction l as [|x l IH]; [done|]. simpl. by rewrite IH. Qed.

Lemma filter_when_holds0 {A} (o : option A) p l :
  filter_when o p l = List.filter (holds o p) l.
Proof. destruct o as [v|]; simpl; [done|]. by rewrite filter_true. Qed.

(** [discoverComponents] keeps, in registry order, the records on which
    every supplied constraint holds. *)
Lemma discoverComponents_filter api filters :
  discoverComponents api (Some filters) =
    List.filter (λ c, others_hold filters c && tags_hold (filter_tags filters) c)
                (components api).
Proof.
  unfold discoverComponents. cbv zeta.
  set (l := components api).
  rewrite !(filter_when_holds0 (filter_category filters)).
  assert (∀ q,
    match filter_tags filters with
    | Some ftags =>
        if (0 <? length ftags)%nat
        then List.filter (λ c, existsb (has_tag c) ftags) (List.filter q l)
        else List.filter q l
    | None => List.filter q l
    end = List.filter (λ c, q c && tags_hold (filter_tags filters) c) l) as Htags.
  { intros q. destruct (filter_tags filters) as [[|t ts]|]; simpl.
    - apply List.filter_ext. intros c. by rewrite andb_true_r.
    - exact (filter_filter q (λ c, existsb (has_tag c) (t :: ts)) l).
    - apply List.filter_ext. intros c. by rewrite andb_true_r. }
  rewrite Htags. rewrite !filter_when_holds.
  apply List.filter_ext. intros c. unfold others_hold. simpl.
  repeat (destruct (holds _ _ c); simpl; try done);
    by destruct (tags_hold _ c).
Qed.

Lemma elem_of_List_filter {A} (p : A → bool) l x :
  x ∈ List.filter p l ↔ x ∈ l ∧ p x = true.
Proof. rewrite !list_elem_of_In. apply List.filter_In. Qed.

Lemma existsb_elem_of {A} (p : A → bool) l :
  existsb p l = true ↔ ∃ x, x ∈ l ∧ p x = true.
Proof.
  rewrite List.existsb_exists. by setoid_rewrite list_elem_of_In.
Qed.

(** C3.  The tag filter of [discoverComponents] is any-of.  With the
    other filters fixed, a call with a non-empty tag list returns, in
    registry order, the records that meet the other filters and carry at
    least one of the tags.  So the result for the tag list [a, b] consists
    of the records of the registry that are in the result for [a] or in
    the result for [b], in registry order; and the empty tag list gives
    the result of the filter object without a tag list, which is the
    records that meet the other filters. *)
Theorem discoverComponents_tags_any_of
    (api : AgentAPI) (filters : ComponentFilters) (a b : string) :
  let discover t := discoverComponents api (Some (with_tags filters t)) in
  discover (Some [a; b]) =
    List.filter (λ c, bool_decide (c ∈ discover (Some [a]) ∨ c ∈ discover (Some [b])))
                (components api)
  ∧ discover (Some []) = discover None
  ∧ discover None = List.filter (others_hold filters) (components api)
  ∧ (∀ ftags, ftags ≠ [] →
       discover (Some ftags)
       = List.filter (λ c, existsb (has_tag c) ftags) (discover None))
  ∧ (∀ c, c ∈ discover (Some [a]) ↔
          c ∈ components api ∧ others_hold filters c = true ∧ a ∈ tags c)
  ∧ (∀ c, c ∈ discover (Some [a; b]) ↔
          c ∈ components api ∧ others_hold filters c = true
          ∧ (a ∈ tags c ∨ b ∈ tags c)).
Proof.
  intros discover.
  assert (Hothers : ∀ t c, others_hold (with_tags filters t) c = others_hold filters c)
    by done.
  assert (Hnone : discover None = List.filter (others_hold filters) (components api)).
  { unfold discover. rewrite discoverComponents_filter.
    apply List.filter_ext. intros c. cbn [with_tags filter_tags tags_hold].
    by rewrite Hothers, andb_true_r. }
  assert (Hsome : ∀ ftags, ftags ≠ [] →
            discover (Some ftags)
            = List.filter (λ c, existsb (has_tag c) ftags) (discover None)).
  { intros ftags Hne. rewrite Hnone. unfold discover.
    rewrite discoverComponents_filter, filter_filter.
    apply List.filter_ext. intros c. cbn [with_tags filter_tags].
    rewrite Hothers. f_equal. by destruct ftags as [|t ts]. }
  assert (Hmember : ∀ ftags c, ftags ≠ [] →
            c ∈ discover (Some ftags) ↔
            c ∈ components api ∧ others_hold filters c = true
            ∧ ∃ tag, tag ∈ ftags ∧ tag ∈ tags c).
  { intros ftags c Hne. rewrite (Hsome ftags Hne), Hnone.
    rewrite !elem_of_List_filter, existsb_elem_of. unfold has_tag.
    setoid_rewrite bool_decide_eq_true. tauto. }
  split; [|split; [|split; [done|split; [done|split]]]].
  - rewrite (Hsome [a; b]) by done. rewrite Hnone, filter_filter.
    apply List.filter_ext_in. intros c Hc%list_elem_of_In.
    assert (Hone : ∀ t, c ∈ discover (Some [t]) ↔
                        others_hold filters c = true ∧ has_tag c t = true).
    { intros t. rewrite (Hmember [t]) by done. unfold has_tag.
      rewrite bool_decide_eq_true. split.
      - intros (_ & ? & tag & Hin & Htag).
        by apply list_elem_of_singleton in Hin as ->.
      - intros [? ?]. split; [done|]. split; [done|].
        exists t. split; [by left|done]. }
    cbn [existsb]. rewrite orb_false_r.
    destruct (others_hold filters c) eqn:Ho, (has_tag c a) eqn:Ha,
      (has_tag c b) eqn:Hb; cbn [andb orb]; symmetry;
      first [ apply bool_decide_eq_true_2; rewrite !Hone, Ha, Hb; by auto
            | apply bool_decide_eq_false_2; rewrite !Hone, Ha, Hb;
              by intros [[? ?]|[? ?]] ].
  - unfold discover. rewrite !discoverComponents_filter.
    apply List.filter_ext. intros c. by rewrite !Hothers.
  - intros c. rewrite (Hmember [a]) by done. split.
    + intros (? & ? & tag & Hin & Htag).
      by apply list_elem_of_singleton in Hin as ->.
    + intros (? & ? & ?). split; [done|]. split; [done|].
      exists a. split; [by left|done].
  - intros c. rewrite (Hmember [a; b]) by done. split.
    + intros (? & ? & tag & Hin & Htag). split; [done|]. split; [done|].
      apply elem_of_cons in Hin as [->|Hin]; [by left|].
      apply list_elem_of_singleton in Hin as ->. by right.
    + intros (? & ? & [?|?]); (split; [done|]); (split; [done|]).
      * exists a. split; [by left|done].
      * exists b. split; [right; by left|done].
Qed.

(** ** The ["pending"] sentinel *)

(** The read sites in [AgentAPI] agree on a reference that is [null] or
    ["pending"]: the filters of [discoverComponents] and the tests of
    [getComponentHealth], [loadSchema] and [validateProps] treat both as
    missing. *)
Lemma pending_like_absent_in_AgentAPI (v : option string) :
  v = None ∨ v = Some "pending" →
  reference_present v = false
  ∧ reference_missing v = true
  ∧ missing_or_pending v = true
  ∧ truthy v && bool_decide (v ≠ Some "pending") = false.
Proof. by intros [->| ->]. Qed.

(** C6 at its failing input.  For a record whose schema and documentation
    are ["pending"], the filter and the health report give the same
    [hasSchema] and [hasDocumentation] as for the record with [null]
    references, but [formatComponentSummary] gives [true] where the
    [null] record gives [false]; a [discover_components] call for
    components without a schema then returns the record with
    [hasSchema: true]. *)
Theorem formatComponentSummary_pending_is_present :
  let api_pending := AgentAPI_new [Card_pending] in
  let api_absent := AgentAPI_new [Card_absent] in
  (discoverComponents api_pending
     (Some {| filter_category := None; filter_tags := None;
              filter_complexity := None; filter_migrationStatus := None;
              filter_hasSchema := Some true; filter_hasDocumentation := Some true;
              filter_hasTesting := None |}) = []
   ∧ discoverComponents api_absent
       (Some {| filter_category := None; filter_tags := None;
                filter_complexity := None; filter_migrationStatus := None;
                filter_hasSchema := Some true; filter_hasDocumentation := Some true;
                filter_hasTesting := None |}) = [])
  ∧ (health_hasSchema <$> getComponentHealth api_pending "Card" = Some false
     ∧ health_hasSchema <$> getComponentHealth api_absent "Card" = Some false
     ∧ health_hasDocumentation <$> getComponentHealth api_pending "Card" = Some false
     ∧ health_hasDocumentation <$> getComponentHealth api_absent "Card" = Some false)
  ∧ (summary_hasSchema (formatComponentSummary Card_pending) = true
     ∧ summary_hasSchema (formatComponentSummary Card_absent) = false
     ∧ summary_hasDocumentation (formatComponentSummary Card_pending) = true
     ∧ summary_hasDocumentation (formatComponentSummary Card_absent) = false)
  ∧ summary_hasSchema <$>
      discovered_components (tool_discoverComponents api_pending without_schema)
    = [true].
Proof. by vm_compute. Qed.

(** ** Substrings *)

Lemma startsWith_chars_spec p l :
  startsWith_chars p l = true ↔ ∃ post, l = p ++ post.
Proof.
  revert l. induction p as [|c p IH]; intros l; simpl.
  - split; [by exists l|done].
  - destruct l as [|d l].
    + split; [done|]. by intros [post ?].
    + rewrite andb_true_iff, bool_decide_eq_true, IH. split.
      * intros [-> [post ->]]. by exists post.
      * intros [post [= -> ->]]. split; [done|by exists post].
Qed.

Lemma includes_chars_spec l sub :
  includes_chars l sub = true ↔ ∃ pre post, l = pre ++ sub ++ post.
Proof.
  induction l as [|d l IH]; simpl; rewrite orb_true_iff, startsWith_chars_spec.
  - split.
    + intros [[post ->]|?]; [by exists [], post|done].
    + intros (pre & post & Heq). left. exists post.
      destruct pre; [done|discriminate].
  - rewrite IH. split.
    + intros [[post ->]|(pre & post & ->)]; [by exists [], post|].
      by exists (d :: pre), post.
    + intros ([|e pre] & post & Heq).
      * left. by exists post.
      * right. injection Heq as -> ->. by exists pre, post.
Qed.

(** [includes] decides the substring relation. *)
Lemma includes_spec s sub : includes s sub = true ↔ is_substring sub s.
Proof. apply includes_chars_spec. Qed.

Lemma includes_empty s : includes s "" = true.
Proof. unfold includes. by destruct (chars s). Qed.

Lemma List_filter_sublist {A} (p : A → bool) l : List.filter p l `sublist_of` l.
Proof.
  induction l as [|x l IH]; simpl; [done|].
  destruct (p x); by constructor.
Qed.

(** ** Keyword search *)

Lemma search_match_spec lowerQuery c :
  search_match lowerQuery c = true ↔
    is_substring lowerQuery (toLowerCase (name c))
    ∨ is_substring lowerQuery (toLowerCase (description c))
    ∨ ∃ tag, tag ∈ tags c ∧ is_substring lowerQuery (toLowerCase tag).
Proof.
  unfold search_match.
  rewrite !orb_true_iff, !includes_spec, existsb_elem_of.
  setoid_rewrite includes_spec. tauto.
Qed.

(** C7.  [searchComponents] returns, in registry order, exactly the records
    for which the lowercased query is a substring of the lowercased name,
    of the lowercased description or of some lowercased tag.  Two queries
    that differ only in case give the same list, and the query [but] finds
    every record named [Button]. *)
Theorem searchComponents_substring_case_insensitive (api : AgentAPI) (q : string) :
  (∀ c, c ∈ searchComponents api q ↔
        c ∈ components api
        ∧ (is_substring (toLowerCase q) (toLowerCase (name c))
           ∨ is_substring (toLowerCase q) (toLowerCase (description c))
           ∨ ∃ tag, tag ∈ tags c
                    ∧ is_substring (toLowerCase q) (toLowerCase tag)))
  ∧ searchComponents api q `sublist_of` components api
  ∧ (∀ q', toLowerCase q' = toLowerCase q →
           searchComponents api q' = searchComponents api q)
  ∧ (∀ c, c ∈ components api → name c = "Button" →
          c ∈ searchComponents api "but").
Proof.
  split_and!.
  - intros c. unfold searchComponents.
    by rewrite elem_of_List_filter, search_match_spec.
  - apply List_filter_sublist.
  - intros q' Hq. unfold searchComponents. by rewrite Hq.
  - intros c Hc Hname. unfold searchComponents.
    apply elem_of_List_filter. split; [done|].
    unfold search_match. by rewrite Hname.
Qed.

Lemma searchComponents_substring_case_insensitive_witness :
  toLowerCase "BUTTON" = toLowerCase "button"
  ∧ Button ∈ components (AgentAPI_new componentRegistry)
  ∧ name Button = "Button"
  ∧ searchComponents (AgentAPI_new componentRegistry) "BUTTON"
    = searchComponents (AgentAPI_new componentRegistry) "button"
  ∧ Button ∈ searchComponents (AgentAPI_new componentRegistry) "but".
Proof.
  assert (toLowerCase "BUTTON" = toLowerCase "button") as Hq by reflexivity.
  assert (Button ∈ components (AgentAPI_new componentRegistry)) as Hin by left.
  assert (name Button = "Button") as Hname by reflexivity.
  destruct (searchComponents_substring_case_insensitive
              (AgentAPI_new componentRegistry) "button")
    as (_ & _ & Hcase & Hbut).
  split_and!; [done..| |].
  - exact (Hcase "BUTTON" Hq).
  - exact (Hbut Button Hin Hname).
Defined.

(** ** The empty query *)

Lemma searchComponents_empty_query api :
  searchComponents api "" = components api.
Proof.
  unfold searchComponents. rewrite <- (filter_true (components api)) at 2.
  apply List.filter_ext. intros c. unfold search_match.
  by rewrite includes_empty.
Qed.

(** C9 fails on the code: [AgentAPI.searchComponents] called with the
    empty string returns the entire registry, and so does the handler of
    the tool when it is called without the server in front of it. *)
Lemma empty_query_returns_everything :
  let api := AgentAPI_new componentRegistry in
  searchComponents api "" = [Button]
  ∧ output_count
      (tool_searchComponents api {| input_query := ""; input_limit := None |}) = 1
  ∧ components api = [Button].
Proof. by vm_compute. Qed.

(** C9, as amended.  A call of the [search_components] tool with the empty
    string as query is rejected by the input schema of the tool (minimum
    length 1) and its handler does not run; a non-empty query passes the
    schema.  [AgentAPI.searchComponents] itself has no such check: on the
    empty string it returns every record. *)
Theorem empty_query_rejected_by_tool_schema
    (api : AgentAPI) (args : SearchComponentsInput) :
  (input_query args = "" → call_search_components api args = InvalidParams)
  ∧ (input_query args ≠ "" →
     ∃ input, input_query input = input_query args
              ∧ call_search_components api args
                = ToolResult (tool_searchComponents api input))
  ∧ searchComponents api "" = components api.
Proof.
  unfold call_search_components, call_tool, searchComponentsSchema.
  split_and!.
  - by intros ->.
  - intros Hq. destruct (input_query args) eqn:Hargs; [done|]. simpl.
    eexists. split; [|done]. done.
  - apply searchComponents_empty_query.
Qed.

Lemma empty_query_rejected_by_tool_schema_witness :
  input_query {| input_query := ""; input_limit := Some 5%Z |} = ""
  ∧ call_search_components (AgentAPI_new componentRegistry)
      {| input_query := ""; input_limit := Some 5%Z |} = InvalidParams.
Proof.
  split; [done|].
  by apply (empty_query_rejected_by_tool_schema (AgentAPI_new componentRegistry)
              {| input_query := ""; input_limit := Some 5%Z |}).
Defined.

(** ** [validateProps] *)

(** C10.  For a record other than [Button], [validateProps] returns
    [valid: true] with an empty error list only as far as it returns:
    that is the case when the record has no schema, and when [require]
    is a function that loads the validators.  Where [require] is not
    defined, as in the ES modules that the sources are, the method
    throws for a record with a schema: so it does for [Badge], a migrated
    component with the schema [src/components/atoms/badge/Badge.schema.json],
    on every property map.
    Where [require] is a function that loads the validators, the method
    returns on every input, also when the [require] of the [Button]
    schema, inside the [try] block, throws. *)
Theorem validateProps_throws_without_require :
  (let api := AgentAPI_new [Button; Badge] in
   getComponent api "badge" = Some Badge
   ∧ name Badge ≠ "Button"
   ∧ ∀ props, validateProps RequireUndefined api "badge" props
              = Throws "require is not defined")
  ∧ (∀ require api componentName R props,
       getComponent api componentName = Some R →
       name R ≠ "Button" →
       validateProps require api componentName props
       = if missing_or_pending (schema R)
         then Returns (OwnResult {| vr_valid := true; vr_errors := [] |})
         else match require with
              | RequireUndefined => Throws "require is not defined"
              | RequireFunction false _ =>
                  Throws "Cannot find module './validators'"
              | RequireFunction true _ =>
                  Returns (OwnResult {| vr_valid := true; vr_errors := [] |})
              end)
  ∧ (∀ buttonSchemaModule api componentName props,
       ∃ result,
         validateProps (RequireFunction true buttonSchemaModule) api
           componentName props
         = Returns result).
Proof.
  split; [|split].
  - cbv zeta. split; [reflexivity|]. split; [discriminate|]. by intros props.
  - intros require api componentName R props Hget Hname.
    unfold validateProps. rewrite Hget.
    destruct (missing_or_pending (schema R)); [done|].
    destruct require as [|[] buttonSchemaModule]; [done| |done].
    by rewrite bool_decide_eq_false_2.
  - intros buttonSchemaModule api componentName props. unfold validateProps.
    destruct (getComponent api componentName) as [component|]; [|by eexists].
    destruct (missing_or_pending (schema component)); [by eexists|].
    case_bool_decide; [|by eexists].
    destruct buttonSchemaModule; by eexists.
Qed.

(** ** [validatePropsAgainstSchema] *)

Lemma own_property_declared {V} (o : JSObj V) key :
  own_property o key = None ↔ key ∉ map fst o.
Proof.
  induction o as [|[k v] o IH]; simpl.
  - split; [intros _; apply not_elem_of_nil|done].
  - rewrite not_elem_of_cons. case_bool_decide as Hk.
    + split; [done|]. by intros [? _].
    + rewrite IH. split; [|by intros [_ ?]]. intros ?. split; [congruence|done].
Qed.

Lemma member_missing {V} (o : JSObj V) key :
  member o key = Missing ↔ (key ∉ map fst o) ∧ (key ∉ Object_prototype_keys).
Proof.
  unfold member. rewrite <- own_property_declared.
  destruct (own_property o key) as [v|].
  - split; [done|]. by intros [? _].
  - case_bool_decide; split; try done; by intros [_ ?].
Qed.

Lemma push_if_elem_of {A} (cond : bool) (e x : A) l :
  x ∈ push_if cond e l → x ∈ l ∨ (cond = true ∧ x = e).
Proof.
  unfold push_if. destruct cond; [|by left].
  rewrite elem_of_app, list_elem_of_singleton. intros [?|?]; [by left|by right].
Qed.

(** The first loop: the warnings are those of the entries whose lookup is
    [undefined], in order, and every error names a declared property. *)
Lemma check_prop_fold schemaPropDefinitions props errors warnings :
  let '(errors', warnings') :=
    foldl (check_prop schemaPropDefinitions) (errors, warnings) props in
  warnings' = warnings
              ++ map undeclared_warning
                   (List.filter (is_missing schemaPropDefinitions) props)
  ∧ ∀ e, e ∈ errors' →
         e ∈ errors
         ∨ ((pve_prop e, pve_value e) ∈ props
            ∧ declared schemaPropDefinitions (pve_prop e)).
Proof.
  revert errors warnings.
  induction props as [|[propName propValue] props IH]; intros errors warnings; simpl.
  - split; [by rewrite app_nil_r|]. by left.
  - unfold is_missing at 1. simpl.
    destruct (member schemaPropDefinitions propName) as [d| |] eqn:Hmem.
    + match goal with |- context [foldl _ (?es, ?ws) props] =>
        specialize (IH es ws); destruct (foldl _ (es, ws) props) as [errors' warnings']
      end.
      destruct IH as [-> IH]. split; [done|].
      assert (declared schemaPropDefinitions propName) as Hdecl.
      { unfold declared. destruct (decide (propName ∈ map fst schemaPropDefinitions))
          as [|Hn]; [done|].
        apply own_property_declared in Hn. unfold member in Hmem.
        rewrite Hn in Hmem. by case_bool_decide. }
      intros e [He|[He Hd]]%IH; [|right; split; [by right|done]].
      simpl in He.
      repeat (apply push_if_elem_of in He as [He|[_ ->]];
              [|right; split; [by left|done]]).
      destruct (bool_decide (prop_type d = Some "enum")), (prop_values d);
        try (by left).
      apply push_if_elem_of in He as [He|[_ ->]]; [by left|].
      right. split; [by left|done].
    + match goal with |- context [foldl _ (?es, ?ws) props] =>
        specialize (IH es ws); destruct (foldl _ (es, ws) props) as [errors' warnings']
      end.
      destruct IH as [-> IH]. split; [done|].
      intros e [He|[He Hd]]%IH; [|right; split; [by right|done]].
      simpl in He.
      repeat (apply push_if_elem_of in He as [He|[[=] _]]).
      by left.
    + match goal with |- context [foldl _ (?es, ?ws) props] =>
        specialize (IH es ws); destruct (foldl _ (es, ws) props) as [errors' warnings']
      end.
      destruct IH as [-> IH]. split; [by rewrite <- app_assoc|].
      intros e [He|[He Hd]]%IH; [by left|right; split; [by right|done]].
Qed.

(** The second loop: every error it adds names a declared property. *)
Lemma check_required_fold props schemaPropDefinitions errors e :
  e ∈ foldl (check_required props) errors schemaPropDefinitions →
  e ∈ errors ∨ declared schemaPropDefinitions (pve_prop e).
Proof.
  unfold declared. revert errors.
  induction schemaPropDefinitions as [|[propName propDef] defs IH];
    intros errors; simpl; [by left|].
  intros [He|He]%IH; [|right; by right].
  apply push_if_elem_of in He as [He|[_ ->]]; [by left|].
  right. by left.
Qed.

(** What holds of [validatePropsAgainstSchema] on every input: [valid]
    says that there are no errors; without a schema, or without its
    [props] section, the result is valid with no errors and no warnings;
    no error ever names a property that the schema does not declare; and a
    supplied property that is neither declared nor the name of a member of
    [Object.prototype] gets a warning. *)
Lemma validatePropsAgainstSchema_sound (schema : option Schema)
    (props : JSObj JSValue) :
  let r := validatePropsAgainstSchema schema props in
  (pvr_valid r = true ↔ pvr_errors r = [])
  ∧ (schema ≫= schema_props = None →
     r = {| pvr_valid := true; pvr_errors := []; pvr_warnings := [] |})
  ∧ (∀ schemaPropDefinitions, schema ≫= schema_props = Some schemaPropDefinitions →
     (∀ e, e ∈ pvr_errors r → declared schemaPropDefinitions (pve_prop e))
     ∧ (∀ propName propValue,
          (propName, propValue) ∈ props →
          ¬ declared schemaPropDefinitions propName →
          propName ∉ Object_prototype_keys →
          undeclared_warning (propName, propValue) ∈ pvr_warnings r)).
Proof.
  unfold validatePropsAgainstSchema.
  destruct (schema ≫= schema_props) as [defs|]; [|by split_and!].
  pose proof (check_prop_fold defs props [] []) as Hfold.
  destruct (foldl (check_prop defs) ([], []) props) as [errors warnings].
  destruct Hfold as [-> Herrors]. simpl. split_and!.
  - rewrite bool_decide_eq_true. apply length_zero_iff_nil.
  - done.
  - intros ? [= <-]. split.
    + intros e [He|He]%check_required_fold; [|done].
      apply Herrors in He as [He|[_ He]]; [by apply elem_of_nil in He|done].
    + intros propName propValue Hin Hdecl Hproto.
      apply (list_elem_of_fmap_2 undeclared_warning).
      apply elem_of_List_filter. split; [done|].
      unfold is_missing. simpl.
      by rewrite (proj2 (member_missing defs propName)).
Qed.

(** C4 at its failing input.  The property [constructor] is supplied and
    the schema declares no property, yet the result carries no warning
    (and no error): [schemaPropDefinitions["constructor"]] is the member
    that every object inherits from [Object.prototype], so the test
    [!propDef] does not fire.  A supplied [data-id], which is not such a
    name, gets the warning. *)
Theorem validatePropsAgainstSchema_inherited_name_not_warned :
  ¬ declared [] "constructor"
  ∧ validatePropsAgainstSchema (Some emptySchema) [("constructor", JSString "x")]
    = {| pvr_valid := true; pvr_errors := []; pvr_warnings := [] |}
  ∧ validatePropsAgainstSchema (Some emptySchema) [("data-id", JSString "x")]
    = {| pvr_valid := true; pvr_errors := [];
         pvr_warnings := [undeclared_warning ("data-id", JSString "x")] |}
  ∧ validatePropsAgainstSchema (Some sampleSchema)
      [("variant", JSString "default"); ("toString", JSNumber 1)]
    = {| pvr_valid := true; pvr_errors := []; pvr_warnings := [] |}.
Proof. split; [apply not_elem_of_nil|by vm_compute]. Qed.

(** ** The edit distance *)

Lemma lev_nil_r x : lev x [] = length x.
Proof. by destruct x. Qed.

Lemma lev_cons c d x y :
  lev (c :: x) (d :: y) =
    if bool_decide (c = d) then lev x y
    else S (lev x y `min` (lev (c :: x) y `min` lev x (d :: y))).
Proof. done. Qed.

Lemma edits_nil_l y : edits [] y (length y).
Proof. induction y; simpl; by constructor. Qed.

Lemma edits_nil_r x : edits x [] (length x).
Proof. induction x; simpl; by constructor. Qed.

(** The recurrence is reached by an edit script. *)
Lemma lev_edits x y : edits x y (lev x y).
Proof.
  revert y. induction x as [|c x IHx]; intros y; [apply edits_nil_l|].
  induction y as [|d y IHy]; [apply (edits_nil_r (c :: x))|].
  rewrite lev_cons. case_bool_decide as Hcd.
  - subst d. by constructor.
  - destruct (Nat.min_spec (lev x y) (lev (c :: x) y `min` lev x (d :: y)))
      as [[_ ->]|[_ ->]]; [by constructor|].
    destruct (Nat.min_spec (lev (c :: x) y) (lev x (d :: y)))
      as [[_ ->]|[_ ->]]; by constructor.
Qed.

(** Dropping the first character of either string changes the recurrence
    by at most one, in both directions. *)
Lemma lev_lipschitz n : ∀ x y c, length x + length y ≤ n →
  lev (c :: x) y ≤ S (lev x y)
  ∧ lev x (c :: y) ≤ S (lev x y)
  ∧ lev x y ≤ S (lev (c :: x) y)
  ∧ lev x y ≤ S (lev x (c :: y)).
Proof.
  induction n as [n IH] using lt_wf_ind. intros x y c Hn.
  assert (∀ x' y' c', length x' + length y' < length x + length y →
    lev (c' :: x') y' ≤ S (lev x' y')
    ∧ lev x' (c' :: y') ≤ S (lev x' y')
    ∧ lev x' y' ≤ S (lev (c' :: x') y')
    ∧ lev x' y' ≤ S (lev x' (c' :: y'))) as IH'.
  { intros x' y' c' Hlt. apply (IH (length x' + length y')); lia. }
  clear IH. split_and!.
  - destruct y as [|d y]; [rewrite !lev_nil_r; simpl; lia|].
    rewrite lev_cons. case_bool_decide; [|lia].
    destruct (IH' x y d) as (_ & _ & _ & ?); [simpl; lia|lia].
  - destruct x as [|d x]; [simpl; lia|].
    rewrite lev_cons. case_bool_decide; [|lia].
    destruct (IH' x y d) as (_ & _ & ? & _); [simpl; lia|lia].
  - destruct y as [|d y]; [rewrite !lev_nil_r; simpl; lia|].
    rewrite lev_cons. case_bool_decide.
    + destruct (IH' x y d) as (_ & ? & _ & _); [simpl; lia|lia].
    + destruct (IH' x y d) as (_ & ? & _ & _); [simpl; lia|].
      destruct (IH' x y c) as (_ & _ & ? & _); [simpl; lia|]. lia.
  - destruct x as [|d x]; [simpl; lia|].
    rewrite lev_cons. case_bool_decide.
    + destruct (IH' x y d) as (? & _ & _ & _); [simpl; lia|lia].
    + destruct (IH' x y d) as (? & _ & _ & _); [simpl; lia|].
      destruct (IH' x y c) as (_ & _ & _ & ?); [simpl; lia|]. lia.
Qed.

(** No edit script is shorter than the recurrence. *)
Lemma lev_least x y n : edits x y n → lev x y ≤ n.
Proof.
  induction 1 as [|c x y n _ IH|c d x y n _ IH|c x y n _ IH|d x y n _ IH].
  - done.
  - rewrite lev_cons. by rewrite bool_decide_eq_true_2.
  - rewrite lev_cons. case_bool_decide; lia.
  - destruct (lev_lipschitz _ x y c (le_n _)) as (? & _). lia.
  - destruct (lev_lipschitz _ x y d (le_n _)) as (_ & ? & _). lia.
Qed.

Lemma lev_levenshtein x y : levenshtein x y (lev x y).
Proof. split; [apply lev_edits|apply lev_least]. Qed.

Lemma edits_sym x y n : edits x y n → edits y x n.
Proof. induction 1; by constructor. Qed.

Lemma edits_keep_snoc c x y n : edits x y n → edits (x ++ [c]) (y ++ [c]) n.
Proof. induction 1; simpl; by repeat constructor. Qed.

Lemma edits_substitute_snoc c d x y n :
  edits x y n → edits (x ++ [c]) (y ++ [d]) (S n).
Proof. induction 1; simpl; by repeat constructor. Qed.

Lemma edits_delete_snoc c x y n : edits x y n → edits (x ++ [c]) y (S n).
Proof. induction 1; simpl; by repeat constructor. Qed.

Lemma edits_insert_snoc d x y n : edits x y n → edits x (y ++ [d]) (S n).
Proof. induction 1; simpl; by repeat constructor. Qed.

(** An alignment can be read from right to left as well. *)
Lemma edits_rev x y n : edits x y n → edits (rev x) (rev y) n.
Proof.
  induction 1; simpl.
  - constructor.
  - by apply edits_keep_snoc.
  - by apply edits_substitute_snoc.
  - by apply edits_delete_snoc.
  - by apply edits_insert_snoc.
Qed.

Lemma levenshtein_sym x y d : levenshtein x y d → levenshtein y x d.
Proof.
  intros [He Hmin]. split; [by apply edits_sym|].
  intros n Hn. by apply Hmin, edits_sym.
Qed.

Lemma levenshtein_rev x y d : levenshtein (rev x) (rev y) d → levenshtein x y d.
Proof.
  intros [He Hmin]. split.
  - rewrite <- (rev_involutive x), <- (rev_involutive y). by apply edits_rev.
  - intros n Hn. by apply Hmin, edits_rev.
Qed.

Lemma levenshtein_unique x y d d' :
  levenshtein x y d → levenshtein x y d' → d = d'.
Proof.
  intros [He Hmin] [He' Hmin']. apply Nat.le_antisymm; auto.
Qed.

(** The bottom-right entry of the matrix is the Levenshtein distance. *)
Lemma D_levenshtein a b : levenshtein a b (D a b (length b) (length a)).
Proof.
  unfold D. rewrite !firstn_all.
  apply levenshtein_sym, levenshtein_rev, lev_levenshtein.
Qed.

(** ** The matrix of [levenshteinDistance] *)

Section Matrix.
Variables a b : list ascii.

Lemma D_row_0 j : j ≤ length a → D a b 0 j = j.
Proof.
  intros Hj. unfold D. rewrite take_0. simpl.
  rewrite length_rev, length_take. lia.
Qed.

Lemma D_col_0 i : i ≤ length b → D a b i 0 = i.
Proof.
  intros Hi. unfold D. rewrite take_0, lev_nil_r.
  rewrite length_rev, length_take. lia.
Qed.

Lemma D_step i j c d :
  b !! i = Some c → a !! j = Some d →
  D a b (S i) (S j) =
    if bool_decide (c = d) then D a b i j
    else S (D a b i j `min` (D a b (S i) j `min` D a b i (S j))).
Proof.
  intros Hb Ha. unfold D.
  rewrite (take_S_r b i c Hb), (take_S_r a j d Ha), !rev_app_distr. simpl.
  apply lev_cons.
Qed.

Lemma array_set_append {A} (arr : list A) i v :
  length arr = i → array_set arr i v = Some (arr ++ [v]).
Proof.
  intros <-. unfold array_set.
  by rewrite (proj2 (Nat.ltb_ge _ _)), Nat.eqb_refl by lia.
Qed.

Lemma array_set_inside {A} (arr : list A) i v :
  i < length arr → array_set arr i v = Some (<[i := v]> arr).
Proof.
  intros Hi. unfold array_set. by rewrite (proj2 (Nat.ltb_lt _ _)) by done.
Qed.

Lemma set_cell_append (matrix : list (list nat)) i j v row :
  matrix !! i = Some row → length row = j →
  set_cell matrix i j v = Some (<[i := row ++ [v]]> matrix).
Proof.
  intros Hrow Hj. unfold set_cell. rewrite Hrow. simpl.
  rewrite array_set_append by done. simpl.
  apply array_set_inside. by apply lookup_lt_Some in Hrow.
Qed.

(** The first loop creates the rows [[0]], [[1]], ... *)
Lemma init_rows k n (matrix : list (list nat)) :
  length matrix = k →
  for_each (seq k n) (λ i matrix, array_set matrix i [i]) matrix
  = Some (matrix ++ ((λ i, [i]) <$> seq k n)).
Proof.
  revert k matrix. induction n as [|n IH]; intros k matrix Hk; simpl.
  - by rewrite app_nil_r.
  - rewrite array_set_append by done. simpl.
    rewrite IH by (rewrite length_app; simpl; lia).
    by rewrite <- app_assoc.
Qed.

(** The second loop fills row [0] with [0], [1], ... *)
Lemma init_row_0 k n (rest : list (list nat)) :
  for_each (seq k n) (λ j matrix, set_cell matrix 0 j j) (seq 0 k :: rest)
  = Some (seq 0 (k + n) :: rest).
Proof.
  revert k. induction n as [|n IH]; intros k; simpl.
  - by rewrite Nat.add_0_r.
  - rewrite (set_cell_append _ 0 k k (seq 0 k)) by (done || apply length_seq).
    simpl. rewrite <- seq_S, IH. do 3 f_equal. lia.
Qed.

Lemma matrix_at_length i j :
  i ≤ length b → length (matrix_at a b i j) = S (length b).
Proof.
  intros Hi. unfold matrix_at.
  rewrite !length_app, !length_fmap, !length_seq. simpl. lia.
Qed.

Lemma matrix_at_row i j :
  matrix_at a b i j !! i = Some (D a b i <$> seq 0 j).
Proof.
  unfold matrix_at. rewrite lookup_app_r; rewrite length_fmap, length_seq; [|done].
  by rewrite Nat.sub_diag.
Qed.

Lemma matrix_at_row_above i j i' :
  i' < i →
  matrix_at a b i j !! i' = Some (D a b i' <$> seq 0 (S (length a))).
Proof.
  intros Hi. unfold matrix_at.
  rewrite lookup_app_l by (by rewrite length_fmap, length_seq).
  rewrite list_lookup_fmap, lookup_seq_lt by done. done.
Qed.

Lemma cell_current i j j' :
  j' < j → cell (matrix_at a b i j) i j' = Some (D a b i j').
Proof.
  intros Hj. unfold cell. rewrite matrix_at_row. cbn [mbind option_bind].
  rewrite list_lookup_fmap, lookup_seq_lt by done. done.
Qed.

Lemma cell_above i j i' j' :
  i' < i → j' ≤ length a →
  cell (matrix_at a b i j) i' j' = Some (D a b i' j').
Proof.
  intros Hi Hj. unfold cell. rewrite matrix_at_row_above by done.
  cbn [mbind option_bind].
  rewrite list_lookup_fmap, lookup_seq_lt by lia. done.
Qed.

(** After the first two loops row [0] is complete. *)
Lemma matrix_initialised :
  (for_each (seq 0 (S (length b))) (λ i matrix, array_set matrix i [i]) []
   ≫= for_each (seq 0 (S (length a))) (λ j matrix, set_cell matrix 0 j j))
  = Some (matrix_at a b 0 (S (length a))).
Proof.
  rewrite init_rows by done. simpl.
  change (set_cell ([0] :: ?rest) 0 0 0) with (Some ([0] :: rest)). simpl.
  rewrite (init_row_0 1 (length a)). f_equal.
  unfold matrix_at. simpl. rewrite Nat.sub_0_r. f_equal.
  rewrite D_row_0 by lia. f_equal.
  rewrite <- (list_fmap_id (seq 1 (length a))) at 1.
  apply list_fmap_ext. intros k j Hj%lookup_seq. simpl. by rewrite D_row_0 by lia.
Qed.
End Matrix.

Section Fill.
Variables a b : list ascii.

Lemma levenshtein_cell_at i j :
  1 ≤ i ≤ length b → 1 ≤ j ≤ length a →
  levenshtein_cell a b (matrix_at a b i j) i j = Some (D a b i j).
Proof.
  intros Hi Hj. destruct i as [|i]; [lia|]. destruct j as [|j]; [lia|].
  destruct (lookup_lt_is_Some_2 b i) as [c Hc]; [lia|].
  destruct (lookup_lt_is_Some_2 a j) as [d Hd]; [lia|].
  unfold levenshtein_cell, charAt. simpl. rewrite !Nat.sub_0_r, Hc, Hd.
  rewrite (D_step a b i j c d Hc Hd).
  rewrite (cell_above a b (S i) (S j) i j) by lia.
  rewrite (cell_above a b (S i) (S j) i (S j)) by lia.
  rewrite (cell_current a b (S i) (S j) j) by lia.
  cbn [mbind option_bind].
  case_bool_decide as Hcd; case_bool_decide as Hcd'; try done.
  - congruence.
  - congruence.
  - f_equal. lia.
Qed.

Lemma set_cell_at i j :
  i ≤ length b →
  set_cell (matrix_at a b i j) i j (D a b i j) = Some (matrix_at a b i (S j)).
Proof.
  intros Hi.
  rewrite (set_cell_append _ i j _ (D a b i <$> seq 0 j));
    [|apply matrix_at_row|by rewrite length_fmap, length_seq].
  f_equal. unfold matrix_at.
  rewrite insert_app_r_alt; rewrite length_fmap, length_seq; [|done].
  rewrite Nat.sub_diag, (seq_S j 0), fmap_app. reflexivity.
Qed.

(** The inner loop extends row [i] entry by entry. *)
Lemma inner_loop i j n :
  1 ≤ i ≤ length b → 1 ≤ j → j + n ≤ S (length a) →
  for_each (seq j n)
    (λ j matrix, v ← levenshtein_cell a b matrix i j; set_cell matrix i j v)
    (matrix_at a b i j)
  = Some (matrix_at a b i (j + n)).
Proof.
  intros Hi. revert j. induction n as [|n IH]; intros j Hj Hn; simpl.
  - by rewrite Nat.add_0_r.
  - rewrite levenshtein_cell_at by lia. cbn [mbind option_bind].
    rewrite set_cell_at by lia. cbn [mbind option_bind].
    rewrite IH by lia. do 2 f_equal. lia.
Qed.

(** A complete row [i] with the untouched row [i + 1] below it is the
    start of filling row [i + 1]. *)
Lemma next_row i :
  i < length b → matrix_at a b i (S (length a)) = matrix_at a b (S i) 1.
Proof.
  intros Hi. unfold matrix_at.
  replace (length b - i) with (S (length b - S i)) by lia.
  rewrite (seq_S i 0), fmap_app, <- app_assoc. f_equal.
  change (D a b (S i) <$> seq 0 1) with [D a b (S i) 0].
  rewrite D_col_0 by lia. reflexivity.
Qed.

(** The outer loop completes the rows one after the other. *)
Lemma outer_loop i n :
  i + n ≤ length b →
  for_each (seq (S i) n)
    (λ i matrix,
       for_each (seq 1 (length a))
         (λ j matrix, v ← levenshtein_cell a b matrix i j; set_cell matrix i j v)
         matrix)
    (matrix_at a b i (S (length a)))
  = Some (matrix_at a b (i + n) (S (length a))).
Proof.
  revert i. induction n as [|n IH]; intros i Hn; simpl.
  - by rewrite Nat.add_0_r.
  - rewrite next_row by lia. rewrite inner_loop by lia.
    cbn [mbind option_bind]. rewrite IH by lia. do 2 f_equal. lia.
Qed.

Lemma levenshtein_matrix_filled :
  levenshtein_matrix a b = Some (matrix_at a b (length b) (S (length a))).
Proof.
  unfold levenshtein_matrix.
  pose proof (matrix_initialised a b) as Hinit.
  destruct (for_each (seq 0 (S (length b))) _ []) as [m0|]; [|done].
  cbn [mbind option_bind] in *. rewrite Hinit. cbn [mbind option_bind].
  by rewrite (outer_loop 0 (length b)).
Qed.
End Fill.

(** [levenshteinDistance] always returns, and what it returns is the
    Levenshtein distance of its arguments. *)
Lemma levenshteinDistance_correct (a b : string) :
  ∃ d, levenshteinDistance a b = Some d ∧ levenshtein (chars a) (chars b) d.
Proof.
  exists (D (chars a) (chars b) (length (chars b)) (length (chars a))).
  split; [|apply D_levenshtein].
  unfold levenshteinDistance. rewrite levenshtein_matrix_filled.
  cbn [mbind option_bind]. apply cell_current. lia.
Qed.

(** ** Suggestions *)

Lemma within_distance_spec a b bound :
  within_distance (levenshteinDistance a b) bound = true ↔
    ∃ d, levenshtein (chars a) (chars b) d ∧ d ≤ bound.
Proof.
  destruct (levenshteinDistance_correct a b) as (d & -> & Hd). simpl.
  rewrite Nat.leb_le. split.
  - intros Hle. by exists d.
  - intros (d' & Hd' & Hle). by rewrite (levenshtein_unique _ _ _ _ Hd Hd').
Qed.

Lemma suggestion_match_spec lowerName c :
  suggestion_match lowerName c = true ↔
    close_name lowerName (toLowerCase (name c)).
Proof.
  unfold suggestion_match, close_name.
  rewrite !orb_true_iff, !includes_spec, within_distance_spec. tauto.
Qed.

(** C5.  A name that [getComponent] does not find makes the lookup tool
    return the error [COMPONENT_NOT_FOUND] with at most five suggestions.
    The suggestions are names of records of the registry, in registry
    order; each belongs to a record whose lowercased name contains the
    lowercased query, is contained in it, or is at Levenshtein distance at
    most 3 from it; and when fewer than five are returned, no such record
    is left out. *)
Theorem getComponent_not_found_suggestions (api : AgentAPI) (n : string) :
  getComponent api n = None →
  ∃ e, tool_getComponent api n = inl e
       ∧ error e = "COMPONENT_NOT_FOUND"
       ∧ length (suggestions e) ≤ 5
       ∧ suggestions e `sublist_of` (name <$> components api)
       ∧ (∀ s, s ∈ suggestions e →
               ∃ c, c ∈ components api ∧ name c = s
                    ∧ close_name (toLowerCase n) (toLowerCase (name c)))
       ∧ (length (suggestions e) < 5 →
          ∀ c, c ∈ components api →
               close_name (toLowerCase n) (toLowerCase (name c)) →
               name c ∈ suggestions e).
Proof.
  intros Hnone. unfold tool_getComponent. rewrite Hnone.
  eexists. split; [done|]. simpl. unfold getSuggestions, getAllComponents.
  set (found := List.filter (suggestion_match (toLowerCase n)) (components api)).
  change (map name ?l) with (name <$> l).
  split_and!.
  - done.
  - rewrite length_fmap, length_take. lia.
  - apply fmap_sublist. etrans; [apply sublist_take|apply List_filter_sublist].
  - intros s (c & -> & Hc)%list_elem_of_fmap.
    apply (subseteq_take 5), elem_of_List_filter in Hc as [Hc Hmatch].
    exists c. split_and!; [done..|]. by apply suggestion_match_spec.
  - rewrite length_fmap, length_take. intros Hlen c Hc Hclose.
    apply list_elem_of_fmap_2. rewrite take_ge by lia.
    apply elem_of_List_filter. split; [done|]. by apply suggestion_match_spec.
Qed.

Lemma getComponent_not_found_suggestions_witness :
  getComponent (AgentAPI_new componentRegistry) "Buton" = None
  ∧ ∃ e, tool_getComponent (AgentAPI_new componentRegistry) "Buton" = inl e
         ∧ suggestions e = ["Button"].
Proof.
  assert (getComponent (AgentAPI_new componentRegistry) "Buton" = None)
    as Hnone by reflexivity.
  split; [done|].
  destruct (getComponent_not_found_suggestions _ _ Hnone) as (e & He & _).
  exists e. split; [done|].
  assert (inl e = tool_getComponent (AgentAPI_new componentRegistry) "Buton")
    as Heq by done.
  vm_compute in Heq. by injection Heq as ->.
Defined.

(** ** The matcher *)

Section Matcher.
Context {R : Type}.
Implicit Types (k : list ascii → gmap nat (list ascii) → option R).

Lemma rmatch_Plus_cons cls c s caps k :
  rmatch (Plus cls) (c :: s) caps k =
    if cls c
    then match rmatch (Plus cls) s caps k with
         | Some res => Some res
         | None => k s caps
         end
    else None.
Proof. done. Qed.

Lemma rmatch_Plus_sound cls s caps k res :
  rmatch (Plus cls) s caps k = Some res →
  ∃ t s', s = t ++ s' ∧ lang (Plus cls) caps t caps ∧ k s' caps = Some res.
Proof.
  induction s as [|c s IH]; [done|].
  rewrite rmatch_Plus_cons. destruct (cls c) eqn:Hc; [|done].
  destruct (rmatch (Plus cls) s caps k) as [res'|] eqn:Hplus.
  - intros [= ->]. destruct (IH eq_refl) as (t & s' & -> & Hlang & Hk).
    exists (c :: t), s'. split_and!; [done| |done].
    inversion Hlang; subst. constructor; [done|by constructor].
  - intros Hk. exists [c], s. split_and!; [done| |done].
    constructor; [done|by repeat constructor].
Qed.

(** Whatever the matcher accepts is a text of the language, followed by an
    input that the continuation accepts. *)
Lemma rmatch_sound r : ∀ s caps k res,
  rmatch r s caps k = Some res →
  ∃ t s' caps', s = t ++ s' ∧ lang r caps t caps' ∧ k s' caps' = Some res.
Proof.
  induction r as [l|cls|r1 IH1 r2 IH2|r1 IH1 r2 IH2|n r IH]; intros s caps k res.
  - simpl. destruct (startsWith_chars (chars l) s) eqn:Hl; [|done].
    apply startsWith_chars_spec in Hl as [post ->]. rewrite drop_app_length.
    intros Hk. exists (chars l), post, caps. split_and!; [done|constructor|done].
  - intros (t & s' & -> & Hlang & Hk)%rmatch_Plus_sound. by exists t, s', caps.
  - simpl. intros (t1 & s1 & caps1 & -> & Hl1 & Hk)%IH1.
    apply IH2 in Hk as (t2 & s2 & caps2 & -> & Hl2 & Hk).
    exists (t1 ++ t2), s2, caps2. rewrite <- app_assoc.
    split_and!; [done|by econstructor|done].
  - simpl. destruct (rmatch r1 s caps k) as [res'|] eqn:H1.
    + intros [= ->]. apply IH1 in H1 as (t & s' & caps' & -> & Hl & Hk).
      exists t, s', caps'. split_and!; [done|by constructor|done].
    + intros (t & s' & caps' & -> & Hl & Hk)%IH2.
      exists t, s', caps'. split_and!; [done|by apply lang_Alt_r|done].
  - simpl. intros (t & s' & caps' & -> & Hl & Hk)%IH.
    rewrite length_app, Nat.add_sub, take_app_length in Hk.
    exists t, s', (<[n := t]> caps'). split_and!; [done|by constructor|done].
Qed.

Lemma run_app cls t s :
  Forall (λ c, cls c = true) t → (∀ c s', s = c :: s' → cls c = false) →
  run cls (t ++ s) = t.
Proof.
  intros Ht Hs. induction Ht as [|c t Hc _ IH]; simpl.
  - destruct s as [|c s']; [done|]. simpl. by rewrite (Hs c s' eq_refl).
  - by rewrite Hc, IH.
Qed.

Lemma run_cons_inv cls s d t :
  run cls s = d :: t → ∃ s', s = d :: s' ∧ cls d = true.
Proof.
  destruct s as [|c s]; [done|]. simpl.
  destruct (cls c) eqn:Hc; [|done]. intros [= -> _]. by exists s.
Qed.

(** [c+] before a continuation that rejects every input starting in the
    class: only the longest run can match. *)
Lemma rmatch_Plus_longest cls s caps k :
  (∀ c s', cls c = true → k (c :: s') caps = None) →
  rmatch (Plus cls) s caps k =
    match run cls s with
    | [] => None
    | _ :: _ => k (drop (length (run cls s)) s) caps
    end.
Proof.
  intros Hk. induction s as [|c s IH]; [done|].
  rewrite rmatch_Plus_cons. cbn [run]. destruct (cls c) eqn:Hc; [|done].
  rewrite IH. cbn [length drop].
  destruct (run cls s) as [|d t] eqn:Hrun; [done|].
  apply run_cons_inv in Hrun as (s' & -> & Hd).
  rewrite (Hk d s' Hd). by destruct (k _ caps).
Qed.

(** [c+] before a continuation that accepts every input: the longest run
    is taken. *)
Lemma rmatch_Plus_greedy cls s caps k :
  (∀ s', is_Some (k s' caps)) →
  rmatch (Plus cls) s caps k =
    match run cls s with
    | [] => None
    | _ :: _ => k (drop (length (run cls s)) s) caps
    end.
Proof.
  intros Hk. induction s as [|c s IH]; [done|].
  rewrite rmatch_Plus_cons. cbn [run]. destruct (cls c) eqn:Hc; [|done].
  rewrite IH. cbn [length drop].
  destruct (run cls s) as [|d t] eqn:Hrun; [done|].
  by destruct (Hk (drop (length (d :: t)) s)) as [res ->].
Qed.

End Matcher.

Lemma match_here_sound r s index m :
  match_here r s index = Some m →
  ∃ s', s = match_text m ++ s'
        ∧ lang r ∅ (match_text m) (match_groups m)
        ∧ match_index m = index.
Proof.
  unfold match_here.
  intros (t & s' & caps' & -> & Hl & [= <-])%rmatch_sound. simpl.
  rewrite length_app, Nat.add_sub, take_app_length. by exists s'.
Qed.

(** ** The [exec] loop *)

Section Loop.
Variable r : regex.

Lemma matches_skip s index skip :
  matches r s index skip = matches r (drop skip s) (index + skip) 0.
Proof.
  revert index skip. induction s as [|c s IH]; intros index skip.
  - by rewrite drop_nil.
  - destruct skip as [|skip]; [by rewrite Nat.add_0_r|].
    simpl. rewrite IH. f_equal. lia.
Qed.

(** Every match of the scan is a match at some position of the input. *)
Lemma matches_elem s index skip m :
  m ∈ matches r s index skip →
  ∃ pre s' index', s = pre ++ s' ∧ match_here r s' index' = Some m.
Proof.
  revert index skip. induction s as [|c s IH]; intros index skip; simpl.
  - by intros ?%elem_of_nil.
  - assert (∀ index skip, m ∈ matches r s index skip →
      ∃ pre s' index', c :: s = pre ++ s' ∧ match_here r s' index' = Some m)
      as IH'.
    { intros i k (pre & s' & i' & -> & Hm)%IH. by exists (c :: pre), s', i'. }
    destruct skip as [|skip]; [|by apply IH'].
    destruct (match_here r (c :: s) index) as [m'|] eqn:Hm; [|by apply IH'].
    intros [->|Hin]%elem_of_cons; [|by eapply IH'].
    by exists [], (c :: s), index.
Qed.

Hypothesis r_consuming : consuming r.

Lemma search_matches s index :
  match search r s index with
  | None => matches r s index 0 = []
  | Some m =>
      ∃ k, match_index m = index + k
           ∧ match_text m ≠ []
           ∧ k + length (match_text m) ≤ length s
           ∧ matches r s index 0 =
               m :: matches r (drop (k + length (match_text m)) s)
                      (index + k + length (match_text m)) 0
  end.
Proof.
  revert index. induction s as [|c s IH]; intros index.
  - simpl. destruct (match_here r [] index) as [m|] eqn:Hm; [|done].
    pose proof (r_consuming _ _ _ Hm) as Hne.
    apply match_here_sound in Hm as (s' & Hs & _).
    by destruct (match_text m).
  - cbn [search matches].
    destruct (match_here r (c :: s) index) as [m|] eqn:Hm.
    + pose proof (r_consuming _ _ _ Hm) as Hne.
      apply match_here_sound in Hm as (s' & Hs & _ & Hidx).
      exists 0. split_and!; [lia|done| |].
      * rewrite Hs, length_app. lia.
      * f_equal. rewrite matches_skip.
        destruct (match_text m) as [|d t]; [done|]. simpl.
        rewrite Nat.sub_0_r. f_equal. lia.
    + specialize (IH (S index)). destruct (search r s (S index)) as [m|]; [|done].
      destruct IH as (k & Hidx & Hne & Hlen & Hms).
      exists (S k). split_and!; [lia|done|simpl; lia|].
      rewrite Hms. simpl. do 2 f_equal. lia.
Qed.

(** With one unit of fuel per remaining character and one more, the loop
    stops, after running its body on the matches from left to right. *)
Lemma exec_loop_matches {St} (body : RegExpMatch → St → St) input :
  ∀ fuel lastIndex st,
    lastIndex ≤ length input → length input - lastIndex < fuel →
    exec_loop fuel r input lastIndex body st =
      Some (foldl (λ st m, body m st) st
                  (matches r (drop lastIndex input) lastIndex 0)).
Proof.
  induction fuel as [|fuel IH]; intros lastIndex st Hle Hfuel; [lia|].
  simpl. unfold exec. rewrite (proj2 (Nat.ltb_ge _ _)) by done.
  pose proof (search_matches (drop lastIndex input) lastIndex) as Hs.
  destruct (search r (drop lastIndex input) lastIndex) as [m|].
  - destruct Hs as (k & Hidx & Hne & Hlen & ->). rewrite length_drop in Hlen.
    destruct (match_text m) as [|d t] eqn:Ht; [done|]. simpl in Hlen.
    rewrite IH by (simpl; lia). simpl.
    by rewrite drop_drop, Hidx, !Nat.add_assoc.
  - by rewrite Hs.
Qed.

End Loop.

(** ** The two regular expressions of [validateDesignTokens] *)

Ltac invert_lang :=
  repeat match goal with
         | H : lang (Lit _) _ _ _ |- _ => inversion H; clear H; subst
         | H : lang (Plus _) _ _ _ |- _ => inversion H; clear H; subst
         | H : lang (Seq _ _) _ _ _ |- _ => inversion H; clear H; subst
         | H : lang (Alt _ _) _ _ _ |- _ => inversion H; clear H; subst
         | H : lang (Group _ _) _ _ _ |- _ => inversion H; clear H; subst
         end.

(** A text that [colorRegex] matches is a color token, and its second
    group holds [<word>-<number>]. *)
Lemma lang_colorRegex t caps :
  lang colorRegex ∅ t caps →
  is_color_token t
  ∧ ∃ w d, caps !! 2 = Some (w ++ chars "-" ++ d).
Proof.
  unfold colorRegex. intros H. invert_lang.
  all: split; [|do 2 eexists; apply lookup_insert_eq].
  all: match goal with
       | |- is_color_token (?p ++ _ ++ ?w ++ _ ++ ?d) => exists p, w, d
       end; split_and!; [|done..];
       first [by left | by right; left | by do 2 right; left].
Qed.

(** A text that [arbitraryRegex] matches is a bracket token. *)
Lemma lang_arbitraryRegex t caps :
  lang arbitraryRegex ∅ t caps → is_arbitrary_token t.
Proof.
  unfold arbitraryRegex. intros H. invert_lang.
  eexists. by split_and!.
Qed.

Lemma colorRegex_consuming : consuming colorRegex.
Proof.
  intros s index m (s' & _ & Hl & _)%match_here_sound.
  apply lang_colorRegex in Hl as [(p & w & d & Hp & _ & _ & _ & _ & ->) _].
  destruct p; [|done]. exfalso.
  apply elem_of_cons in Hp as [[=]|Hp].
  apply elem_of_cons in Hp as [[=]|Hp].
  by apply list_elem_of_singleton in Hp.
Qed.

Lemma arbitraryRegex_consuming : consuming arbitraryRegex.
Proof.
  intros s index m (s' & _ & Hl & _)%match_here_sound.
  by apply lang_arbitraryRegex in Hl as (body & _ & _ & ->).
Qed.

(** The excluded words have no hyphen, [<word>-<number>] has one: the
    test in the body of the first loop always succeeds. *)
Lemma color_body_pushes s index m hardCodedValues warnings :
  match_here colorRegex s index = Some m →
  ∃ warning,
    color_body m (hardCodedValues, warnings) =
      (hardCodedValues ++ [str (match_text m)], warnings ++ [warning]).
Proof.
  intros (s' & _ & Hl & _)%match_here_sound.
  apply lang_colorRegex in Hl as [_ (w & d & Hg)].
  unfold color_body, match_group. rewrite Hg.
  assert (∀ word, "-"%char ∉ chars word →
                  Some (w ++ chars "-" ++ d) ≠ Some (chars word)) as Hne.
  { intros word Hword [= Heq]. apply Hword. rewrite <- Heq.
    apply elem_of_app. right. by left. }
  rewrite !bool_decide_eq_true_2; [by eexists|apply Hne..];
    by apply (bool_decide_unpack _).
Qed.

(** *** Matching a token *)

Section Equations.
Context {R : Type}.
Implicit Types (k : list ascii → gmap nat (list ascii) → option R).

Lemma rmatch_Lit l s caps k :
  rmatch (Lit l) s caps k =
    if startsWith_chars (chars l) s then k (drop (length (chars l)) s) caps
    else None.
Proof. done. Qed.

Lemma rmatch_Lit_app l s caps k :
  rmatch (Lit l) (chars l ++ s) caps k = k s caps.
Proof.
  rewrite rmatch_Lit, (proj2 (startsWith_chars_spec _ _)) by by exists s.
  by rewrite drop_app_length.
Qed.

Lemma rmatch_Seq r1 r2 s caps k :
  rmatch (Seq r1 r2) s caps k =
    rmatch r1 s caps (λ s' caps', rmatch r2 s' caps' k).
Proof. done. Qed.

Lemma rmatch_Alt r1 r2 s caps k :
  rmatch (Alt r1 r2) s caps k =
    match rmatch r1 s caps k with
    | Some res => Some res
    | None => rmatch r2 s caps k
    end.
Proof. done. Qed.

Lemma rmatch_Group n r s caps k :
  rmatch (Group n r) s caps k =
    rmatch r s caps
      (λ s' caps', k s' (<[n := take (length s - length s') s]> caps')).
Proof. done. Qed.

End Equations.

Lemma take_match {A} (t s u : list A) :
  u = t ++ s → take (length u - length s) u = t.
Proof. intros ->. by rewrite length_app, Nat.add_sub, take_app_length. Qed.

(** The part [-<word>-<number>] of [colorRegex], on an input that starts
    with such a text and does not go on with a digit. *)
Lemma color_tail_match {R} w d post caps
    (k : list ascii → gmap nat (list ascii) → option R) :
  (∀ s' caps', is_Some (k s' caps')) →
  w ≠ [] → Forall (λ c, is_word c = true) w →
  d ≠ [] → Forall (λ c, is_digit c = true) d →
  (∀ c post', post = c :: post' → is_digit c = false) →
  rmatch (Seq (Lit "-")
            (Group 2 (Seq (Plus is_word) (Seq (Lit "-") (Plus is_digit)))))
    (chars "-" ++ w ++ chars "-" ++ d ++ post) caps k
  = k post (<[2 := w ++ chars "-" ++ d]> caps).
Proof.
  intros Hk Hw Hword Hd Hdigit Hpost.
  rewrite rmatch_Seq, rmatch_Lit_app, rmatch_Group, rmatch_Seq.
  rewrite (rmatch_Plus_longest is_word).
  - rewrite run_app; [|done|by intros c s' [= <- _]].
    destruct w as [|c w]; [done|]. rewrite drop_app_length.
    rewrite rmatch_Seq, rmatch_Lit_app, rmatch_Plus_greedy by (intros; apply Hk).
    rewrite run_app by done. destruct d as [|e d]; [done|].
    rewrite drop_app_length. do 2 f_equal.
    apply take_match. by rewrite <- !app_assoc.
  - intros c s' Hc. rewrite rmatch_Seq, rmatch_Lit. simpl.
    rewrite bool_decide_eq_false_2; [done|]. by intros <-.
Qed.

Lemma match_here_color_token tok post index :
  is_color_token tok →
  (∀ c post', post = c :: post' → is_digit c = false) →
  ∃ m, match_here colorRegex (tok ++ post) index = Some m ∧ match_text m = tok.
Proof.
  intros (p & w & d & Hp & Hw & Hword & Hd & Hdigit & ->) Hpost.
  unfold match_here, colorRegex.
  rewrite rmatch_Seq, rmatch_Group, !rmatch_Alt.
  rewrite <- !app_assoc.
  set (k := λ s' caps', Some _).
  assert (∀ s' caps', is_Some (k s' caps')) as Hk by (by eexists).
  apply elem_of_cons in Hp as [->|Hp]; [|apply elem_of_cons in Hp as [->|Hp]];
    [| |apply list_elem_of_singleton in Hp as ->].
  - rewrite rmatch_Lit_app, color_tail_match by done.
    eexists. split; [done|]. cbn [match_text].
    apply take_match. by rewrite <- !app_assoc.
  - rewrite (rmatch_Lit "bg"). simpl startsWith_chars. cbn iota.
    rewrite rmatch_Lit_app, color_tail_match by done.
    eexists. split; [done|]. cbn [match_text].
    apply take_match. by rewrite <- !app_assoc.
  - rewrite (rmatch_Lit "bg"), (rmatch_Lit "text"). simpl startsWith_chars.
    cbn iota.
    rewrite rmatch_Lit_app, color_tail_match by done.
    eexists. split; [done|]. cbn [match_text].
    apply take_match. by rewrite <- !app_assoc.
Qed.

Lemma match_here_arbitrary_token tok post index :
  is_arbitrary_token tok →
  ∃ m, match_here arbitraryRegex (tok ++ post) index = Some m
       ∧ match_text m = tok.
Proof.
  intros (body & Hne & Hbody & ->).
  unfold match_here, arbitraryRegex. rewrite <- !app_assoc.
  rewrite rmatch_Seq, rmatch_Lit_app, rmatch_Seq, rmatch_Group.
  rewrite (rmatch_Plus_longest not_close_bracket).
  - rewrite run_app; [|done|by intros c s' [= <- _]].
    destruct body as [|c body]; [done|].
    rewrite drop_app_length, rmatch_Lit_app.
    eexists. split; [done|]. cbn [match_text].
    apply take_match. by rewrite <- !app_assoc.
  - intros c s' Hc. rewrite rmatch_Lit. simpl.
    rewrite bool_decide_eq_false_2; [done|]. intros <-. done.
Qed.

(** *** Scanning up to a token *)

Lemma prefix_before {A} (c : A) t s1 x s2 :
  t ++ s1 = x ++ c :: s2 → c ∉ t → length t ≤ length x.
Proof.
  revert x. induction t as [|a t IH]; intros x Heq Hc; simpl; [lia|].
  destruct x as [|b x]; simplify_eq/=.
  - exfalso. apply Hc. by left.
  - apply not_elem_of_cons in Hc as [_ Hc].
    match goal with H : t ++ _ = x ++ _ |- _ => specialize (IH x H Hc) end. lia.
Qed.

Lemma is_digit_is_word c : is_digit c = true → is_word c = true.
Proof. unfold is_word. intros ->. by rewrite orb_true_r. Qed.

Lemma is_space_not_token_char c : is_space c = true → is_token_char c = false.
Proof.
  destruct c as [[] [] [] [] [] [] [] []]; vm_compute; congruence.
Qed.

Lemma color_token_chars tok :
  is_color_token tok → Forall (λ c, is_token_char c = true) tok.
Proof.
  intros (p & w & d & Hp & _ & Hword & _ & Hdigit & ->).
  assert (Forall (λ c, is_token_char c = true) w) as Hw.
  { eapply Forall_impl; [done|]. unfold is_token_char. by intros c ->. }
  assert (Forall (λ c, is_token_char c = true) d) as Hd.
  { eapply Forall_impl; [done|]. unfold is_token_char.
    intros c Hc%is_digit_is_word. by rewrite Hc. }
  assert (Forall (λ c, is_token_char c = true) p) as Hpfx.
  { apply elem_of_cons in Hp as [->|Hp]; [|apply elem_of_cons in Hp as [->|Hp]];
      [| |apply list_elem_of_singleton in Hp as ->];
      by repeat constructor. }
  repeat (apply Forall_app; split); try done; by repeat constructor.
Qed.

Lemma color_token_no_delimiter tok sp :
  is_color_token tok → is_token_char sp = false → sp ∉ tok.
Proof.
  intros Htok%color_token_chars Hsp Hin.
  rewrite Forall_forall in Htok. specialize (Htok sp Hin). congruence.
Qed.

Lemma match_here_color_inv s index m :
  match_here colorRegex s index = Some m →
  ∃ s', s = match_text m ++ s' ∧ is_color_token (match_text m).
Proof.
  intros (s' & Hs & Hl & _)%match_here_sound.
  exists s'. split; [done|]. by apply lang_colorRegex in Hl as [? _].
Qed.

Lemma match_here_arbitrary_inv s index m :
  match_here arbitraryRegex s index = Some m →
  ∃ s', s = match_text m ++ s' ∧ is_arbitrary_token (match_text m).
Proof.
  intros (s' & Hs & Hl & _)%match_here_sound.
  exists s'. split; [done|]. by apply lang_arbitraryRegex in Hl.
Qed.

(** A color match never reaches across a character that is not a token
    character: behind it the scan starts afresh. *)
Lemma matches_color_resync u sp v index skip :
  is_token_char sp = false → skip ≤ length u →
  ∃ ms, matches colorRegex (u ++ sp :: v) index skip
        = ms ++ matches colorRegex v (index + length u + 1) 0.
Proof.
  intros Hsp. revert index skip.
  induction u as [|c u IH]; intros index skip Hskip; simpl in *.
  - destruct skip; [|lia].
    replace (index + 0 + 1) with (S index) by lia.
    destruct (match_here colorRegex (sp :: v) index) as [m|] eqn:Hm;
      [|by exists []].
    apply match_here_color_inv in Hm as (s' & Hs & Htok).
    pose proof (color_token_no_delimiter _ _ Htok Hsp) as Hno.
    destruct Htok as (p & w & d & Hp & _ & _ & _ & _ & Ht).
    destruct (match_text m) as [|c t].
    + exfalso. destruct p; [|done].
      apply elem_of_cons in Hp as [[=]|Hp].
      apply elem_of_cons in Hp as [[=]|Hp].
      by apply list_elem_of_singleton in Hp.
    + injection Hs as <- _. exfalso. apply Hno. by left.
  - replace (index + S (length u) + 1) with (S index + length u + 1) by lia.
    destruct skip as [|skip]; [|apply IH; lia].
    destruct (match_here colorRegex (c :: u ++ sp :: v) index) as [m|] eqn:Hm;
      [|apply IH; lia].
    apply match_here_color_inv in Hm as (s' & Hs & Htok).
    pose proof (color_token_no_delimiter _ _ Htok Hsp) as Hno.
    pose proof (prefix_before sp _ _ (c :: u) v (eq_sym Hs) Hno) as Hlen.
    destruct (IH (S index) (length (match_text m) - 1)) as [ms Hms];
      [simpl in Hlen; lia|].
    exists (m :: ms). by rewrite Hms.
Qed.

Lemma brackets_closed_tail c u : brackets_closed (c :: u) → brackets_closed u.
Proof. intros Hcl u1 u2 ->. by apply (Hcl (c :: u1) u2). Qed.

(** An opening bracket that is closed inside [u] cannot start a match that
    reaches beyond [u]: behind [u] the scan starts afresh. *)
Lemma matches_arbitrary_resync u v index skip :
  brackets_closed u → skip ≤ length u →
  ∃ ms, matches arbitraryRegex (u ++ v) index skip
        = ms ++ matches arbitraryRegex v (index + length u) 0.
Proof.
  revert index skip.
  induction u as [|c u IH]; intros index skip Hcl Hskip; simpl in *.
  - destruct skip; [|lia]. exists []. by rewrite Nat.add_0_r.
  - pose proof (brackets_closed_tail _ _ Hcl) as Hcl'.
    replace (index + S (length u)) with (S index + length u) by lia.
    destruct skip as [|skip]; [|apply IH; [done|lia]].
    destruct (match_here arbitraryRegex (c :: u ++ v) index) as [m|] eqn:Hm;
      [|apply IH; [done|lia]].
    apply match_here_arbitrary_inv in Hm as (s' & Hs & body & _ & Hbody & Ht).
    rewrite Ht in *. injection Hs as -> Hs.
    destruct (list_elem_of_split u "]"%char) as (x & y & ->);
      [by apply (Hcl [] u)|].
    rewrite <- !app_assoc in Hs. simpl in Hs.
    assert ("]"%char ∉ body) as Hno.
    { intros Hin. rewrite Forall_forall in Hbody.
      by specialize (Hbody _ Hin). }
    pose proof (prefix_before _ _ _ _ _ (eq_sym Hs) Hno) as Hlen.
    destruct (IH (S index) (length (chars "[" ++ body ++ chars "]") - 1))
      as [ms Hms]; [done| |].
    { simpl. rewrite !length_app in *. simpl in *. lia. }
    exists (m :: ms). by rewrite Hms.
Qed.

(** *** Collecting the tokens *)

Lemma matches_at_start r tok post index m :
  tok ≠ [] → match_here r (tok ++ post) index = Some m →
  m ∈ matches r (tok ++ post) index 0.
Proof.
  intros Hne Hm. destruct tok as [|c tok]; [done|]. simpl in *.
  rewrite Hm. by left.
Qed.

(** A delimited color token is among the matches of [colorRegex]. *)
Lemma color_token_matched pre tok post :
  is_color_token tok → delimited pre post →
  ∃ m, m ∈ matches colorRegex (pre ++ tok ++ post) 0 0 ∧ match_text m = tok.
Proof.
  intros Htok [Hpre Hpost].
  assert (∀ index, ∃ m, m ∈ matches colorRegex (tok ++ post) index 0
                        ∧ match_text m = tok) as Hhere.
  { intros index.
    destruct (match_here_color_token tok post index Htok) as (m & Hm & Ht).
    - destruct Hpost as [->|(sp & post' & -> & Hsp)]; [done|].
      by intros c post'' [= <- <-].
    - exists m. split; [|done]. apply matches_at_start; [|done].
      destruct Htok as (p & w & d & _ & Hw & _ & _ & _ & ->).
      destruct p, w; done. }
  destruct Hpre as [->|(pre' & sp & -> & Hsp)]; [apply Hhere|].
  rewrite <- app_assoc. simpl.
  destruct (matches_color_resync pre' sp (tok ++ post) 0 0 Hsp) as [ms ->];
    [lia|].
  destruct (Hhere (0 + length pre' + 1)) as (m & Hm & Ht).
  exists m. split; [|done]. apply elem_of_app. by right.
Qed.

(** A bracket token that does not start inside an open bracket is among
    the matches of [arbitraryRegex]. *)
Lemma arbitrary_token_matched pre tok post :
  is_arbitrary_token tok → brackets_closed pre →
  ∃ m, m ∈ matches arbitraryRegex (pre ++ tok ++ post) 0 0
       ∧ match_text m = tok.
Proof.
  intros Htok Hpre.
  destruct (matches_arbitrary_resync pre (tok ++ post) 0 0 Hpre) as [ms ->];
    [lia|].
  destruct (match_here_arbitrary_token tok post (0 + length pre) Htok)
    as (m & Hm & Ht).
  exists m. split; [|done]. apply elem_of_app. right.
  apply matches_at_start; [|done].
  by destruct Htok as (body & _ & _ & ->).
Qed.

Lemma fold_color_body ms hardCoded warns :
  (∀ m, m ∈ ms → ∃ s index, match_here colorRegex s index = Some m) →
  ∃ warns',
    foldl (λ st m, color_body m st) (hardCoded, warns) ms
    = (hardCoded ++ ((λ m, str (match_text m)) <$> ms), warns').
Proof.
  revert hardCoded warns.
  induction ms as [|m ms IH]; intros hardCoded warns Hms; cbn [foldl].
  - exists warns. by rewrite app_nil_r.
  - destruct (Hms m) as (s & index & Hm); [by left|].
    destruct (color_body_pushes s index m hardCoded warns Hm) as [warning ->].
    destruct (IH (hardCoded ++ [str (match_text m)]) (warns ++ [warning]))
      as [warns' ->].
    + intros m' Hm'. apply Hms. by right.
    + exists warns'. by rewrite <- app_assoc.
Qed.

Lemma fold_arbitrary_body ms hardCoded warns :
  ∃ warns',
    foldl (λ st m, arbitrary_body m st) (hardCoded, warns) ms
    = (hardCoded ++ ((λ m, str (match_text m)) <$> ms), warns').
Proof.
  revert hardCoded warns.
  induction ms as [|m ms IH]; intros hardCoded warns; cbn [foldl].
  - exists warns. by rewrite app_nil_r.
  - unfold arbitrary_body at 2.
    destruct (IH (hardCoded ++ [str (match_text m)])
                 (warns ++ ["Arbitrary value found: "
                            +:+ quoted (str (match_text m))
                            +:+ ". Use design tokens instead."]))
      as [warns' ->].
    exists warns'. by rewrite <- app_assoc.
Qed.

(** [validateDesignTokens] always returns; its [hardCodedValues] are the
    texts of the matches of [colorRegex] followed by those of
    [arbitraryRegex]. *)
Lemma validateDesignTokens_matches className :
  ∃ warns,
    validateDesignTokens className =
      Some {| valid :=
                bool_decide
                  (length (((λ m, str (match_text m)) <$>
                              matches colorRegex (chars className) 0 0)
                           ++ ((λ m, str (match_text m)) <$>
                                 matches arbitraryRegex (chars className) 0 0))
                   = 0);
              hardCodedValues :=
                ((λ m, str (match_text m)) <$>
                   matches colorRegex (chars className) 0 0)
                ++ ((λ m, str (match_text m)) <$>
                      matches arbitraryRegex (chars className) 0 0);
              warnings := warns |}.
Proof.
  unfold validateDesignTokens.
  rewrite !exec_loop_matches by
    (apply colorRegex_consuming || apply arbitraryRegex_consuming || lia).
  cbn [mbind option_bind]. rewrite drop_0.
  destruct (fold_color_body (matches colorRegex (chars className) 0 0) [] [])
    as [warns1 ->].
  { intros m (pre & s & index & _ & Hm)%matches_elem. eauto. }
  rewrite exec_loop_matches by (apply arbitraryRegex_consuming || lia).
  cbn [mbind option_bind]. rewrite drop_0.
  destruct (fold_arbitrary_body (matches arbitraryRegex (chars className) 0 0)
              ([] ++ ((λ m, str (match_text m)) <$>
                        matches colorRegex (chars className) 0 0)) warns1)
    as [warns2 ->].
  by exists warns2.
Qed.

(** C8.  [validateDesignTokens] returns on every class string, and it is
    invalid exactly when [hardCodedValues] is not empty.  [hardCodedValues]
    holds the text of every match that the scan with [colorRegex] finds,
    followed by those of [arbitraryRegex]: the excluded words never apply,
    since [<word>-<number>] has a hyphen.  So every delimited token of the
    form [(bg|text|border)-<word>-<number>] is collected, and so is every
    bracket token [[...]] before which no bracket is left open; nothing
    else is collected.  [bg-blue-500] is invalid and collected,
    [bg-primary] is valid with nothing collected. *)
Theorem validateDesignTokens_collects_tokens :
  (∀ className, ∃ r,
     validateDesignTokens className = Some r
     ∧ (valid r = false ↔ hardCodedValues r ≠ [])
     ∧ hardCodedValues r =
         ((λ m, str (match_text m)) <$> matches colorRegex (chars className) 0 0)
         ++ ((λ m, str (match_text m)) <$>
               matches arbitraryRegex (chars className) 0 0)
     ∧ (∀ pre tok post,
          chars className = pre ++ tok ++ post →
          is_color_token tok → delimited pre post →
          str tok ∈ hardCodedValues r)
     ∧ (∀ pre tok post,
          chars className = pre ++ tok ++ post →
          is_arbitrary_token tok → brackets_closed pre →
          str tok ∈ hardCodedValues r)
     ∧ (∀ v, v ∈ hardCodedValues r →
          ∃ pre tok post,
            v = str tok ∧ chars className = pre ++ tok ++ post
            ∧ (is_color_token tok ∨ is_arbitrary_token tok)))
  ∧ (valid <$> validateDesignTokens "bg-blue-500" = Some false
     ∧ hardCodedValues <$> validateDesignTokens "bg-blue-500"
       = Some ["bg-blue-500"])
  ∧ (valid <$> validateDesignTokens "bg-primary" = Some true
     ∧ hardCodedValues <$> validateDesignTokens "bg-primary" = Some []).
Proof.
  split; [|by vm_compute].
  intros className.
  destruct (validateDesignTokens_matches className) as [warns ->].
  eexists. split; [done|]. cbn [valid hardCodedValues].
  set (colors := matches colorRegex (chars className) 0 0).
  set (arbitrary := matches arbitraryRegex (chars className) 0 0).
  split_and!.
  - rewrite bool_decide_eq_false, length_zero_iff_nil. done.
  - done.
  - intros pre tok post Hs Htok Hdelim. apply elem_of_app. left.
    destruct (color_token_matched pre tok post Htok Hdelim) as (m & Hm & <-).
    apply (list_elem_of_fmap_2 (λ m, str (match_text m))).
    unfold colors. by rewrite Hs.
  - intros pre tok post Hs Htok Hclosed. apply elem_of_app. right.
    destruct (arbitrary_token_matched pre tok post Htok Hclosed)
      as (m & Hm & <-).
    apply (list_elem_of_fmap_2 (λ m, str (match_text m))).
    unfold arbitrary. by rewrite Hs.
  - intros v [Hv|Hv]%elem_of_app;
      apply list_elem_of_fmap in Hv as (m & -> & Hm);
      apply matches_elem in Hm as (pre & s & index & Hs & Hm).
    + apply match_here_color_inv in Hm as (post & -> & Htok).
      exists pre, (match_text m), post. by split_and!; [..|left].
    + apply match_here_arbitrary_inv in Hm as (post & -> & Htok).
      exists pre, (match_text m), post. by split_and!; [..|right].
Qed.

(** ** Further properties *)

(** X1.  [levenshteinDistance] returns on all arguments, and its result is
    the Levenshtein distance of the two strings: the least number of
    single-character substitutions, deletions and insertions that turn one
    into the other. *)
Theorem levenshteinDistance_is_edit_distance (a b : string) :
  ∃ d, levenshteinDistance a b = Some d
       ∧ edits (chars a) (chars b) d
       ∧ ∀ n, edits (chars a) (chars b) n → d ≤ n.
Proof.
  destruct (levenshteinDistance_correct a b) as (d & Hd & He & Hmin).
  by exists d.
Qed.

(** X2.  On every schema and property map, [validatePropsAgainstSchema]
    reports [valid] exactly when it reports no error; without a schema or
    without its [props] section it reports no error and no warning; its
    errors only ever name declared properties; and every supplied property
    that is neither declared nor the name of a member of
    [Object.prototype] gets the warning for undeclared properties. *)
Theorem validatePropsAgainstSchema_errors_and_warnings
    (schema : option Schema) (props : JSObj JSValue) :
  let r := validatePropsAgainstSchema schema props in
  (pvr_valid r = true ↔ pvr_errors r = [])
  ∧ (schema ≫= schema_props = None →
     r = {| pvr_valid := true; pvr_errors := []; pvr_warnings := [] |})
  ∧ (∀ schemaPropDefinitions, schema ≫= schema_props = Some schemaPropDefinitions →
     (∀ e, e ∈ pvr_errors r → declared schemaPropDefinitions (pve_prop e))
     ∧ (∀ propName propValue,
          (propName, propValue) ∈ props →
          ¬ declared schemaPropDefinitions propName →
          propName ∉ Object_prototype_keys →
          undeclared_warning (propName, propValue) ∈ pvr_warnings r)).
Proof. apply validatePropsAgainstSchema_sound. Qed.

(** ** Statistics *)

Lemma foldl_count_component st l :
  let st' := foldl count_component st l in
  (∀ cat, byCategory st' cat =
            byCategory st cat
            + length (List.filter (λ c, bool_decide (category c = cat)) l))
  ∧ (∀ cx, byComplexity st' cx =
             byComplexity st cx
             + length (List.filter (λ c, bool_decide (complexity c = cx)) l))
  ∧ documented st' = documented st + length (List.filter is_documented l)
  ∧ withTests st' = withTests st + length (List.filter hasTesting l)
  ∧ withStorybook st' = withStorybook st + length (List.filter hasStorybook l).
Proof.
  revert st. induction l as [|c l IH]; intros st; cbn [foldl List.filter].
  - cbn. repeat split; intros; lia.
  - destruct (IH (count_component st c)) as (Hcat & Hcx & Hdoc & Htest & Hstory).
    cbv zeta. rewrite Hdoc, Htest, Hstory.
    repeat split.
    + intros cat. rewrite Hcat. cbn [count_component byCategory]. unfold increment.
      destruct (decide (cat = category c)) as [->|Hne].
      * rewrite bool_decide_eq_true_2 by done. cbn [length]. lia.
      * rewrite bool_decide_eq_false_2 by done. lia.
    + intros cx. rewrite Hcx. cbn [count_component byComplexity]. unfold increment.
      destruct (decide (cx = complexity c)) as [->|Hne].
      * rewrite bool_decide_eq_true_2 by done. cbn [length]. lia.
      * rewrite bool_decide_eq_false_2 by done. lia.
    + cbn [count_component documented]. destruct (is_documented c); cbn [length]; lia.
    + cbn [count_component withTests]. destruct (hasTesting c); cbn [length]; lia.
    + cbn [count_component withStorybook]. destruct (hasStorybook c); cbn [length]; lia.
Qed.

Lemma length_by_category (l : list ComponentMetadata) :
  length (List.filter (λ c, bool_decide (category c = CatAtom)) l)
  + length (List.filter (λ c, bool_decide (category c = CatMolecule)) l)
  + length (List.filter (λ c, bool_decide (category c = CatOrganism)) l)
  + length (List.filter (λ c, bool_decide (category c = CatTemplate)) l)
  + length (List.filter (λ c, bool_decide (category c = CatPattern)) l)
  = length l.
Proof.
  induction l as [|c l IH]; [done|].
  cbn [List.filter]. destruct (category c); repeat case_bool_decide; try done; cbn [length]; lia.
Qed.

Lemma length_by_complexity (l : list ComponentMetadata) :
  length (List.filter (λ c, bool_decide (complexity c = CxSimple)) l)
  + length (List.filter (λ c, bool_decide (complexity c = CxModerate)) l)
  + length (List.filter (λ c, bool_decide (complexity c = CxComplex)) l)
  = length l.
Proof.
  induction l as [|c l IH]; [done|].
  cbn [List.filter]. destruct (complexity c); repeat case_bool_decide; try done; cbn [length]; lia.
Qed.

Lemma length_filter_le {A} (p : A → bool) l : length (List.filter p l) ≤ length l.
Proof. induction l as [|x l IH]; [done|]. cbn. destruct (p x); cbn; lia. Qed.

Lemma length_filter_mono {A} (p q : A → bool) l :
  (∀ x, p x = true → q x = true) →
  length (List.filter p l) ≤ length (List.filter q l).
Proof.
  intros Hpq. induction l as [|x l IH]; [done|]. cbn.
  destruct (p x) eqn:Hp.
  - rewrite (Hpq x Hp). cbn. lia.
  - destruct (q x); cbn; lia.
Qed.

Lemma length_filter_disjoint {A} (p q : A → bool) l :
  (∀ x, p x = true → q x = false) →
  length (List.filter p l) + length (List.filter q l) ≤ length l.
Proof.
  intros Hpq. induction l as [|x l IH]; [done|]. cbn.
  destruct (p x) eqn:Hp.
  - rewrite (Hpq x Hp). cbn. lia.
  - destruct (q x); cbn; lia.
Qed.

Lemma List_filter_ext {A} (p q : A → bool) l :
  (∀ x, p x = q x) → List.filter p l = List.filter q l.
Proof. intros Hpq. induction l as [|x l IH]; [done|]. cbn. by rewrite Hpq, IH. Qed.

Lemma is_documented_present c :
  is_documented c = true →
  reference_present (schema c) = true ∧ reference_present (documentation c) = true.
Proof.
  unfold is_documented, reference_present, truthy.
  intros H. rewrite !andb_true_iff in H. destruct H as [[[Hs Hs'] Hd] Hd'].
  split; apply andb_true_intro; (split; [apply bool_decide_eq_true_2|done]).
  - by destruct (schema c).
  - by destruct (documentation c).
Qed.

(** X3 (AgentAPI.getStats): the statistics count every record of the
    catalog once.  The counter of a category or of a complexity is the
    number of records that carry it, so the category counters and the
    complexity counters each add up to [total]; [documented] counts the
    records whose schema and documentation both are set and not
    ["pending"], which are among those that [discoverComponents] returns
    for [hasSchema] and [hasDocumentation]; [withTests] is the number of
    records that [discoverComponents] returns for [hasTesting]; the two
    WCAG counters together do not exceed [total]. *)
Theorem getStats_counts_every_record (api : AgentAPI) :
  let s := getStats api in
  let count p := length (List.filter p (components api)) in
  stats_total s = length (components api)
  ∧ (∀ cat, stats_byCategory s cat = count (λ c, bool_decide (category c = cat)))
  ∧ (∀ cx, stats_byComplexity s cx = count (λ c, bool_decide (complexity c = cx)))
  ∧ stats_byCategory s CatAtom + stats_byCategory s CatMolecule
    + stats_byCategory s CatOrganism + stats_byCategory s CatTemplate
    + stats_byCategory s CatPattern = stats_total s
  ∧ stats_byComplexity s CxSimple + stats_byComplexity s CxModerate
    + stats_byComplexity s CxComplex = stats_total s
  ∧ stats_documented s = count is_documented
  ∧ stats_documented s ≤
      length (discoverComponents api
                (Some {| filter_category := None; filter_tags := None;
                         filter_complexity := None; filter_migrationStatus := None;
                         filter_hasSchema := Some true;
                         filter_hasDocumentation := Some true;
                         filter_hasTesting := None |}))
  ∧ stats_withTests s =
      length (discoverComponents api
                (Some {| filter_category := None; filter_tags := None;
                         filter_complexity := None; filter_migrationStatus := None;
                         filter_hasSchema := None; filter_hasDocumentation := None;
                         filter_hasTesting := Some true |}))
  ∧ stats_withStorybook s ≤ stats_total s
  ∧ stats_wcagCompliance_AA s + stats_wcagCompliance_AAA s ≤ stats_total s.
Proof.
  intros s count. subst s count. unfold getStats. cbn [stats_total stats_byCategory
    stats_byComplexity stats_documented stats_withTests stats_withStorybook
    stats_wcagCompliance_AA stats_wcagCompliance_AAA].
  match goal with |- context [foldl count_component ?st0 ?l] =>
    destruct (foldl_count_component st0 l) as (Hcat & Hcx & Hdoc & Htest & Hstory)
  end.
  cbn [byCategory byComplexity documented withTests withStorybook] in *.
  rewrite !Hcat, !Hcx, Hdoc, Htest, Hstory. cbn [Nat.add].
  split; [done|]. split; [done|]. split; [done|].
  split; [apply length_by_category|]. split; [apply length_by_complexity|].
  split; [done|]. rewrite !discoverComponents_filter.
  split; [|split; [|split]].
  - apply length_filter_mono. intros c Hc.
    destruct (is_documented_present c Hc) as [Hs Hd].
    unfold others_hold, tags_hold, holds. by rewrite Hs, Hd.
  - f_equal. apply List_filter_ext. intros c.
    unfold others_hold, tags_hold, holds. cbn.
    destruct (hasTesting c); by rewrite ?andb_true_r.
  - apply length_filter_le.
  - apply length_filter_disjoint. intros c Hc.
    apply bool_decide_eq_true_1 in Hc. rewrite Hc. done.
Qed.

(** ** Shortcuts *)

Lemma discoverComponents_category api cat :
  discoverComponents api
    (Some {| filter_category := Some cat; filter_tags := None;
             filter_complexity := None; filter_migrationStatus := None;
             filter_hasSchema := None; filter_hasDocumentation := None;
             filter_hasTesting := None |})
  = List.filter (λ c, bool_decide (category c = cat)) (components api).
Proof.
  rewrite discoverComponents_filter. apply List_filter_ext. intros c.
  unfold others_hold, tags_hold, holds. cbn. by rewrite !andb_true_r.
Qed.

Lemma findByCategory_filter registry cat :
  findByCategory (ComponentRegistryIndex_new registry) cat
  = List.filter (λ c, bool_decide (category c = cat)) registry.
Proof.
  unfold findByCategory, ComponentRegistryIndex_new.
  change (default [] (?m !! ?k)) with (entries m k).
  by rewrite categoryIndex_buildIndices.
Qed.

Lemma length_slice0 {A} (l : list A) (e : Z) :
  length (slice0 l e) =
    match e with
    | Z.neg p => length l - Pos.to_nat p
    | _ => length l `min` Z.to_nat e
    end.
Proof.
  unfold slice0. destruct e as [|p|p]; cbn [Z.ltb Z.compare].
  - rewrite length_take. cbn. lia.
  - rewrite length_take. lia.
  - rewrite length_take. cbn [Z.opp Z.to_nat]. lia.
Qed.

Lemma slice0_take {A} (l : list A) (e : Z) :
  slice0 l e = take (length (slice0 l e)) l.
Proof.
  assert (Htake : ∀ n, take n l = take (length (take n l)) l).
  { intros n. rewrite length_take.
    destruct (Nat.min_spec n (length l)) as [[? ->]|[? ->]]; [done|].
    by rewrite !take_ge by lia. }
  unfold slice0. destruct (e <? 0)%Z; apply Htake.
Qed.

(** X4 (AgentAPI.getAtoms, getMolecules, getOrganisms, listAtoms,
    listMolecules, listOrganisms, getRegistryStats): the three ways to
    list a category agree.  The shortcuts of [AgentAPI], a
    [discoverComponents] call that fixes only the category, and
    [findByCategory] of [ComponentRegistryIndex] return the same records
    in the same order, and the [total] that a list tool reports is the
    counter of that category in the registry statistics. *)
Theorem category_shortcuts_agree (registry : list ComponentMetadata) :
  let api := AgentAPI_new registry in
  let idx := ComponentRegistryIndex_new registry in
  let by_category cat :=
    discoverComponents api
      (Some {| filter_category := Some cat; filter_tags := None;
               filter_complexity := None; filter_migrationStatus := None;
               filter_hasSchema := None; filter_hasDocumentation := None;
               filter_hasTesting := None |}) in
  (getAtoms api = by_category CatAtom
   ∧ getMolecules api = by_category CatMolecule
   ∧ getOrganisms api = by_category CatOrganism)
  ∧ (getAtoms api = findByCategory idx CatAtom
     ∧ getMolecules api = findByCategory idx CatMolecule
     ∧ getOrganisms api = findByCategory idx CatOrganism)
  ∧ (∀ limit,
       listed_total (listAtoms api limit)
         = stats_byCategory (getRegistryStats api) CatAtom
       ∧ listed_total (listMolecules api limit)
         = stats_byCategory (getRegistryStats api) CatMolecule
       ∧ listed_total (listOrganisms api limit)
         = stats_byCategory (getRegistryStats api) CatOrganism).
Proof.
  cbv beta zeta.
  rewrite !discoverComponents_category, !findByCategory_filter.
  split; [done|]. split; [done|]. intros limit.
  unfold getRegistryStats, getStats. cbn [stats_byCategory].
  match goal with |- context [foldl count_component ?st0 ?l] =>
    destruct (foldl_count_component st0 l) as (Hcat & _)
  end.
  rewrite !Hcat. done.
Qed.

Lemma length_list_category cat components limit :
  let out := list_category cat components limit in
  listed_count out = length (listed_components out)
  ∧ listed_components out
    = formatComponentSummary <$> take (listed_count out) components.
Proof.
  cbn. split; [by rewrite length_map|]. by rewrite <- slice0_take.
Qed.

(** X5 (listAtoms, listMolecules, listOrganisms, the [limit || 50]
    idiom): a list tool returns a prefix of its category.  [total] is the
    size of the category, and the summaries are those of its first
    [count] records.  A positive limit caps the count; an omitted limit
    and a limit of 0 both give the default of 50; a negative limit [-k]
    drops the last [k] records instead. *)
Theorem list_tools_limit (api : AgentAPI) (limit : option Z) :
  let prefix_of (out : ListByCategoryOutput) (cat : Category)
      (components : list ComponentMetadata) :=
    listed_category out = cat
    ∧ listed_total out = length components
    ∧ listed_count out = length (listed_components out)
    ∧ listed_count out ≤ listed_total out
    ∧ listed_components out
      = formatComponentSummary <$> take (listed_count out) components
    ∧ listed_count out =
        match limit with
        | None | Some Z0 => listed_total out `min` 50
        | Some (Z.pos p) => listed_total out `min` Pos.to_nat p
        | Some (Z.neg p) => listed_total out - Pos.to_nat p
        end in
  prefix_of (listAtoms api limit) CatAtom (getAtoms api)
  ∧ prefix_of (listMolecules api limit) CatMolecule (getMolecules api)
  ∧ prefix_of (listOrganisms api limit) CatOrganism (getOrganisms api).
Proof.
  assert (Hlist : ∀ cat components,
            let out := list_category cat components limit in
            listed_category out = cat
            ∧ listed_total out = length components
            ∧ listed_count out = length (listed_components out)
            ∧ listed_count out ≤ listed_total out
            ∧ listed_components out
              = formatComponentSummary <$> take (listed_count out) components
            ∧ listed_count out =
                match limit with
                | None | Some Z0 => listed_total out `min` 50
                | Some (Z.pos p) => listed_total out `min` Pos.to_nat p
                | Some (Z.neg p) => listed_total out - Pos.to_nat p
                end).
  { intros cat components out.
    destruct (length_list_category cat components limit) as [Hc Hl].
    fold out in Hc, Hl. split; [done|]. split; [done|]. split; [done|].
    assert (Hcount : listed_count out
                     = length (slice0 components (limit_or limit 50))) by done.
    rewrite length_slice0 in Hcount.
    split; [|split; [done|]].
    - rewrite Hcount. cbn [out list_category listed_total].
      destruct (limit_or limit 50); lia.
    - rewrite Hcount. cbn [out list_category listed_total].
      destruct limit as [[|p|p]|]; cbn; try done; lia. }
  cbv zeta in *. unfold listAtoms, listMolecules, listOrganisms.
  split; [apply Hlist|]. split; apply Hlist.
Qed.

(** ** Tags *)

Lemma filter_eq_NoDup (t : string) (ts : list string) :
  NoDup ts →
  List.filter (λ tag, bool_decide (tag = t)) ts
  = if bool_decide (t ∈ ts) then [t] else [].
Proof.
  induction 1 as [|tag ts Hnotin Hnodup IH]; [done|].
  cbn [List.filter]. destruct (decide (tag = t)) as [->|Hne].
  - rewrite (bool_decide_eq_true_2 (t = t)) by done.
    rewrite (bool_decide_eq_true_2 (t ∈ t :: ts)) by left.
    rewrite filter_none; [done|].
    intros x Hx. apply bool_decide_eq_false_2. by intros ->.
  - rewrite (bool_decide_eq_false_2 (tag = t)) by done.
    rewrite IH. destruct (decide (t ∈ ts)) as [Hin|Hnin].
    + rewrite (bool_decide_eq_true_2 (t ∈ ts)) by done.
      by rewrite (bool_decide_eq_true_2 (t ∈ tag :: ts)) by by right.
    + rewrite (bool_decide_eq_false_2 (t ∈ ts)) by done.
      rewrite (bool_decide_eq_false_2 (t ∈ tag :: ts)); [done|].
      rewrite elem_of_cons. by intros [->|?].
Qed.

Lemma tag_entries_NoDup t c :
  NoDup (tags c) → tag_entries t c = if has_tag c t then [c] else [].
Proof.
  intros Hnodup. unfold tag_entries, has_tag. rewrite filter_eq_NoDup by done.
  by case_bool_decide.
Qed.

Lemma elem_of_tag_entries t c x :
  x ∈ tag_entries t c ↔ x = c ∧ t ∈ tags c.
Proof.
  unfold tag_entries. rewrite list_elem_of_In, in_map_iff. split.
  - intros (tag & <- & Htag). apply filter_In in Htag as [Hin Heq].
    apply bool_decide_eq_true_1 in Heq. subst tag.
    split; [done|]. by apply list_elem_of_In.
  - intros [-> Hin]. exists t. split; [done|].
    apply filter_In. split; [by apply list_elem_of_In|].
    by apply bool_decide_eq_true_2.
Qed.

Lemma findByTag_flat_map registry t :
  findByTag (ComponentRegistryIndex_new registry) t
  = flat_map (tag_entries t) registry.
Proof.
  unfold findByTag, ComponentRegistryIndex_new.
  change (default [] (?m !! ?k)) with (entries m k).
  by rewrite tagIndex_buildIndices.
Qed.

Lemma length_tag_entries t c :
  length (if has_tag c t then [c] else []) ≤ length (tag_entries t c).
Proof.
  unfold has_tag. case_bool_decide as Hin; [|cbn; lia].
  assert (c ∈ tag_entries t c) as Hc by by apply elem_of_tag_entries.
  destruct (tag_entries t c); [by apply elem_of_nil in Hc|cbn; lia].
Qed.

(** X6 (AgentAPI.getByTag, ComponentRegistryIndex.findByTag,
    discoverComponents): looking up one tag.  [getByTag] is a
    [discoverComponents] call with that single tag.  [findByTag] of the
    index finds the same records; it lists a record once per occurrence
    of the tag among the record's tags, so the two lists are equal when
    no record repeats a tag, and [findByTag] is never the shorter one. *)
Theorem getByTag_findByTag (registry : list ComponentMetadata) (t : string) :
  let api := AgentAPI_new registry in
  let idx := ComponentRegistryIndex_new registry in
  getByTag api t =
    discoverComponents api
      (Some {| filter_category := None; filter_tags := Some [t];
               filter_complexity := None; filter_migrationStatus := None;
               filter_hasSchema := None; filter_hasDocumentation := None;
               filter_hasTesting := None |})
  ∧ (∀ c, c ∈ findByTag idx t ↔ c ∈ getByTag api t)
  ∧ ((∀ c, c ∈ registry → NoDup (tags c)) → findByTag idx t = getByTag api t)
  ∧ length (getByTag api t) ≤ length (findByTag idx t).
Proof.
  intros api idx. subst api idx. rewrite findByTag_flat_map.
  unfold getByTag. cbn [components AgentAPI_new].
  split; [|split; [|split]].
  - rewrite discoverComponents_filter. apply List_filter_ext. intros c.
    unfold others_hold, tags_hold, holds. cbn. by rewrite orb_false_r.
  - intros c. rewrite elem_of_List_filter.
    unfold has_tag. rewrite bool_decide_eq_true. split.
    + intros Hc. apply list_elem_of_In, in_flat_map in Hc as (c' & Hc' & Hc).
      apply list_elem_of_In, elem_of_tag_entries in Hc as [-> Ht].
      split; [by apply list_elem_of_In|done].
    + intros [Hc Ht]. apply list_elem_of_In, in_flat_map. exists c.
      split; [by apply list_elem_of_In|].
      apply list_elem_of_In. by apply elem_of_tag_entries.
  - induction registry as [|c registry IH]; intros Hnodup; [done|].
    cbn [flat_map List.filter]. rewrite IH.
    + rewrite tag_entries_NoDup by (apply Hnodup; left).
      by destruct (has_tag c t).
    + intros c' Hc'. apply Hnodup. by right.
  - induction registry as [|c registry IH]; [done|].
    cbn [flat_map List.filter]. rewrite length_app.
    pose proof (length_tag_entries t c). destruct (has_tag c t); cbn in *; lia.
Qed.

(** ** Health *)

Lemma missing_or_pending_negb v :
  missing_or_pending v = negb (truthy v && bool_decide (v ≠ Some "pending")).
Proof.
  unfold missing_or_pending. rewrite negb_andb. f_equal.
  by repeat case_bool_decide.
Qed.

(** X7 (AgentAPI.getComponentHealth): the health status counts the four
    checks.  A health report exists exactly for the names that
    [getComponent] resolves.  It lists one issue per check that fails
    (schema, documentation, tests, Storybook); the status is [healthy]
    when all four checks pass, [error] only when all four fail, and
    [warning] in between. *)
Theorem getComponentHealth_status (api : AgentAPI) (componentName : string) :
  (getComponentHealth api componentName = None
   ↔ getComponent api componentName = None)
  ∧ ∀ h, getComponentHealth api componentName = Some h →
      let checks := [health_hasSchema h; health_hasDocumentation h;
                     health_hasTests h; health_hasStorybook h] in
      length (health_issues h) = length (List.filter negb checks)
      ∧ (health_status h = Healthy ↔ ∀ b, b ∈ checks → b = true)
      ∧ (health_status h = Error ↔ ∀ b, b ∈ checks → b = false)
      ∧ (health_status h = Warning ↔ true ∈ checks ∧ false ∈ checks)
      ∧ (health_status h = Healthy ↔ health_issues h = []).
Proof.
  unfold getComponentHealth.
  destruct (getComponent api componentName) as [component|]; [|by split].
  split; [by split|]. intros h [= <-].
  cbn [health_issues health_status health_hasSchema health_hasDocumentation
       health_hasTests health_hasStorybook].
  rewrite !missing_or_pending_negb.
  assert (Hall : ∀ (P : bool → Prop) b1 b2 b3 b4,
            (∀ b, b ∈ [b1; b2; b3; b4] → P b) ↔ P b1 ∧ P b2 ∧ P b3 ∧ P b4).
  { intros P b1 b2 b3 b4. split.
    - intros H. repeat split; apply H; repeat (by left) || right.
    - intros (H1 & H2 & H3 & H4) b Hb.
      repeat (apply elem_of_cons in Hb as [->|Hb]; [done|]).
      by apply elem_of_nil in Hb. }
  assert (Hin : ∀ b b1 b2 b3 b4 : bool,
            b ∈ [b1; b2; b3; b4] ↔ b = b1 ∨ b = b2 ∨ b = b3 ∨ b = b4).
  { intros. rewrite !elem_of_cons, elem_of_nil. tauto. }
  rewrite !Hall, !Hin.
  destruct (truthy (schema component) && bool_decide (schema component ≠ Some "pending")),
    (truthy (documentation component)
     && bool_decide (documentation component ≠ Some "pending")),
    (hasTesting component), (hasStorybook component); cbn;
    (split; [done|]); repeat split; try done; intros; intuition congruence.
Qed.

(** ** Sorting *)

Section Sort.
Context {A : Type} (key : A → nat).

Lemma sort_insert_Permutation x (l : list A) :
  sort_insert (by_key_descending key) x l ≡ₚ x :: l.
Proof.
  induction l as [|y l IH]; [done|]. cbn [sort_insert].
  destruct (by_key_descending key x y <=? 0)%Z; [done|].
  rewrite IH. apply Permutation_swap.
Qed.

Lemma Array_sort_Permutation (l : list A) :
  Array_sort (by_key_descending key) l ≡ₚ l.
Proof.
  induction l as [|x l IH]; [done|]. unfold Array_sort in *. cbn [foldr].
  by rewrite sort_insert_Permutation, IH.
Qed.

Lemma sort_insert_sorted x (l : list A) :
  StronglySorted (λ a b, key b ≤ key a) l →
  StronglySorted (λ a b, key b ≤ key a) (sort_insert (by_key_descending key) x l).
Proof.
  induction 1 as [|y l Hsorted IH Hy]; cbn [sort_insert].
  - repeat constructor.
  - destruct (by_key_descending key x y <=? 0)%Z eqn:Hcmp.
    + apply Z.leb_le in Hcmp. unfold by_key_descending in Hcmp.
      constructor; [by constructor|].
      constructor; [lia|]. eapply Forall_impl; [exact Hy|]. cbn. lia.
    + apply Z.leb_gt in Hcmp. unfold by_key_descending in Hcmp.
      constructor; [done|].
      rewrite sort_insert_Permutation. constructor; [lia|done].
Qed.

Lemma Array_sort_sorted (l : list A) :
  StronglySorted (λ a b, key b ≤ key a) (Array_sort (by_key_descending key) l).
Proof.
  induction l as [|x l IH]; [constructor|]. by apply sort_insert_sorted.
Qed.

Lemma sort_insert_stable k x (l : list A) :
  StronglySorted (λ a b, key b ≤ key a) l →
  List.filter (λ a, bool_decide (key a = k)) (sort_insert (by_key_descending key) x l)
  = List.filter (λ a, bool_decide (key a = k)) (x :: l).
Proof.
  induction 1 as [|y l Hsorted IH Hy]; cbn [sort_insert]; [done|].
  destruct (by_key_descending key x y <=? 0)%Z eqn:Hcmp; [done|].
  apply Z.leb_gt in Hcmp. unfold by_key_descending in Hcmp.
  cbn [List.filter] in *. rewrite IH.
  destruct (decide (key x = k)) as [Hx|Hx], (decide (key y = k)) as [Hy'|Hy'];
    try lia.
  - by rewrite (bool_decide_eq_true_2 _ Hx), (bool_decide_eq_false_2 _ Hy').
  - by rewrite (bool_decide_eq_false_2 _ Hx).
  - by rewrite (bool_decide_eq_false_2 _ Hx).
Qed.

Lemma Array_sort_stable k (l : list A) :
  List.filter (λ a, bool_decide (key a = k)) (Array_sort (by_key_descending key) l)
  = List.filter (λ a, bool_decide (key a = k)) l.
Proof.
  induction l as [|x l IH]; [done|]. unfold Array_sort in *. cbn [foldr].
  rewrite sort_insert_stable by apply Array_sort_sorted.
  cbn [List.filter]. by rewrite IH.
Qed.

End Sort.

(** ** Alternatives *)

Lemma is_alternative_spec componentName component a :
  is_alternative componentName component a = true ↔
    name a ≠ componentName ∧ ∃ tag, tag ∈ tags a ∧ tag ∈ tags component.
Proof.
  unfold is_alternative. rewrite andb_true_iff, bool_decide_eq_true.
  rewrite existsb_elem_of. unfold has_tag.
  by setoid_rewrite bool_decide_eq_true.
Qed.

(** X8 (AgentAPI.suggestAlternatives): alternatives are the records that
    share a tag, best match first.  The result is empty for an unknown
    component and never holds more than five names, none of them the
    name that was asked for.  It names the first five of the candidates,
    the records that share at least one tag with the component, after a
    stable sort by the number of shared tags in descending order:
    candidates with the same number keep their catalog order. *)
Theorem suggestAlternatives_ranked (api : AgentAPI) (componentName : string) :
  let alternatives := suggestAlternatives api componentName in
  length alternatives ≤ 5
  ∧ (componentName ∉ alternatives)
  ∧ (getComponent api componentName = None → alternatives = [])
  ∧ ∀ component, getComponent api componentName = Some component →
      let candidates :=
        List.filter (is_alternative componentName component) (components api) in
      ∃ ranked,
        alternatives = name <$> take 5 ranked
        ∧ ranked ≡ₚ candidates
        ∧ StronglySorted
            (λ a b, matching_tags component b ≤ matching_tags component a) ranked
        ∧ (∀ k, List.filter (λ a, bool_decide (matching_tags component a = k)) ranked
                = List.filter (λ a, bool_decide (matching_tags component a = k))
                    candidates)
        ∧ (∀ a, a ∈ ranked ↔
                a ∈ components api ∧ name a ≠ componentName
                ∧ ∃ tag, tag ∈ tags a ∧ tag ∈ tags component).
Proof.
  cbv zeta. unfold suggestAlternatives.
  destruct (getComponent api componentName) as [component|];
    [|by repeat split; try done; cbn; try lia; apply not_elem_of_nil].
  set (candidates := List.filter _ (components api)).
  set (ranked := Array_sort _ candidates).
  assert (Hperm : ranked ≡ₚ candidates)
    by apply (Array_sort_Permutation (matching_tags component)).
  assert (Hin : ∀ a, a ∈ ranked ↔
                a ∈ components api ∧ name a ≠ componentName
                ∧ ∃ tag, tag ∈ tags a ∧ tag ∈ tags component).
  { intros a. rewrite Hperm. unfold candidates.
    by rewrite elem_of_List_filter, is_alternative_spec. }
  change (slice0 ranked 5) with (take 5 ranked).
  split; [|split; [|split; [done|]]].
  - rewrite length_map, length_take. lia.
  - intros Hname. apply list_elem_of_In, in_map_iff in Hname as (a & Ha & Hin').
    apply list_elem_of_In, elem_of_take in Hin' as (i & Hi & _).
    apply list_elem_of_lookup_2, Hin in Hi. by destruct Hi as (_ & Hne & _).
  - intros ? [= <-]. exists ranked. split; [done|]. split; [done|].
    split; [apply (Array_sort_sorted (matching_tags component))|].
    split; [|done]. intros k.
    apply (Array_sort_stable (matching_tags component)).
Qed.

(** ** All the filters of [discoverComponents] *)

(** X9 (AgentAPI.discoverComponents): the filters are a conjunction.  A
    record is returned exactly if it is in the catalog and meets every
    constraint that the filter object sets; an empty tag list constrains
    nothing.  The result keeps the catalog order, and a filter object
    without constraints returns the catalog. *)
Theorem discoverComponents_all_constraints
    (api : AgentAPI) (filters : ComponentFilters) :
  (∀ c, c ∈ discoverComponents api (Some filters) ↔
     c ∈ components api
     ∧ (∀ cat, filter_category filters = Some cat → category c = cat)
     ∧ (∀ ftags, filter_tags filters = Some ftags → ftags ≠ [] →
          ∃ tag, tag ∈ ftags ∧ tag ∈ tags c)
     ∧ (∀ cx, filter_complexity filters = Some cx → complexity c = cx)
     ∧ (∀ ms, filter_migrationStatus filters = Some ms →
          migrationStatus c = Some ms)
     ∧ (filter_hasSchema filters = Some true →
          schema c ≠ None ∧ schema c ≠ Some "pending")
     ∧ (filter_hasSchema filters = Some false →
          schema c = None ∨ schema c = Some "pending")
     ∧ (filter_hasDocumentation filters = Some true →
          documentation c ≠ None ∧ documentation c ≠ Some "pending")
     ∧ (filter_hasDocumentation filters = Some false →
          documentation c = None ∨ documentation c = Some "pending")
     ∧ (∀ want, filter_hasTesting filters = Some want → hasTesting c = want))
  ∧ discoverComponents api (Some filters) `sublist_of` components api
  ∧ discoverComponents api (Some noFilters) = components api.
Proof.
  split; [|split].
  - intros c. rewrite discoverComponents_filter, elem_of_List_filter.
    apply and_iff_compat_l.
    unfold others_hold, tags_hold, holds, reference_present, reference_missing.
    destruct filters as [fcat ftags fcx fms fschema fdoc ftest]. cbn.
    rewrite !andb_true_iff. split.
    + intros ((((((Hcat & Hcx) & Hms) & Hschema) & Hdoc) & Htest) & Htags).
      split; [|split; [|split; [|split; [|split; [|split; [|split; [|split]]]]]]].
      * intros cat ->. by apply bool_decide_eq_true_1 in Hcat.
      * intros ts -> Hne. destruct ts as [|t ts]; [done|].
        apply existsb_elem_of in Htags as (tag & Hin & Htag).
        exists tag. split; [done|]. by apply bool_decide_eq_true_1 in Htag.
      * intros cx ->. by apply bool_decide_eq_true_1 in Hcx.
      * intros ms ->. by apply bool_decide_eq_true_1 in Hms.
      * intros ->. apply andb_true_iff in Hschema as [H1 H2].
        split; by eapply bool_decide_eq_true_1.
      * intros ->. apply orb_true_iff in Hschema as [H|H];
          apply bool_decide_eq_true_1 in H; tauto.
      * intros ->. apply andb_true_iff in Hdoc as [H1 H2].
        split; by eapply bool_decide_eq_true_1.
      * intros ->. apply orb_true_iff in Hdoc as [H|H];
          apply bool_decide_eq_true_1 in H; tauto.
      * intros want ->. by apply bool_decide_eq_true_1 in Htest.
    + intros (Hcat & Htags & Hcx & Hms & Hs1 & Hs0 & Hd1 & Hd0 & Htest).
      repeat split.
      * destruct fcat; [|done]. apply bool_decide_eq_true_2. by apply Hcat.
      * destruct fcx; [|done]. apply bool_decide_eq_true_2. by apply Hcx.
      * destruct fms; [|done]. apply bool_decide_eq_true_2. by apply Hms.
      * destruct fschema as [[]|]; [| |done].
        -- destruct (Hs1 eq_refl). apply andb_true_iff.
           split; by apply bool_decide_eq_true_2.
        -- apply orb_true_iff.
           destruct (Hs0 eq_refl); [left|right]; by apply bool_decide_eq_true_2.
      * destruct fdoc as [[]|]; [| |done].
        -- destruct (Hd1 eq_refl). apply andb_true_iff.
           split; by apply bool_decide_eq_true_2.
        -- apply orb_true_iff.
           destruct (Hd0 eq_refl); [left|right]; by apply bool_decide_eq_true_2.
      * destruct ftest; [|done]. apply bool_decide_eq_true_2. by apply Htest.
      * destruct ftags as [[|t ts]|]; [done| |done].
        destruct (Htags (t :: ts) eq_refl) as (tag & Hin & Htag); [done|].
        apply existsb_elem_of. exists tag. split; [done|].
        by apply bool_decide_eq_true_2.
  - rewrite discoverComponents_filter. apply List_filter_sublist.
  - rewrite discoverComponents_filter. apply filter_true.
Qed.

(** ** The limits of the tools *)

(** X10 (the handler [discoverComponents] of [discovery.ts]): the tool
    returns a prefix of what [AgentAPI.discoverComponents] finds for the
    same category, tags, complexity and schema and documentation flags,
    and reports the full number as [totalMatches].  A positive limit caps
    the count; an omitted limit and a limit of 0 both give the default of
    20; a negative limit [-k] drops the last [k] matches instead. *)
Theorem tool_discoverComponents_limit
    (api : AgentAPI) (input : DiscoverComponentsInput) :
  let out := tool_discoverComponents api input in
  let found :=
    discoverComponents api
      (Some {| filter_category := discover_category input;
               filter_tags := discover_tags input;
               filter_complexity := discover_complexity input;
               filter_migrationStatus := None;
               filter_hasSchema := discover_hasSchema input;
               filter_hasDocumentation := discover_hasDocumentation input;
               filter_hasTesting := None |}) in
  discovered_totalMatches out = length found
  ∧ discovered_count out = length (discovered_components out)
  ∧ discovered_count out ≤ discovered_totalMatches out
  ∧ discovered_components out
    = formatComponentSummary <$> take (discovered_count out) found
  ∧ discovered_count out =
      match discover_limit input with
      | None | Some Z0 => discovered_totalMatches out `min` 20
      | Some (Z.pos p) => discovered_totalMatches out `min` Pos.to_nat p
      | Some (Z.neg p) => discovered_totalMatches out - Pos.to_nat p
      end.
Proof.
  intros out found. unfold out, tool_discoverComponents. fold found.
  cbn [discovered_count discovered_totalMatches discovered_components].
  split; [done|]. split; [by rewrite length_map|].
  rewrite length_slice0.
  split; [|split].
  - destruct (limit_or (discover_limit input) 20); lia.
  - rewrite <- length_slice0. by rewrite <- slice0_take.
  - destruct (discover_limit input) as [[|p|p]|]; cbn; try done; lia.
Qed.

(** ** The relevance of a search result *)

Lemma formatSearchResult_relevance c query :
  match result_relevance (formatSearchResult c query) with
  | RelName => is_substring (toLowerCase query) (toLowerCase (name c))
  | RelTag =>
      ¬ is_substring (toLowerCase query) (toLowerCase (name c))
      ∧ ∃ tag, tag ∈ tags c
               ∧ is_substring (toLowerCase query) (toLowerCase tag)
  | RelDescription =>
      ¬ is_substring (toLowerCase query) (toLowerCase (name c))
      ∧ ¬ ∃ tag, tag ∈ tags c
                 ∧ is_substring (toLowerCase query) (toLowerCase tag)
  end.
Proof.
  unfold formatSearchResult. cbn [result_relevance].
  destruct (includes (toLowerCase (name c)) (toLowerCase query)) eqn:Hname.
  { by apply includes_spec. }
  assert (Hnot : ¬ is_substring (toLowerCase query) (toLowerCase (name c))).
  { intros H%includes_spec. congruence. }
  destruct (existsb _ (tags c)) eqn:Htags.
  - split; [done|]. apply existsb_elem_of in Htags as (tag & Hin & Htag).
    exists tag. split; [done|]. by apply includes_spec.
  - split; [done|]. intros (tag & Hin & Htag).
    apply not_true_iff_false in Htags. apply Htags.
    apply existsb_elem_of. exists tag. split; [done|]. by apply includes_spec.
Qed.

(** X11 (the handler [searchComponents] of [discovery.ts] with
    [formatSearchResult]): every result says where the query was found.
    A result comes from a catalog record that matches the query, and its
    relevance is ["name"] when the lowercased query occurs in the
    lowercased name, else ["tag"] when it occurs in a lowercased tag, and
    ["description"] only when it occurs in the lowercased description and
    in neither of the others.  The results are at most the limit, in
    catalog order. *)
Theorem tool_searchComponents_relevance
    (api : AgentAPI) (input : SearchComponentsInput) :
  let out := tool_searchComponents api input in
  let q := toLowerCase (input_query input) in
  output_query out = input_query input
  ∧ output_count out = length (output_results out)
  ∧ output_results out
    = (λ c, formatSearchResult c (input_query input))
      <$> take (output_count out) (searchComponents api (input_query input))
  ∧ ∀ r, r ∈ output_results out →
      ∃ c, c ∈ components api
           ∧ r = formatSearchResult c (input_query input)
           ∧ result_name r = name c
           ∧ match result_relevance r with
             | RelName => is_substring q (toLowerCase (name c))
             | RelTag =>
                 ¬ is_substring q (toLowerCase (name c))
                 ∧ ∃ tag, tag ∈ tags c ∧ is_substring q (toLowerCase tag)
             | RelDescription =>
                 ¬ is_substring q (toLowerCase (name c))
                 ∧ (¬ ∃ tag, tag ∈ tags c ∧ is_substring q (toLowerCase tag))
                 ∧ is_substring q (toLowerCase (description c))
             end.
Proof.
  intros out q. unfold out, tool_searchComponents.
  cbn [output_query output_count output_results].
  split; [done|]. split; [by rewrite length_map|].
  split; [by rewrite <- slice0_take|].
  intros r Hr. apply list_elem_of_In, in_map_iff in Hr as (c & <- & Hc).
  apply list_elem_of_In in Hc. rewrite slice0_take in Hc.
  apply elem_of_take in Hc as (i & Hc & _). apply list_elem_of_lookup_2 in Hc.
  unfold searchComponents in Hc. apply elem_of_List_filter in Hc as [Hc Hmatch].
  exists c. split; [done|]. split; [done|]. split; [done|].
  pose proof (formatSearchResult_relevance c (input_query input)) as Hrel.
  fold q in Hrel, Hmatch.
  destruct (result_relevance (formatSearchResult c (input_query input)));
    [done| |done].
  destruct Hrel as [Hname Htags]. split; [done|]. split; [done|].
  apply search_match_spec in Hmatch as [?|[?|?]]; done.
Qed.

(** ** Loading documentation *)

(** X12 (AgentAPI.loadDocumentation and the handler [loadDocumentation]
    of [generation.ts]): the tool never fails with an exception and has
    three outcomes.  An unknown name gives [COMPONENT_NOT_FOUND]; a
    component whose documentation is missing, empty or ["pending"] gives
    [DOCUMENTATION_NOT_AVAILABLE]; any other component gives the text
    [See documentation at: <path>] with the path stored in the record.
    Documentation is loaded exactly for the components that
    [getComponentHealth] reports as having documentation. *)
Theorem tool_loadDocumentation_outcomes (api : AgentAPI) (input_name : string) :
  (∀ e, tool_loadDocumentation api input_name ≠ Throws e)
  ∧ (getComponent api input_name = None →
     tool_loadDocumentation api input_name
     = Returns (DocumentationError (component_not_found input_name)))
  ∧ (∀ component, getComponent api input_name = Some component →
     (missing_or_pending (documentation component) = true →
      ∃ e, tool_loadDocumentation api input_name
           = Returns (DocumentationNotAvailable e (name component) false)
           ∧ tool_error e = "DOCUMENTATION_NOT_AVAILABLE")
     ∧ (missing_or_pending (documentation component) = false →
        ∃ doc, documentation component = Some doc
               ∧ tool_loadDocumentation api input_name
                 = Returns (DocumentationLoaded (name component)
                              ("See documentation at: " +:+ doc) (Some doc))))
  ∧ ((∃ componentName doc doc_path,
        tool_loadDocumentation api input_name
        = Returns (DocumentationLoaded componentName doc doc_path))
     ↔ health_hasDocumentation <$> getComponentHealth api input_name = Some true).
Proof.
  unfold tool_loadDocumentation, loadDocumentation, getComponentHealth.
  destruct (getComponent api input_name) as [component|].
  2: { split; [done|]. split; [done|]. split; [done|].
       split; [by intros (? & ? & ? & ?)|done]. }
  cbn [fmap option_fmap option_map health_hasDocumentation].
  destruct (documentation component) as [doc|] eqn:Hdoc.
  - rewrite (missing_or_pending_negb (Some doc)).
    destruct (truthy (Some doc) && bool_decide (Some doc ≠ Some "pending")) eqn:Hok;
      cbn [negb].
    + assert (truthy (Some ("See documentation at: " +:+ doc)) = true)
        as -> by done.
      split; [done|]. split; [done|]. split.
      * intros ? [= <-]. rewrite Hdoc, missing_or_pending_negb, Hok.
        split; [done|]. intros _. by exists doc.
      * split; [done|]. intros _. by do 3 eexists.
    + split; [done|]. split; [done|]. split.
      * intros ? [= <-]. rewrite Hdoc, missing_or_pending_negb, Hok.
        split; [|done]. intros _. by eexists.
      * split; [by intros (? & ? & ? & ?)|done].
  - split; [done|]. split; [done|]. split.
    + intros ? [= <-]. rewrite Hdoc. split; [|done]. intros _. by eexists.
    + split; [by intros (? & ? & ? & ?)|done].
Qed.

(** ** Strings and their characters *)

Lemma chars_str l : chars (str l) = l.
Proof. apply list_ascii_of_string_of_list_ascii. Qed.

Lemma str_chars s : str (chars s) = s.
Proof. apply string_of_list_ascii_of_string. Qed.

Lemma chars_append a b : chars (a +:+ b) = chars a ++ chars b.
Proof.
  unfold chars. induction a as [|c a IH]; [done|].
  change (String c a +:+ b) with (String c (a +:+ b)).
  cbn [list_ascii_of_string]. by rewrite IH.
Qed.

Lemma chars_inj a b : chars a = chars b → a = b.
Proof. intros H. by rewrite <- (str_chars a), <- (str_chars b), H. Qed.

Lemma startsWith_chars_app p post : startsWith_chars p (p ++ post) = true.
Proof. apply startsWith_chars_spec. by exists post. Qed.

Lemma includes_chars_app l pre sub post :
  l = pre ++ sub ++ post → includes_chars l sub = true.
Proof. intros ->. apply includes_chars_spec. by exists pre, post. Qed.

(** ** [replace] *)

Lemma replace_chars_here pat rep post :
  replace_chars pat rep (pat ++ post) = rep ++ post.
Proof.
  destruct (pat ++ post) as [|c l] eqn:Hl; cbn [replace_chars];
    rewrite <- Hl, startsWith_chars_app, drop_app_length; done.
Qed.

Lemma replace_chars_skip p pat rep s l :
  p ∉ s →
  replace_chars (p :: pat) rep (s ++ l) = s ++ replace_chars (p :: pat) rep l.
Proof.
  induction s as [|c s IH]; intros Hs; [done|].
  apply not_elem_of_cons in Hs as [Hc Hs].
  cbn [app replace_chars startsWith_chars].
  rewrite (bool_decide_eq_false_2 (p = c)) by done. cbn [andb].
  by rewrite IH.
Qed.

Lemma replace_chars_absent p pat rep l :
  p ∉ l → replace_chars (p :: pat) rep l = l.
Proof.
  intros Hl. rewrite <- (app_nil_r l) at 1.
  rewrite replace_chars_skip by done. cbn. by rewrite app_nil_r.
Qed.

Lemma replace_chars_found pat rep l :
  includes_chars l pat = true →
  ∃ pre post, l = pre ++ pat ++ post
              ∧ replace_chars pat rep l = pre ++ rep ++ post.
Proof.
  induction l as [|c l IH]; cbn [includes_chars replace_chars].
  - rewrite orb_false_r. intros Hstart. rewrite Hstart.
    apply startsWith_chars_spec in Hstart as (post & Hpost).
    exists [], post. split; [done|].
    symmetry in Hpost. apply app_eq_nil in Hpost as [-> ->]. done.
  - destruct (startsWith_chars pat (c :: l)) eqn:Hstart.
    + intros _. apply startsWith_chars_spec in Hstart as (post & Hpost).
      exists [], post. split; [done|]. rewrite Hpost.
      by rewrite drop_app_length.
    + cbn [orb]. intros Hl. destruct (IH Hl) as (pre & post & -> & ->).
      by exists (c :: pre), post.
Qed.

(** Removing the first occurrence of a pattern keeps every occurrence of
    a text that shares no character with the pattern. *)
Lemma replace_chars_keeps p pat sub l :
  sub ≠ [] → (∀ c, c ∈ sub → c ∉ p :: pat) →
  includes_chars l sub = true →
  includes_chars (replace_chars (p :: pat) [] l) sub = true.
Proof.
  intros Hsub Hdisjoint.
  assert (Hdrop : ∀ pat' post pre post',
            (∀ c, c ∈ pat' → c ∈ p :: pat) →
            pat' ++ post = pre ++ sub ++ post' →
            ∃ pre', post = pre' ++ sub ++ post').
  { induction pat' as [|q pat' IH]; intros post pre post' Hpat Heq.
    - by exists pre.
    - destruct pre as [|d pre].
      + destruct sub as [|d sub]; [done|]. injection Heq as <- _.
        destruct (Hdisjoint q); [by left|]. apply Hpat. by left.
      + injection Heq as <- Heq. apply (IH post pre post'); [|done].
        intros c Hc. apply Hpat. by right. }
  induction l as [|c l IH]; cbn [includes_chars replace_chars].
  - rewrite orb_false_r. intros Hstart.
    apply startsWith_chars_spec in Hstart as (post & Hpost).
    symmetry in Hpost. by apply app_eq_nil in Hpost as [-> _].
  - destruct (startsWith_chars (p :: pat) (c :: l)) eqn:Hpat.
    + intros Hin. change (includes_chars (c :: l) sub = true) in Hin.
      apply includes_chars_spec in Hin as (pre & post' & Heq).
      apply startsWith_chars_spec in Hpat as (post & Hpost).
      rewrite Hpost in Heq |- *. rewrite drop_app_length. cbn [app].
      destruct (Hdrop (p :: pat) post pre post') as (pre' & ->); [done|done|].
      apply includes_chars_spec. by exists pre', post'.
    + intros Hin. apply orb_true_iff in Hin as [Hin|Hin].
      * apply startsWith_chars_spec in Hin as (post & Hpost).
        destruct sub as [|d sub]; [done|]. injection Hpost as <- ->.
        rewrite replace_chars_skip.
        -- apply orb_true_iff. left.
           apply (startsWith_chars_app (c :: sub)).
        -- intros Hp. destruct (Hdisjoint p); [by right|by left].
      * apply orb_true_iff. right. by apply IH.
Qed.

Lemma includes_replace_removed s sub pattern :
  chars sub ≠ [] → chars pattern ≠ [] →
  (∀ c, c ∈ chars sub → c ∉ chars pattern) →
  includes s sub = true → includes (replace s pattern "") sub = true.
Proof.
  unfold includes, replace. rewrite chars_str.
  destruct (chars pattern) as [|p pat] eqn:Hpat; [done|].
  intros Hsub _ Hdisjoint. by apply replace_chars_keeps.
Qed.

(** ** Import statements *)

(** X13 (AgentAPI.generateImport, validateImportStatement): a generated
    import statement passes the validator of import statements.  For a
    component whose path contains [src/], [generateImport] returns a
    statement that [validateImportStatement] accepts for the name of the
    component, whatever path is expected. *)
Theorem generateImport_passes_validateImportStatement
    (api : AgentAPI) (componentName : string) (component : ComponentMetadata)
    (expectedPath : string) :
  getComponent api componentName = Some component →
  is_substring "src/" (path component) →
  ∃ importStatement,
    generateImport api componentName = Returns importStatement
    ∧ validateImportStatement importStatement (name component) expectedPath
      = {| statement_valid := true; statement_error := None |}.
Proof.
  intros Hget Hsrc. unfold generateImport. rewrite Hget.
  eexists. split; [done|].
  set (importPath := replace _ ".ts" "").
  assert (Hpath : includes importPath "@/" = true).
  { unfold importPath.
    apply includes_replace_removed; [done|done| |].
    { intros c Hc. cbn in Hc |- *.
      repeat (apply elem_of_cons in Hc as [->|Hc]);
        [| |by apply elem_of_nil in Hc];
        rewrite !elem_of_cons, elem_of_nil; intros [?|[?|[?|?]]]; done. }
    apply includes_replace_removed; [done|done| |].
    { intros c Hc. cbn in Hc |- *.
      repeat (apply elem_of_cons in Hc as [->|Hc]);
        [| |by apply elem_of_nil in Hc];
        rewrite !elem_of_cons, elem_of_nil; intros [?|[?|[?|[?|?]]]]; done. }
    apply includes_spec in Hsrc. unfold includes in Hsrc.
    destruct (replace_chars_found (chars "src/") (chars "@/") _ Hsrc)
      as (pre & post & _ & Hreplaced).
    unfold includes, replace. rewrite chars_str, Hreplaced.
    by eapply includes_chars_app. }
  unfold validateImportStatement.
  assert (includes ("import { " +:+ name component +:+ " } from '"
                    +:+ importPath +:+ "'") (name component) = true) as ->.
  { apply includes_spec. exists (chars "import { "), (chars (" } from '" +:+ importPath +:+ "'")).
    by rewrite !chars_append. }
  assert (startsWith ("import { " +:+ name component +:+ " } from '"
                      +:+ importPath +:+ "'") "import" = true) as -> by done.
  assert (includes ("import { " +:+ name component +:+ " } from '"
                    +:+ importPath +:+ "'") "@/" = true) as ->; [|done].
  apply includes_spec in Hpath as (pre & post & Hpath).
  apply includes_spec.
  exists (chars ("import { " +:+ name component +:+ " } from '") ++ pre),
         (post ++ chars "'").
  rewrite !chars_append, Hpath. by rewrite <- !app_assoc.
Qed.

Lemma generateImport_passes_validateImportStatement_witness :
  getComponent (AgentAPI_new componentRegistry) "button" = Some Button
  ∧ is_substring "src/" (path Button)
  ∧ ∃ importStatement,
      generateImport (AgentAPI_new componentRegistry) "button"
      = Returns importStatement
      ∧ validateImportStatement importStatement (name Button) ""
        = {| statement_valid := true; statement_error := None |}.
Proof.
  assert (Hget : getComponent (AgentAPI_new componentRegistry) "button" = Some Button)
    by by vm_compute.
  assert (Hsrc : is_substring "src/" (path Button))
    by (by exists [], (chars "components/atoms/button/Button.tsx")).
  split; [exact Hget|]. split; [exact Hsrc|].
  exact (generateImport_passes_validateImportStatement
           (AgentAPI_new componentRegistry) "button" Button "" Hget Hsrc).
Defined.

(** ** Import paths *)

Lemma endsWith_chars_app l suffix : endsWith_chars (l ++ suffix) suffix = true.
Proof.
  unfold endsWith_chars. rewrite length_app. apply andb_true_intro. split.
  - apply Nat.leb_le. lia.
  - apply bool_decide_eq_true_2.
    replace (length l + length suffix - length suffix) with (length l) by lia.
    by rewrite drop_app_length.
Qed.

Lemma endsWith_chars_inv l suffix :
  endsWith_chars l suffix = true → ∃ l', l = l' ++ suffix.
Proof.
  unfold endsWith_chars. intros [_ H%bool_decide_eq_true_1]%andb_true_iff.
  exists (take (length l - length suffix) l).
  transitivity (take (length l - length suffix) l
                ++ drop (length l - length suffix) l);
    [by rewrite take_drop|by rewrite H].
Qed.

Lemma replace_canonical_path rest ext :
  ext ∈ [".tsx"; ".ts"] → "."%char ∉ chars rest →
  replace (replace (replace ("src/" +:+ rest +:+ ext) "src/" "@/") ".tsx" "")
          ".ts" ""
  = "@/" +:+ rest.
Proof.
  intros Hext Hrest. unfold replace. apply chars_inj.
  rewrite !chars_str, !chars_append.
  rewrite (replace_chars_here (chars "src/") (chars "@/")).
  assert (Hskip : "."%char ∉ chars "@/" ++ chars rest).
  { rewrite elem_of_app. intros [H|H]; [|done].
    cbn in H. rewrite !elem_of_cons, elem_of_nil in H. by destruct H as [?|[?|?]]. }
  rewrite (app_assoc (chars "@/") (chars rest) (chars ext)).
  change (chars ".tsx") with ("."%char :: chars "tsx").
  change (chars ".ts") with ("."%char :: chars "ts").
  rewrite replace_chars_skip by done.
  apply elem_of_cons in Hext as [->|Hext];
    [|apply elem_of_cons in Hext as [->|Hext]; [|by apply elem_of_nil in Hext]].
  - change (replace_chars ("."%char :: chars "tsx") (chars "") (chars ".tsx"))
      with (@nil ascii).
    rewrite replace_chars_skip by done. cbn [replace_chars startsWith_chars].
    by rewrite !app_nil_r.
  - change (replace_chars ("."%char :: chars "tsx") (chars "") (chars ".ts"))
      with (chars ".ts").
    rewrite replace_chars_skip by done.
    change (replace_chars ("."%char :: chars "ts") (chars "") (chars ".ts"))
      with (@nil ascii).
    by rewrite !app_nil_r.
Qed.

Lemma getImportPath_canonical rest ext :
  ext ∈ [".tsx"; ".ts"] →
  getImportPath ("src/" +:+ rest +:+ ext) = "@/" +:+ rest.
Proof.
  intros Hext. unfold getImportPath, replace_leading_src.
  assert (startsWith ("src/" +:+ rest +:+ ext) "src/" = true) as ->.
  { unfold startsWith. rewrite chars_append. apply startsWith_chars_app. }
  rewrite chars_append.
  change (drop 4 (chars "src/" ++ ?l)) with l.
  rewrite str_chars. unfold strip_ts_extension.
  apply elem_of_cons in Hext as [->|Hext];
    [|apply elem_of_cons in Hext as [->|Hext]; [|by apply elem_of_nil in Hext]].
  - rewrite !chars_append, !app_assoc.
    rewrite endsWith_chars_app. rewrite length_app.
    change (length (chars ".tsx")) with 4.
    replace (length (chars "@/" ++ chars rest) + 4 - 4)
      with (length (chars "@/" ++ chars rest)) by lia.
    rewrite take_app_length. apply chars_inj.
    by rewrite chars_str, chars_append.
  - destruct (endsWith_chars (chars ("@/" +:+ rest +:+ ".ts")) (chars ".tsx"))
      eqn:Htsx.
    { exfalso. apply endsWith_chars_inv in Htsx as (l' & Hl').
      rewrite !chars_append, !app_assoc in Hl'.
      change (chars ".ts") with ([Ascii.ascii_of_nat 46; "t"%char] ++ ["s"%char]) in Hl'.
      change (chars ".tsx") with ([Ascii.ascii_of_nat 46; "t"%char; "s"%char] ++ ["x"%char]) in Hl'.
      rewrite !app_assoc in Hl'. by apply app_inj_tail in Hl' as [_ ?]. }
    rewrite !chars_append, !app_assoc.
    rewrite endsWith_chars_app. rewrite length_app.
    change (length (chars ".ts")) with 3.
    replace (length (chars "@/" ++ chars rest) + 3 - 3)
      with (length (chars "@/" ++ chars rest)) by lia.
    rewrite take_app_length. apply chars_inj.
    by rewrite chars_str, chars_append.
Qed.

(** X14 (the handler [generateImport] of [generation.ts], [getImportPath],
    AgentAPI.generateImport): the import of a component file.  For a
    component stored at [src/<rest>.tsx] or [src/<rest>.ts], where
    [<rest>] holds no dot, the tool answers with the statement
    [import { <Name> } from '@/<rest>'] and with the same path [@/<rest>]
    in its [path] field, although the two are computed in different ways;
    the type import is added exactly when [includeTypes] is true. *)
Theorem tool_generateImport_canonical
    (api : AgentAPI) (input_name : string) (includeTypes : option bool)
    (component : ComponentMetadata) (rest ext : string) :
  getComponent api input_name = Some component →
  path component = "src/" +:+ rest +:+ ext →
  ext ∈ [".tsx"; ".ts"] →
  "."%char ∉ chars rest →
  tool_generateImport api input_name includeTypes
  = Returns (inr
      {| generated_import :=
           "import { " +:+ name component +:+ " } from '" +:+ ("@/" +:+ rest) +:+ "'";
         generated_typeImport :=
           if default false includeTypes
           then Some ("import type { " +:+ name component +:+ "Props } from '"
                      +:+ ("@/" +:+ rest) +:+ "'")
           else None;
         generated_path := "@/" +:+ rest |}).
Proof.
  intros Hget Hpath Hext Hrest.
  unfold tool_generateImport, generateImport. rewrite Hget, Hpath.
  by rewrite replace_canonical_path, getImportPath_canonical.
Qed.

Lemma tool_generateImport_canonical_witness :
  getComponent (AgentAPI_new componentRegistry) "button" = Some Button
  ∧ path Button = "src/" +:+ "components/atoms/button/Button" +:+ ".tsx"
  ∧ ".tsx" ∈ [".tsx"; ".ts"]
  ∧ ("."%char ∉ chars "components/atoms/button/Button")
  ∧ tool_generateImport (AgentAPI_new componentRegistry) "button" (Some true)
    = Returns (inr
        {| generated_import :=
             "import { Button } from '@/components/atoms/button/Button'";
           generated_typeImport :=
             Some "import type { ButtonProps } from '@/components/atoms/button/Button'";
           generated_path := "@/components/atoms/button/Button" |}).
Proof.
  assert (Hget : getComponent (AgentAPI_new componentRegistry) "button" = Some Button)
    by by vm_compute.
  assert (Hpath : path Button = "src/" +:+ "components/atoms/button/Button" +:+ ".tsx")
    by reflexivity.
  assert (Hext : ".tsx" ∈ [".tsx"; ".ts"]) by left.
  assert (Hrest : "."%char ∉ chars "components/atoms/button/Button").
  { apply (bool_decide_unpack _). by vm_compute. }
  split; [exact Hget|]. split; [exact Hpath|]. split; [exact Hext|].
  split; [exact Hrest|].
  exact (tool_generateImport_canonical (AgentAPI_new componentRegistry) "button"
           (Some true) Button "components/atoms/button/Button" ".tsx"
           Hget Hpath Hext Hrest).
Defined.

(** ** Version strings *)

Lemma test_anchored_semver v :
  test_anchored semverRegex v = true ↔ is_semver v.
Proof.
  unfold test_anchored, semverRegex. split.
  - destruct (rmatch _ v ∅ _) as [[]|] eqn:Hmatch; [intros _|done].
    apply rmatch_sound in Hmatch as (t & s' & caps' & -> & Hlang & Hend).
    case_bool_decide as Hs'; [subst s'|done]. rewrite app_nil_r.
    invert_lang. unfold is_semver. do 3 eexists. repeat split; eauto.
  - intros (major & minor & patch & Hmajor & Hmajor' & Hminor & Hminor'
            & Hpatch & Hpatch' & ->).
    assert (Hdot : ∀ R (k : list ascii → gmap nat (list ascii) → option R)
                     l caps c s',
              is_digit c = true →
              rmatch (Seq (Lit ".") l) (c :: s') caps k = None).
    { intros R k l caps c s' Hc. rewrite rmatch_Seq, rmatch_Lit.
      cbn [chars list_ascii_of_string startsWith_chars].
      rewrite bool_decide_eq_false_2; [done|]. by intros <-. }
    assert (Hrun : ∀ digits s,
              Forall (λ c, is_digit c = true) digits →
              run is_digit (digits ++ chars "." ++ s) = digits).
    { intros digits s Hdigits. apply run_app; [done|].
      by intros c s'' [= <- _]. }
    rewrite rmatch_Seq, rmatch_Plus_longest by (intros; by apply Hdot).
    rewrite Hrun by done. destruct major as [|m major]; [done|].
    rewrite drop_app_length, rmatch_Seq, rmatch_Lit_app.
    rewrite rmatch_Seq, rmatch_Plus_longest by (intros; by apply Hdot).
    rewrite Hrun by done. destruct minor as [|n minor]; [done|].
    rewrite drop_app_length, rmatch_Seq, rmatch_Lit_app.
    rewrite rmatch_Plus_longest by done.
    rewrite <- (app_nil_r patch), run_app by done.
    destruct patch as [|p patch]; [done|].
    by rewrite app_nil_r, drop_all.
Qed.

(** ** [validateComponentMetadata] *)

Lemma push_if_nil {A} (cond : bool) (e : A) l :
  push_if cond e l = [] ↔ cond = false ∧ l = [].
Proof.
  unfold push_if. destruct cond.
  - split; [|by intros [? _]]. intros H. by apply app_eq_nil in H as [_ ?].
  - by split; [|intros [_ ?]].
Qed.

Lemma push_if_sublist {A} (cond : bool) (e : A) l k :
  l `sublist_of` k → push_if cond e l `sublist_of` k ++ [e].
Proof.
  intros H. unfold push_if. destruct cond.
  - by apply sublist_app.
  - rewrite <- (app_nil_r l). apply sublist_app; [done|]. by apply sublist_nil_l.
Qed.

Lemma validateComponentMetadata_no_errors (metadata : RawMetadata) :
  svr_valid (validateComponentMetadata metadata) = true
  ↔ svr_errors (validateComponentMetadata metadata) = [].
Proof.
  unfold validateComponentMetadata. cbv zeta. cbn [svr_valid svr_errors].
  rewrite bool_decide_eq_true. by destruct (push_if _ _ _).
Qed.

Lemma raw_metadata_in_lists (c : ComponentMetadata) :
  (bool_decide (Category_string (category c) = "") = false
   ∧ bool_decide (Category_string (category c) ∈ validCategories) = true)
  ∧ (bool_decide (Complexity_string (complexity c) = "") = false
     ∧ bool_decide (Complexity_string (complexity c) ∈ validComplexities) = true)
  ∧ (bool_decide (WcagLevel_string (wcagLevel c) = "") = false
     ∧ bool_decide (WcagLevel_string (wcagLevel c) ∈ validWCAG) = true).
Proof.
  split; [|split].
  - by destruct (category c); vm_compute.
  - by destruct (complexity c); vm_compute.
  - by destruct (wcagLevel c); vm_compute.
Qed.

(** A record of the registry file with a category outside the list, a
    version of two numbers and no tag: three errors, in that order. *)
Example validateComponentMetadata_widget :
  validateComponentMetadata
    {| raw_name := "Gauge"; raw_category := "widget";
       raw_path := "src/components/ui/gauge.tsx";
       raw_description := "Gauge component";
       raw_complexity := "simple"; raw_wcagLevel := "AA";
       raw_version := "1.0"; raw_tags := [] |}
  = {| svr_valid := false;
       svr_errors :=
         [ {| sve_path := "category";
              sve_error :=
                "Invalid category " +:+ quoted "widget"
                +:+ ". Must be one of: atom, molecule, organism, template, pattern" |};
           {| sve_path := "version";
              sve_error :=
                "Invalid version format " +:+ quoted "1.0"
                +:+ ". Must be semver (e.g., 1.0.0)" |};
           {| sve_path := "tags";
              sve_error := "Component must have at least one tag" |} ] |}.
Proof. by vm_compute. Qed.

(** X15 (validateComponentMetadata): when a metadata record is valid.
    The result is valid exactly when it lists no error, and that is the
    case exactly when the name, the path and the description are not
    empty, the category is one of the five categories, the complexity
    and the WCAG level are empty or among their values, the version is
    empty or of the form [<digits>.<digits>.<digits>], and the tag list
    is not empty: an empty complexity, WCAG level or version is accepted.
    The errors come in the order name, category (missing), path,
    description, category (not in the list), complexity, wcagLevel,
    version, tags, at most one for each path, and a category outside the
    list always gives a category error.  For a record whose category,
    complexity and WCAG level are values of their types, the conditions
    are those on the name, the path, the description, the version and
    the tags, and so are the errors. *)
Theorem validateComponentMetadata_valid (metadata : RawMetadata) :
  let r := validateComponentMetadata metadata in
  (svr_valid r = true ↔ svr_errors r = [])
  ∧ (svr_valid r = true ↔
       raw_name metadata ≠ ""
       ∧ raw_category metadata ∈ validCategories
       ∧ raw_path metadata ≠ "" ∧ raw_description metadata ≠ ""
       ∧ (raw_complexity metadata = ""
          ∨ raw_complexity metadata ∈ validComplexities)
       ∧ (raw_wcagLevel metadata = "" ∨ raw_wcagLevel metadata ∈ validWCAG)
       ∧ (raw_version metadata = "" ∨ is_semver (chars (raw_version metadata)))
       ∧ raw_tags metadata ≠ [])
  ∧ sve_path <$> svr_errors r
    `sublist_of` ["name"; "category"; "path"; "description"; "category";
                  "complexity"; "wcagLevel"; "version"; "tags"]
  ∧ NoDup (sve_path <$> svr_errors r)
  ∧ (raw_category metadata ∉ validCategories →
     "category" ∈ sve_path <$> svr_errors r)
  ∧ (∀ c : ComponentMetadata, metadata = raw_metadata c →
       (svr_valid r = true ↔
          name c ≠ "" ∧ path c ≠ "" ∧ description c ≠ ""
          ∧ (version c = "" ∨ is_semver (chars (version c)))
          ∧ tags c ≠ [])
       ∧ sve_path <$> svr_errors r
         `sublist_of` ["name"; "path"; "description"; "version"; "tags"]).
Proof.
  intros r. subst r.
  assert (Hempty : ∀ l : list SchemaValidationError,
            bool_decide (length l = 0) = true ↔ l = []).
  { intros l. rewrite bool_decide_eq_true. by destruct l. }
  assert (Hcategory : raw_category metadata ∈ validCategories →
                      raw_category metadata ≠ "").
  { intros Hin Heq. rewrite Heq in Hin. revert Hin.
    apply (bool_decide_unpack ("" ∉ validCategories)). by vm_compute. }
  split; [apply validateComponentMetadata_no_errors|].
  split; [|split; [|split; [|split]]].
  - unfold validateComponentMetadata. cbv zeta. cbn [svr_valid svr_errors].
    rewrite Hempty, !push_if_nil, !andb_false_iff, !negb_false_iff.
    rewrite !bool_decide_eq_false, !bool_decide_eq_true, test_anchored_semver.
    assert (length (raw_tags metadata) ≠ 0 ↔ raw_tags metadata ≠ [])
      as -> by by destruct (raw_tags metadata).
    tauto.
  - unfold validateComponentMetadata, push_if. cbv zeta. cbn [svr_errors].
    destruct (bool_decide (raw_category metadata = "")),
      (bool_decide (raw_category metadata ∈ validCategories)),
      (bool_decide (raw_name metadata = "")),
      (bool_decide (raw_path metadata = "")),
      (bool_decide (raw_description metadata = "")),
      (negb (bool_decide (raw_complexity metadata = ""))
       && negb (bool_decide (raw_complexity metadata ∈ validComplexities))),
      (negb (bool_decide (raw_wcagLevel metadata = ""))
       && negb (bool_decide (raw_wcagLevel metadata ∈ validWCAG))),
      (negb (bool_decide (raw_version metadata = ""))
       && negb (test_anchored semverRegex (chars (raw_version metadata)))),
      (bool_decide (length (raw_tags metadata) = 0)); cbn;
      repeat (first [apply sublist_nil_l | apply sublist_skip | apply sublist_cons]).
  - unfold validateComponentMetadata, push_if. cbv zeta. cbn [svr_errors].
    destruct (bool_decide (raw_category metadata = "")),
      (bool_decide (raw_category metadata ∈ validCategories)),
      (bool_decide (raw_name metadata = "")),
      (bool_decide (raw_path metadata = "")),
      (bool_decide (raw_description metadata = "")),
      (negb (bool_decide (raw_complexity metadata = ""))
       && negb (bool_decide (raw_complexity metadata ∈ validComplexities))),
      (negb (bool_decide (raw_wcagLevel metadata = ""))
       && negb (bool_decide (raw_wcagLevel metadata ∈ validWCAG))),
      (negb (bool_decide (raw_version metadata = ""))
       && negb (test_anchored semverRegex (chars (raw_version metadata)))),
      (bool_decide (length (raw_tags metadata) = 0)); cbn;
      apply (bool_decide_unpack _); by vm_compute.
  - intros Hcat. unfold validateComponentMetadata. cbv zeta. cbn [svr_errors].
    rewrite (bool_decide_eq_false_2 (raw_category metadata ∈ validCategories))
      by done.
    assert (Hpush : ∀ cond e (l : list SchemaValidationError),
              "category" ∈ sve_path <$> l →
              "category" ∈ sve_path <$> push_if cond e l).
    { intros [] e l Hl; cbn [push_if]; [|done].
      rewrite fmap_app. apply elem_of_app. by left. }
    assert (Hpushed : ∀ e (l : list SchemaValidationError),
              sve_path e = "category" →
              "category" ∈ sve_path <$> push_if true e l).
    { intros e l He. cbn [push_if]. rewrite fmap_app. apply elem_of_app.
      right. cbn. rewrite He. by left. }
    do 4 apply Hpush.
    destruct (bool_decide (raw_category metadata = "")); cbn [negb andb].
    + do 3 apply Hpush. by apply Hpushed.
    + by apply Hpushed.
  - intros c ->.
    destruct (raw_metadata_in_lists c) as ((Hc1 & Hc2) & (Hx1 & Hx2) & (Hw1 & Hw2)).
    unfold validateComponentMetadata. cbv zeta.
    cbn [svr_valid svr_errors raw_metadata raw_name raw_category raw_path
         raw_description raw_complexity raw_wcagLevel raw_version raw_tags].
    rewrite Hc1, Hc2, Hx1, Hx2, Hw1, Hw2. cbn [negb andb].
    split.
    + rewrite Hempty, !push_if_nil, !andb_false_iff, !negb_false_iff.
      rewrite !bool_decide_eq_false, !bool_decide_eq_true, test_anchored_semver.
      assert (length (tags c) ≠ 0 ↔ tags c ≠ []) as -> by by destruct (tags c).
      tauto.
    + unfold push_if.
      destruct (bool_decide (name c = "")),
        (bool_decide (path c = "")),
        (bool_decide (description c = "")),
        (negb (bool_decide (version c = ""))
         && negb (test_anchored semverRegex (chars (version c)))),
        (bool_decide (length (tags c) = 0)); cbn;
        repeat (first [apply sublist_nil_l | apply sublist_skip | apply sublist_cons]).
Qed.

(** ** [generateValidationReport] *)



(** ** The edit distance is a metric *)

Lemma edits_refl x : edits x x 0.
Proof. induction x; by constructor. Qed.

Lemma edits_zero x y : edits x y 0 → x = y.
Proof.
  intros H. remember 0 as n eqn:Hn. induction H; try done.
  f_equal. by apply IHedits.
Qed.

Lemma edits_length x y n :
  edits x y n → length x ≤ length y + n ∧ length y ≤ length x + n.
Proof. induction 1; cbn [length]; lia. Qed.

Lemma edits_max x : ∀ y, ∃ n, edits x y n ∧ n ≤ length x `max` length y.
Proof.
  induction x as [|c x IH]; intros y.
  - exists (length y). split; [apply edits_nil_l|cbn; lia].
  - destruct y as [|d y].
    + exists (length (c :: x)). split; [apply edits_nil_r|lia].
    + destruct (IH y) as (n & Hn & Hle). exists (S n).
      split; [by constructor|cbn [length]; lia].
Qed.

Lemma lev_cons_l c x y : lev (c :: x) y ≤ S (lev x y).
Proof. by apply (lev_lipschitz (length x + length y)). Qed.

Lemma lev_cons_r c x y : lev x (c :: y) ≤ S (lev x y).
Proof. by apply (lev_lipschitz (length x + length y)). Qed.

Lemma lev_cons_cons c d x y : lev (c :: x) (d :: y) ≤ S (lev x y).
Proof.
  rewrite lev_cons. case_bool_decide; lia.
Qed.

Lemma lev_cons_same c x y : lev (c :: x) (c :: y) = lev x y.
Proof. by rewrite lev_cons, bool_decide_eq_true_2. Qed.

Lemma lev_triangle x y n :
  edits x y n → ∀ z m, edits y z m → lev x z ≤ n + m.
Proof.
  induction 1 as [|c x y n Hxy IH|c d x y n Hxy IH|c x y n Hxy IH|d x y n Hxy IH];
    intros z m Hyz.
  - by apply lev_least.
  - remember (c :: y) as y' eqn:Hy'. revert Hy'.
    induction Hyz as [|c' y0 z m Hyz _|c' d' y0 z m Hyz _|c' y0 z m Hyz _
                      |d' y0 z m Hyz IHz]; intros Hy'; try done.
    + injection Hy' as -> ->. rewrite lev_cons_same. by apply IH.
    + injection Hy' as -> ->. pose proof (lev_cons_cons c d' x z).
      specialize (IH z m Hyz). lia.
    + injection Hy' as -> ->. pose proof (lev_cons_l c x z).
      specialize (IH z m Hyz). lia.
    + specialize (IHz Hy'). pose proof (lev_cons_r d' (c :: x) z). lia.
  - remember (d :: y) as y' eqn:Hy'. revert Hy'.
    induction Hyz as [|c' y0 z m Hyz _|c' d' y0 z m Hyz _|c' y0 z m Hyz _
                      |d' y0 z m Hyz IHz]; intros Hy'; try done.
    + injection Hy' as -> ->. pose proof (lev_cons_cons c d x z).
      specialize (IH z m Hyz). lia.
    + injection Hy' as -> ->. pose proof (lev_cons_cons c d' x z).
      specialize (IH z m Hyz). lia.
    + injection Hy' as -> ->. pose proof (lev_cons_l c x z).
      specialize (IH z m Hyz). lia.
    + specialize (IHz Hy'). pose proof (lev_cons_r d' (c :: x) z). lia.
  - pose proof (lev_cons_l c x z). specialize (IH z m Hyz). lia.
  - remember (d :: y) as y' eqn:Hy'. revert Hy'.
    induction Hyz as [|c' y0 z m Hyz _|c' d' y0 z m Hyz _|c' y0 z m Hyz _
                      |d' y0 z m Hyz IHz]; intros Hy'; try done.
    + injection Hy' as -> ->. pose proof (lev_cons_r d x z).
      specialize (IH z m Hyz). lia.
    + injection Hy' as -> ->. pose proof (lev_cons_r d' x z).
      specialize (IH z m Hyz). lia.
    + injection Hy' as -> ->. specialize (IH z m Hyz). lia.
    + specialize (IHz Hy'). pose proof (lev_cons_r d' x z). lia.
Qed.

Lemma levenshteinDistance_lev a b :
  levenshteinDistance a b = Some (lev (chars a) (chars b)).
Proof.
  destruct (levenshteinDistance_correct a b) as (d & -> & Hd).
  f_equal. eapply levenshtein_unique; [done|apply lev_levenshtein].
Qed.

(** X17 (levenshteinDistance): the distance is a metric on strings.  It
    is symmetric, it is 0 exactly for equal strings, and it obeys the
    triangle inequality; it lies between the difference of the two
    lengths and the greater of them. *)
Theorem levenshteinDistance_metric (a b c : string) :
  ∃ dab dba dbc dac,
    levenshteinDistance a b = Some dab
    ∧ levenshteinDistance b a = Some dba
    ∧ levenshteinDistance b c = Some dbc
    ∧ levenshteinDistance a c = Some dac
    ∧ dab = dba
    ∧ (dab = 0 ↔ a = b)
    ∧ dac ≤ dab + dbc
    ∧ length (chars a) - length (chars b) ≤ dab
    ∧ length (chars b) - length (chars a) ≤ dab
    ∧ dab ≤ length (chars a) `max` length (chars b).
Proof.
  exists (lev (chars a) (chars b)), (lev (chars b) (chars a)),
         (lev (chars b) (chars c)), (lev (chars a) (chars c)).
  rewrite !levenshteinDistance_lev.
  do 4 (split; [done|]).
  pose proof (lev_edits (chars a) (chars b)) as Hab.
  split; [|split; [|split; [|split; [|split]]]].
  - apply (levenshtein_unique (chars a) (chars b)); [apply lev_levenshtein|].
    apply levenshtein_sym, lev_levenshtein.
  - split.
    + intros H0. rewrite H0 in Hab. by apply chars_inj, edits_zero.
    + intros <-. pose proof (lev_least _ _ _ (edits_refl (chars a))). lia.
  - eapply lev_triangle; [exact Hab|apply lev_edits].
  - apply edits_length in Hab. lia.
  - apply edits_length in Hab. lia.
  - destruct (edits_max (chars a) (chars b)) as (n & Hn & Hle).
    apply lev_least in Hn. lia.
Qed.

(** ** Design tokens in context *)

Lemma search_finds r pre s index :
  (∀ index', ∃ m, match_here r s index' = Some m) →
  ∃ m, search r (pre ++ s) index = Some m.
Proof.
  intros Hs. revert index. induction pre as [|c pre IH]; intros index.
  - destruct (Hs index) as [m Hm]. exists m.
    cbn [app]. destruct s; cbn [search]; by rewrite Hm.
  - cbn [app search]. destruct (match_here r (c :: pre ++ s) index) as [m|].
    + by exists m.
    + apply IH.
Qed.

Lemma run_spec cls s :
  ∃ post, s = run cls s ++ post
          ∧ Forall (λ c, cls c = true) (run cls s)
          ∧ ∀ c post', post = c :: post' → cls c = false.
Proof.
  induction s as [|c s (post & Hs & Hall & Hpost)]; cbn [run].
  - exists []. by repeat split.
  - destruct (cls c) eqn:Hc.
    + exists post. split; [by rewrite <- app_comm_cons, <- Hs|].
      split; [by constructor|done].
    + exists (c :: s). repeat split; [constructor|]. by intros ? ? [= <- _].
Qed.

Lemma match_here_color_extends s index m rest index' :
  match_here colorRegex s index = Some m →
  ∃ m', match_here colorRegex (s ++ rest) index' = Some m'.
Proof.
  intros (s' & -> & Htok)%match_here_color_inv.
  destruct Htok as (p & w & d & Hp & Hw & Hw' & Hd & Hd' & ->).
  destruct (run_spec is_digit (s' ++ rest)) as (post & Hrest & Hdigits & Hpost).
  destruct (match_here_color_token
              (p ++ chars "-" ++ w ++ chars "-" ++ d ++ run is_digit (s' ++ rest))
              post index') as (m' & Hm' & _); [|done|].
  { exists p, w, (d ++ run is_digit (s' ++ rest)).
    repeat split; try done.
    - by destruct d.
    - by apply Forall_app. }
  exists m'. rewrite <- Hm'. f_equal.
  by rewrite <- !app_assoc, <- Hrest.
Qed.

Lemma match_here_arbitrary_extends s index m rest index' :
  match_here arbitraryRegex s index = Some m →
  ∃ m', match_here arbitraryRegex (s ++ rest) index' = Some m'.
Proof.
  intros (s' & -> & Htok)%match_here_arbitrary_inv.
  destruct (match_here_arbitrary_token (match_text m) (s' ++ rest) index' Htok)
    as (m' & Hm' & _).
  exists m'. by rewrite <- app_assoc.
Qed.

Section InContext.
Variable r : regex.
Hypothesis r_consuming : consuming r.
Hypothesis r_extends : ∀ s index m rest index',
  match_here r s index = Some m → ∃ m', match_here r (s ++ rest) index' = Some m'.

(** A match in a text is not lost when the text is put in a context. *)
Lemma matches_in_context pre s post :
  matches r s 0 0 ≠ [] → matches r (pre ++ s ++ post) 0 0 ≠ [].
Proof.
  intros Hs. destruct (matches r s 0 0) as [|m ms] eqn:Hms; [done|].
  assert (m ∈ matches r s 0 0) as Hm by (rewrite Hms; left).
  apply matches_elem in Hm as (u & s' & index & -> & Hm).
  destruct (search_finds r (pre ++ u) (s' ++ post) 0) as [m' Hm'].
  { intros index'. by eapply r_extends. }
  pose proof (search_matches r r_consuming (pre ++ u ++ s' ++ post) 0) as Hsearch.
  rewrite <- !app_assoc in Hm'. rewrite <- !app_assoc. rewrite Hm' in Hsearch.
  destruct Hsearch as (k & _ & _ & _ & ->). done.
Qed.

End InContext.

Lemma fold_color_body_length ms hardCoded warns :
  (∀ m, m ∈ ms → ∃ s index, match_here colorRegex s index = Some m) →
  length (foldl (λ st m, color_body m st) (hardCoded, warns) ms).2
  = length warns + length ms.
Proof.
  revert hardCoded warns. induction ms as [|m ms IH]; intros hardCoded warns Hms.
  - cbn. lia.
  - cbn [foldl]. destruct (Hms m) as (s & index & Hm); [by left|].
    destruct (color_body_pushes s index m hardCoded warns Hm) as [warning ->].
    rewrite IH by (intros m' Hm'; apply Hms; by right).
    rewrite length_app. cbn. lia.
Qed.

Lemma fold_arbitrary_body_length ms hardCoded warns :
  length (foldl (λ st m, arbitrary_body m st) (hardCoded, warns) ms).2
  = length warns + length ms.
Proof.
  revert hardCoded warns. induction ms as [|m ms IH]; intros hardCoded warns.
  - cbn. lia.
  - cbn [foldl arbitrary_body]. rewrite IH. rewrite length_app. cbn. lia.
Qed.

Lemma validateDesignTokens_warnings className :
  ∃ r, validateDesignTokens className = Some r
       ∧ length (warnings r)
         = length (matches colorRegex (chars className) 0 0)
           + length (matches arbitraryRegex (chars className) 0 0).
Proof.
  unfold validateDesignTokens. cbv zeta.
  rewrite exec_loop_matches by (apply colorRegex_consuming || lia).
  cbn [mbind option_bind]. rewrite drop_0.
  pose proof (fold_color_body_length (matches colorRegex (chars className) 0 0) [] [])
    as Hcolor.
  destruct (foldl (λ st m, color_body m st) ([], [])
              (matches colorRegex (chars className) 0 0)) as [hardCoded1 warns1].
  rewrite exec_loop_matches by (apply arbitraryRegex_consuming || lia).
  cbn [mbind option_bind]. rewrite drop_0.
  pose proof (fold_arbitrary_body_length
                (matches arbitraryRegex (chars className) 0 0) hardCoded1 warns1)
    as Harbitrary.
  destruct (foldl (λ st m, arbitrary_body m st) (hardCoded1, warns1)
              (matches arbitraryRegex (chars className) 0 0)) as [hardCoded2 warns2].
  eexists. split; [done|]. cbn [warnings]. cbn [snd] in *.
  rewrite Harbitrary, Hcolor; [cbn; lia|].
  intros m (pre & s & index & _ & Hm)%matches_elem. eauto.
Qed.

(** X18 (validateDesignTokens): hard-coded values cannot be hidden, and
    every one of them is reported.  The validator returns on every class
    string with one warning per collected value.  A class string that is
    invalid stays invalid when any text is put before it and after it. *)
Theorem validateDesignTokens_in_context (before className after : string) :
  ∃ r r',
    validateDesignTokens className = Some r
    ∧ validateDesignTokens (before +:+ className +:+ after) = Some r'
    ∧ length (warnings r) = length (hardCodedValues r)
    ∧ (valid r = true ↔ hardCodedValues r = [])
    ∧ (valid r = false → valid r' = false).
Proof.
  destruct (validateDesignTokens_matches className) as [warns Hr].
  destruct (validateDesignTokens_matches (before +:+ className +:+ after))
    as [warns' Hr'].
  destruct (validateDesignTokens_warnings className) as (r & Hr2 & Hlen).
  rewrite Hr in Hr2. injection Hr2 as <-.
  eexists _, _. split; [exact Hr|]. split; [exact Hr'|].
  cbn [valid hardCodedValues warnings] in *.
  split; [by rewrite length_app, !length_fmap|].
  split.
  { rewrite bool_decide_eq_true. by destruct (_ ++ _). }
  rewrite !bool_decide_eq_false, !length_app, !length_fmap.
  rewrite !chars_append. intros Hinvalid.
  assert (matches colorRegex (chars className) 0 0 ≠ []
          ∨ matches arbitraryRegex (chars className) 0 0 ≠ []) as [Hcolor|Harbitrary].
  { destruct (matches colorRegex (chars className) 0 0); [|by left].
    destruct (matches arbitraryRegex (chars className) 0 0); [done|by right]. }
  - apply (matches_in_context colorRegex colorRegex_consuming
             match_here_color_extends (chars before) _ (chars after)) in Hcolor.
    destruct (matches colorRegex (chars before ++ _) 0 0); [done|]. cbn [length]. lia.
  - apply (matches_in_context arbitraryRegex arbitraryRegex_consuming
             match_here_arbitrary_extends (chars before) _ (chars after))
      in Harbitrary.
    destruct (matches arbitraryRegex (chars before ++ _) 0 0); [done|]. cbn [length]. lia.
Qed.

(** ** Enumerating the name index *)

Lemma nameIndex_keys_snoc registry c :
  nameIndex_keys (registry ++ [c]) =
    if bool_decide (name_key c ∈ nameIndex_keys registry)
    then nameIndex_keys registry
    else nameIndex_keys registry ++ [name_key c].
Proof. unfold nameIndex_keys. by rewrite foldl_app. Qed.

Lemma elem_of_nameIndex_keys registry k :
  k ∈ nameIndex_keys registry ↔ ∃ c, c ∈ registry ∧ name_key c = k.
Proof.
  induction registry as [|c registry IH] using rev_ind.
  - split; [by intros ?%elem_of_nil|by intros (? & ?%elem_of_nil & _)].
  - rewrite nameIndex_keys_snoc.
    assert (Hsnoc : (∃ c', c' ∈ registry ++ [c] ∧ name_key c' = k)
                    ↔ (∃ c', c' ∈ registry ∧ name_key c' = k) ∨ name_key c = k).
    { split.
      - intros (c' & [Hc'|Hc']%elem_of_app & Hk); [left; by exists c'|].
        apply list_elem_of_singleton in Hc' as ->. by right.
      - intros [(c' & Hc' & Hk)|Hk].
        + exists c'. split; [apply elem_of_app; by left|done].
        + exists c. split; [apply elem_of_app; right; by left|done]. }
    rewrite Hsnoc, <- IH. case_bool_decide as Hin.
    + split; [by left|]. by intros [?| <-].
    + rewrite elem_of_app, list_elem_of_singleton. split; intros [?|?]; auto.
Qed.

Lemma nameIndex_keys_NoDup registry : NoDup (nameIndex_keys registry).
Proof.
  induction registry as [|c registry IH] using rev_ind; [constructor|].
  rewrite nameIndex_keys_snoc. case_bool_decide as Hin; [done|].
  apply NoDup_app. split; [done|]. split; [|apply NoDup_singleton].
  intros k Hk ->%list_elem_of_singleton. done.
Qed.

Lemma nameIndex_keys_length registry :
  length (nameIndex_keys registry) ≤ length registry.
Proof.
  induction registry as [|c registry IH] using rev_ind; [done|].
  rewrite nameIndex_keys_snoc, length_app. case_bool_decide.
  - cbn. lia.
  - rewrite length_app. cbn. lia.
Qed.

Lemma nameIndex_keys_unique registry :
  unique_names registry → nameIndex_keys registry = name_key <$> registry.
Proof.
  unfold unique_names. induction registry as [|c registry IH] using rev_ind;
    [done|].
  rewrite nameIndex_keys_snoc, map_app. intros [Hnodup [Hc _]]%NoDup_app.
  rewrite fmap_app, <- IH by done. rewrite bool_decide_eq_false_2; [done|].
  intros (c' & Hc' & Hk)%elem_of_nameIndex_keys.
  apply (Hc (name_key c)); [|left].
  rewrite <- Hk. apply list_elem_of_In, in_map. by apply list_elem_of_In.
Qed.

Lemma nameIndex_lookup registry k :
  nameIndex (ComponentRegistryIndex_new registry) !! k
  = last (List.filter (λ c, bool_decide (name_key c = k)) registry).
Proof.
  unfold ComponentRegistryIndex_new. rewrite nameIndex_buildIndices.
  rewrite foldl_insert_lookup. cbn [nameIndex]. rewrite lookup_empty.
  by destruct (last _).
Qed.

Lemma nameIndex_lookup_Some registry k c :
  nameIndex (ComponentRegistryIndex_new registry) !! k = Some c →
  c ∈ registry ∧ name_key c = k.
Proof.
  rewrite nameIndex_lookup. intros Hlast.
  apply last_Some in Hlast as [l Hl].
  assert (c ∈ List.filter (λ c, bool_decide (name_key c = k)) registry) as Hc.
  { rewrite Hl. apply elem_of_app. right. by left. }
  apply elem_of_List_filter in Hc as [Hc Hk]. split; [done|].
  by apply bool_decide_eq_true_1 in Hk.
Qed.

Lemma nameIndex_lookup_key registry c :
  c ∈ registry →
  ∃ c', nameIndex (ComponentRegistryIndex_new registry) !! name_key c = Some c'.
Proof.
  intros Hc. rewrite nameIndex_lookup.
  assert (c ∈ List.filter (λ c', bool_decide (name_key c' = name_key c)) registry)
    as Hin by (apply elem_of_List_filter; by rewrite bool_decide_eq_true_2).
  destruct (List.filter _ registry) as [|c0 l] using rev_ind;
    [by apply elem_of_nil in Hin|].
  rewrite last_snoc. by eexists.
Qed.

Lemma name_key_nameIndex_values registry :
  name_key <$> RegistryIndex.nameIndex_values registry = nameIndex_keys registry.
Proof.
  unfold RegistryIndex.nameIndex_values.
  assert (Hkeys : ∀ k, k ∈ nameIndex_keys registry →
            ∃ c, nameIndex (ComponentRegistryIndex_new registry) !! k = Some c
                 ∧ name_key c = k).
  { intros k (c & Hc & <-)%elem_of_nameIndex_keys.
    destruct (nameIndex_lookup_key registry c Hc) as [c' Hc'].
    exists c'. split; [done|]. by apply nameIndex_lookup_Some in Hc' as [_ ?]. }
  induction (nameIndex_keys registry) as [|k ks IH]; [done|].
  destruct (Hkeys k) as (c & Hc & Hk); [by left|].
  cbn [omap list_omap]. rewrite Hc. cbn [fmap list_fmap].
  rewrite Hk. f_equal. apply IH. intros k' Hk'. apply Hkeys. by right.
Qed.

Lemma elem_of_nameIndex_values registry c :
  c ∈ RegistryIndex.nameIndex_values registry ↔ last_named registry (name c) = Some c.
Proof.
  unfold RegistryIndex.nameIndex_values, last_named.
  rewrite list_elem_of_omap. fold (name_key c). rewrite <- nameIndex_lookup. split.
  - intros (k & Hk & Hc). by destruct (nameIndex_lookup_Some _ _ _ Hc) as [_ <-].
  - intros Hc. exists (name_key c). split; [|done].
    apply elem_of_nameIndex_keys. exists c. split; [|done].
    by apply nameIndex_lookup_Some in Hc as [? _].
Qed.

Lemma nameIndex_values_unique registry :
  unique_names registry → RegistryIndex.nameIndex_values registry = registry.
Proof.
  intros Hunique. unfold RegistryIndex.nameIndex_values.
  rewrite nameIndex_keys_unique by done.
  assert (Hlookup : ∀ c, c ∈ registry →
            nameIndex (ComponentRegistryIndex_new registry) !! name_key c = Some c).
  { intros c Hc. rewrite nameIndex_lookup.
    by apply (last_named_unique registry c (name c)). }
  revert Hlookup. generalize (nameIndex (ComponentRegistryIndex_new registry)).
  intros m. induction registry as [|c registry IH]; intros Hlookup; [done|].
  cbn [fmap list_fmap omap list_omap]. rewrite Hlookup by left.
  f_equal. apply IH.
  - unfold unique_names in *. cbn in Hunique. by apply NoDup_cons in Hunique as [_ ?].
  - intros c' Hc'. apply Hlookup. by right.
Qed.

(** X19 (ComponentRegistryIndex.getAll, findByName): the index lists one
    record for each name.  [getAll] returns the records that [findByName]
    can find: for each name, compared without case, the last record of
    the registry with that name, so that no two of the listed records
    share a name and every name of the registry is listed.  [getAll]
    returns the registry itself exactly when the names of the registry
    are unique. *)
Theorem RegistryIndex_getAll_one_record_per_name (registry : list ComponentMetadata) :
  let all := RegistryIndex.getAll registry in
  let idx := ComponentRegistryIndex_new registry in
  NoDup (name_key <$> all)
  ∧ (∀ c, c ∈ all ↔ findByName idx (name c) = Some c)
  ∧ (∀ c, c ∈ all → c ∈ registry)
  ∧ (∀ c, c ∈ registry → ∃ c', c' ∈ all ∧ name_key c' = name_key c)
  ∧ length all ≤ length registry
  ∧ (all = registry ↔ unique_names registry).
Proof.
  cbv zeta. unfold RegistryIndex.getAll.
  pose proof (name_key_nameIndex_values registry) as Hkeys.
  split; [|split; [|split; [|split; [|split]]]].
  - rewrite Hkeys. apply nameIndex_keys_NoDup.
  - intros c. by rewrite elem_of_nameIndex_values, findByName_last_named.
  - intros c Hc%elem_of_nameIndex_values. unfold last_named in Hc.
    fold (name_key c) in Hc. rewrite <- nameIndex_lookup in Hc.
    by apply nameIndex_lookup_Some in Hc as [? _].
  - intros c Hc.
    assert (name_key c ∈ name_key <$> RegistryIndex.nameIndex_values registry) as Hin.
    { rewrite Hkeys. apply elem_of_nameIndex_keys. by exists c. }
    apply list_elem_of_fmap in Hin as (c' & Hk & Hc'). by exists c'.
  - rewrite <- (length_fmap name_key), Hkeys. apply nameIndex_keys_length.
  - split.
    + intros Hall. unfold unique_names.
      change (map name_key registry) with (name_key <$> registry).
      rewrite <- Hall at 1. rewrite Hkeys. apply nameIndex_keys_NoDup.
    + apply nameIndex_values_unique.
Qed.

(** X20 (ComponentRegistryIndex.search, findByComplexity,
    AgentAPI.searchComponents): the two searches.  Whatever the search of
    the index finds, [AgentAPI.searchComponents] finds too, and for an
    empty keyword the index returns all it lists.  When the names of the
    registry are unique, the search and the complexity lookup of the
    index return what [AgentAPI] returns for the same keyword and for a
    filter on that complexity. *)
Theorem RegistryIndex_search_agrees
    (registry : list ComponentMetadata) (keyword : string) :
  let api := AgentAPI_new registry in
  (∀ c, c ∈ RegistryIndex.search registry keyword → c ∈ searchComponents api keyword)
  ∧ RegistryIndex.search registry "" = RegistryIndex.getAll registry
  ∧ (unique_names registry →
     RegistryIndex.search registry keyword = searchComponents api keyword
     ∧ ∀ cx,
         RegistryIndex.findByComplexity registry cx
         = discoverComponents api
             (Some {| filter_category := None; filter_tags := None;
                      filter_complexity := Some cx;
                      filter_migrationStatus := None;
                      filter_hasSchema := None; filter_hasDocumentation := None;
                      filter_hasTesting := None |})).
Proof.
  cbv zeta. unfold RegistryIndex.search, RegistryIndex.findByComplexity,
    RegistryIndex.getAll, searchComponents. cbn [components AgentAPI_new].
  split; [|split].
  - intros c. fold (search_match (toLowerCase keyword)).
    rewrite !elem_of_List_filter. intros [Hc Hmatch]. split; [|done].
    apply elem_of_nameIndex_values in Hc. unfold last_named in Hc.
    fold (name_key c) in Hc. rewrite <- nameIndex_lookup in Hc.
    by apply nameIndex_lookup_Some in Hc as [? _].
  - pose proof (searchComponents_empty_query
                  (AgentAPI_new (RegistryIndex.nameIndex_values registry))) as H.
    unfold searchComponents in H. cbn [components AgentAPI_new] in H. exact H.
  - intros Hunique. rewrite nameIndex_values_unique by done. split; [done|].
    intros cx. rewrite discoverComponents_filter. cbn [components AgentAPI_new].
    apply List_filter_ext. intros c.
    unfold others_hold, tags_hold, holds. cbn. by rewrite !andb_true_r.
Qed.

(** ** The statistics of the index *)

Section PushAtKeys.
Context `{Countable K}.

Lemma push_at_is_Some (m : gmap K (list ComponentMetadata)) k c k' :
  is_Some (push_at k c m !! k') ↔ k = k' ∨ is_Some (m !! k').
Proof.
  unfold push_at. destruct (decide (k = k')) as [<-|Hne].
  - split; [by left|]. intros _. rewrite lookup_alter_eq.
    case_bool_decide as Hk.
    + destruct Hk as [l ->]. by eexists.
    + rewrite lookup_insert_eq. by eexists.
  - rewrite lookup_alter_ne by done. case_bool_decide.
    + split; [by right|]. by intros [?|?].
    + rewrite lookup_insert_ne by done. split; [by right|]. by intros [?|?].
Qed.

End PushAtKeys.

Lemma categoryIndex_is_Some idx registry cat :
  is_Some (categoryIndex (buildIndices idx registry) !! cat)
  ↔ is_Some (categoryIndex idx !! cat) ∨ ∃ c, c ∈ registry ∧ category c = cat.
Proof.
  revert idx. induction registry as [|c registry IH]; intros idx.
  - cbn. split; [by left|]. by intros [?|(? & ?%elem_of_nil & _)].
  - cbn [buildIndices foldl]. fold (buildIndices (index_component idx c) registry).
    rewrite IH. cbn [index_component categoryIndex]. rewrite push_at_is_Some.
    split.
    + intros [[Hc|?]|(c' & Hc' & Hcat)]; [right|by left|right].
      * exists c. split; [by left|done].
      * exists c'. split; [by right|done].
    + intros [?|(c' & [->|Hc']%elem_of_cons & Hcat)]; [left; by right| |].
      * left. by left.
      * right. by exists c'.
Qed.

(** X21 (ComponentRegistryIndex.getStats, getCountByCategory): what the
    statistics of the index count.  [total] is the number of distinct
    names, compared without case, while [byCategory] counts every record
    of the registry: it has an entry for the categories that occur, and
    the entries add up to the length of the registry.  So [total] never
    exceeds that sum, and equals it when the names are unique.  The
    complexity counters and the three WCAG counters each add up to
    [total]. *)
Theorem RegistryIndex_getStats_counts (registry : list ComponentMetadata) :
  let s := RegistryIndex.getStats registry in
  let count cat := default 0 (RegistryIndex.idx_byCategory s !! cat) in
  RegistryIndex.idx_total s = length (RegistryIndex.getAll registry)
  ∧ (∀ cat, is_Some (RegistryIndex.idx_byCategory s !! cat)
            ↔ ∃ c, c ∈ registry ∧ category c = cat)
  ∧ (∀ cat, count cat
            = length (List.filter (λ c, bool_decide (category c = cat)) registry))
  ∧ count CatAtom + count CatMolecule + count CatOrganism + count CatTemplate
    + count CatPattern = length registry
  ∧ RegistryIndex.idx_total s ≤ length registry
  ∧ (unique_names registry → RegistryIndex.idx_total s = length registry)
  ∧ RegistryIndex.idx_byComplexity s CxSimple
    + RegistryIndex.idx_byComplexity s CxModerate
    + RegistryIndex.idx_byComplexity s CxComplex = RegistryIndex.idx_total s
  ∧ RegistryIndex.idx_wcagCompliance s WcagA
    + RegistryIndex.idx_wcagCompliance s WcagAA
    + RegistryIndex.idx_wcagCompliance s WcagAAA = RegistryIndex.idx_total s.
Proof.
  cbv zeta. unfold RegistryIndex.getStats, RegistryIndex.getCountByCategory,
    RegistryIndex.findByComplexity, RegistryIndex.getAll.
  cbn [RegistryIndex.idx_total RegistryIndex.idx_byCategory
       RegistryIndex.idx_byComplexity RegistryIndex.idx_wcagCompliance].
  assert (Hcount : ∀ cat,
            default 0 ((length <$> categoryIndex (ComponentRegistryIndex_new registry))
                       !! cat)
            = length (List.filter (λ c, bool_decide (category c = cat)) registry)).
  { intros cat. rewrite <- findByCategory_filter. unfold findByCategory.
    rewrite lookup_fmap. by destruct (_ !! cat). }
  split; [done|]. split; [|split; [done|split; [|split; [|split; [|split]]]]].
  - intros cat. rewrite lookup_fmap, fmap_is_Some.
    unfold ComponentRegistryIndex_new. rewrite categoryIndex_is_Some.
    cbn [categoryIndex]. rewrite lookup_empty. split; [|by right].
    by intros [[? ?]|?].
  - rewrite !Hcount. apply length_by_category.
  - rewrite <- (length_fmap name_key), name_key_nameIndex_values.
    apply nameIndex_keys_length.
  - intros Hunique. by rewrite nameIndex_values_unique.
  - apply length_by_complexity.
  - generalize (RegistryIndex.nameIndex_values registry). intros l.
    induction l as [|c l IH]; [done|].
    cbn [List.filter]. destruct (wcagLevel c); repeat case_bool_decide; try done;
      cbn [length]; lia.
Qed.

(** ** Usage examples *)





(** ** Children in a usage example *)

Lemma expand_replacement_plain replacement matched before after :
  "$"%char ∉ replacement →
  expand_replacement replacement matched before after = replacement.
Proof.
  induction replacement as [|c rest IH]; [done|].
  intros [Hc Hrest]%not_elem_of_cons. cbn [expand_replacement].
  rewrite bool_decide_eq_false_2 by done. by rewrite IH.
Qed.

Lemma find_first_skip p pat s l :
  p ∉ s →
  find_first (p :: pat) (s ++ l)
  = (λ '(before, after), (s ++ before, after)) <$> find_first (p :: pat) l.
Proof.
  induction s as [|c s IH]; intros Hs.
  - cbn [app]. by destruct (find_first (p :: pat) l) as [[? ?]|].
  - apply not_elem_of_cons in Hs as [Hc Hs].
    cbn [app find_first startsWith_chars].
    rewrite (bool_decide_eq_false_2 (p = c)) by done. cbn [andb].
    rewrite IH by done. by destruct (find_first (p :: pat) l) as [[? ?]|].
Qed.

Lemma find_first_here pat l : find_first pat (pat ++ l) = Some ([], l).
Proof.
  destruct (pat ++ l) as [|c l'] eqn:Hl; cbn [find_first];
    rewrite <- Hl, startsWith_chars_app, drop_app_length; done.
Qed.

(** The first [/>] of a text that ends with [/>] and has no other. *)
Lemma find_first_self_closing prefix :
  includes_chars prefix (chars "/>") = false →
  find_first (chars "/>") (prefix ++ chars "/>") = Some (prefix, []).
Proof.
  induction prefix as [|c prefix IH]; [by intros _|].
  cbn [includes_chars]. intros [Hstart Hrest]%orb_false_iff.
  cbn [app find_first].
  assert (startsWith_chars (chars "/>") (c :: prefix ++ chars "/>") = false) as ->.
  { destruct prefix as [|d prefix].
    - cbn. by rewrite andb_false_r.
    - exact Hstart. }
  by rewrite IH.
Qed.

(** X23 (the handler [generateUsage] of [generation.ts]): children turn
    the self-closing element into an element with content.  When the
    usage example [<prefix>/>] of the component holds no other [/>], and
    neither the children nor the name of the component hold a dollar
    sign, the tool answers, for children that are not empty, with
    [<prefix>>children</Name>], and its [complete] field is the import
    statement, an empty line and that element. *)
Theorem tool_generateUsage_children
    (JSON_stringify : JSValue → string) (api : AgentAPI) (input_name : string)
    (input_props : option (JSObj JSValue)) (children : string)
    (component : ComponentMetadata) (prefix : string) :
  getComponent api input_name = Some component →
  generateUsage JSON_stringify api input_name (default [] input_props)
  = Returns (prefix +:+ "/>") →
  includes prefix "/>" = false →
  children ≠ "" →
  "$"%char ∉ chars children →
  "$"%char ∉ chars (name component) →
  ∃ importStatement,
    generateImport api input_name = Returns importStatement
    ∧ tool_generateUsage JSON_stringify api input_name input_props (Some children)
      = Returns (inr
          {| generated_usage :=
               prefix +:+ ">" +:+ children +:+ "</" +:+ name component +:+ ">";
             generated_usage_import := importStatement;
             generated_complete :=
               importStatement +:+ blank_line
               +:+ (prefix +:+ ">" +:+ children +:+ "</" +:+ name component +:+ ">") |}).
Proof.
  intros Hget Husage Hprefix Hchildren Hdollar Hdollar'.
  unfold tool_generateUsage. rewrite Hget, Husage.
  unfold generateImport. rewrite Hget. eexists. split; [done|].
  assert (truthy (Some children) = true) as ->.
  { cbn. by rewrite bool_decide_eq_false_2. }
  assert (includes (prefix +:+ "/>") "/>" = true) as ->.
  { apply includes_spec. exists (chars prefix), []. by rewrite chars_append, app_nil_r. }
  assert (replace_first (prefix +:+ "/>") "/>"
            (">" +:+ children +:+ "</" +:+ name component +:+ ">")
          = prefix +:+ ">" +:+ children +:+ "</" +:+ name component +:+ ">") as ->;
    [|done].
  unfold replace_first. rewrite chars_append.
  rewrite find_first_self_closing by exact Hprefix.
  rewrite expand_replacement_plain.
  - apply chars_inj. by rewrite chars_str, app_nil_r, !chars_append.
  - rewrite !chars_append, !elem_of_app. cbn.
    rewrite !elem_of_cons, !elem_of_nil. intros [?|[?|[?|[?|?]]]]; try done.
    + by destruct H as [?|?].
    + by destruct H as [?|[?|?]].
    + by destruct H as [?|?].
Qed.

Lemma tool_generateUsage_children_witness :
  getComponent (AgentAPI_new componentRegistry) "button" = Some Button
  ∧ generateUsage (λ _, "null") (AgentAPI_new componentRegistry) "button"
      (default [] None)
    = Returns ("<Button " +:+ "/>")
  ∧ includes "<Button " "/>" = false
  ∧ "Save" ≠ ""
  ∧ ("$"%char ∉ chars "Save")
  ∧ ("$"%char ∉ chars (name Button))
  ∧ ∃ importStatement,
      tool_generateUsage (λ _, "null") (AgentAPI_new componentRegistry) "button"
        None (Some "Save")
      = Returns (inr
          {| generated_usage := "<Button >Save</Button>";
             generated_usage_import := importStatement;
             generated_complete :=
               importStatement +:+ blank_line +:+ "<Button >Save</Button>" |}).
Proof.
  assert (H1 : getComponent (AgentAPI_new componentRegistry) "button" = Some Button)
    by by vm_compute.
  assert (H2 : generateUsage (λ _, "null") (AgentAPI_new componentRegistry) "button"
                 (default [] None)
               = Returns ("<Button " +:+ "/>")) by by vm_compute.
  assert (H3 : includes "<Button " "/>" = false) by by vm_compute.
  assert (H4 : "Save" ≠ "") by done.
  assert (H5 : "$"%char ∉ chars "Save").
  { apply (bool_decide_unpack _). by vm_compute. }
  assert (H6 : "$"%char ∉ chars (name Button)).
  { apply (bool_decide_unpack _). by vm_compute. }
  do 6 (split; [assumption|]).
  destruct (tool_generateUsage_children (λ _, "null")
              (AgentAPI_new componentRegistry) "button" None "Save" Button
              "<Button " H1 H2 H3 H4 H5 H6) as (importStatement & _ & Htool).
  exists importStatement. exact Htool.
Defined.

(** ** Import paths and the validator of [AgentAPI] *)

(** X24 (AgentAPI.validateImportPath, generateImport): the import path
    that [generateImport] writes for a component is accepted by
    [validateImportPath], for a component stored at
    [src/components/<dir>.tsx] or [src/components/<dir>.ts] where [<dir>]
    holds no dot and contains the lowercased name of the component. *)
Theorem validateImportPath_accepts_generated
    (api : AgentAPI) (componentName : string) (component : ComponentMetadata)
    (dir ext : string) :
  getComponent api componentName = Some component →
  path component = "src/" +:+ ("components/" +:+ dir) +:+ ext →
  ext ∈ [".tsx"; ".ts"] →
  "."%char ∉ chars dir →
  is_substring (toLowerCase (name component)) dir →
  generateImport api componentName
  = Returns ("import { " +:+ name component +:+ " } from '"
             +:+ ("@/" +:+ ("components/" +:+ dir)) +:+ "'")
  ∧ validateImportPath api componentName ("@/" +:+ ("components/" +:+ dir))
    = {| vr_valid := true; vr_errors := [] |}.
Proof.
  intros Hget Hpath Hext Hdir Hname.
  assert (Hdot : "."%char ∉ chars ("components/" +:+ dir)).
  { rewrite chars_append, elem_of_app. intros [H|H]; [|done].
    cbn in H. rewrite !elem_of_cons, elem_of_nil in H.
    repeat (destruct H as [H|H]; [done|]). done. }
  split.
  - unfold generateImport. rewrite Hget, Hpath.
    by rewrite replace_canonical_path.
  - unfold validateImportPath. rewrite Hget.
    assert (replace (replace (replace ("@/" +:+ "components/" +:+ dir)
                                "@/components/" "@/") ".tsx" "") ".ts" ""
            = "@/" +:+ dir) as ->.
    { unfold replace. apply chars_inj. rewrite !chars_str, !chars_append.
      change (chars "@/" ++ chars "components/" ++ chars dir)
        with (chars "@/components/" ++ chars dir).
      rewrite replace_chars_here.
      change (chars ".tsx") with ("."%char :: chars "tsx").
      change (chars ".ts") with ("."%char :: chars "ts").
      assert (Hdot' : "."%char ∉ chars "@/" ++ chars dir).
      { rewrite elem_of_app. intros [H|H]; [|done].
        cbn in H. rewrite !elem_of_cons, elem_of_nil in H.
        by destruct H as [?|[?|?]]. }
      rewrite (replace_chars_absent "."%char (chars "tsx")) by exact Hdot'.
      by rewrite (replace_chars_absent "."%char (chars "ts")) by exact Hdot'. }
    assert (includes ("@/" +:+ dir) (toLowerCase (name component)) = true) as ->;
      [|done].
    destruct Hname as (pre & post & Hdir').
    apply includes_spec. exists (chars "@/" ++ pre), post.
    rewrite chars_append, Hdir'. by rewrite <- !app_assoc.
Qed.

Lemma validateImportPath_accepts_generated_witness :
  getComponent (AgentAPI_new componentRegistry) "button" = Some Button
  ∧ path Button = "src/" +:+ ("components/" +:+ "atoms/button/Button") +:+ ".tsx"
  ∧ ".tsx" ∈ [".tsx"; ".ts"]
  ∧ ("."%char ∉ chars "atoms/button/Button")
  ∧ is_substring (toLowerCase (name Button)) "atoms/button/Button"
  ∧ validateImportPath (AgentAPI_new componentRegistry) "button"
      "@/components/atoms/button/Button"
    = {| vr_valid := true; vr_errors := [] |}.
Proof.
  assert (H1 : getComponent (AgentAPI_new componentRegistry) "button" = Some Button)
    by by vm_compute.
  assert (H2 : path Button
               = "src/" +:+ ("components/" +:+ "atoms/button/Button") +:+ ".tsx")
    by reflexivity.
  assert (H3 : ".tsx" ∈ [".tsx"; ".ts"]) by left.
  assert (H4 : "."%char ∉ chars "atoms/button/Button").
  { apply (bool_decide_unpack _). by vm_compute. }
  assert (H5 : is_substring (toLowerCase (name Button)) "atoms/button/Button")
    by (by exists (chars "atoms/"), (chars "/Button")).
  do 5 (split; [assumption|]).
  exact (proj2 (validateImportPath_accepts_generated
                  (AgentAPI_new componentRegistry) "button" Button
                  "atoms/button/Button" ".tsx" H1 H2 H3 H4 H5)).
Defined.

(** ** Suggestions for an empty name *)

(** X25 (getSuggestions, the handler [getComponent] of [discovery.ts]):
    the empty name matches every component.  For the empty name the
    suggestions are the names of the first five components of the
    catalog, and the same holds for every name that occurs, without
    regard to case, in the names of all components. *)
Theorem getSuggestions_of_common_part (api : AgentAPI) (n : string) :
  (∀ c, c ∈ components api →
        is_substring (toLowerCase n) (toLowerCase (name c))) →
  getSuggestions api n = name <$> take 5 (components api).
Proof.
  intros Hall. unfold getSuggestions, getAllComponents.
  change (map name ?l) with (name <$> l). f_equal. f_equal.
  induction (components api) as [|c l IH]; [done|].
  cbn [List.filter]. unfold suggestion_match at 1.
  assert (includes (toLowerCase (name c)) (toLowerCase n) = true) as ->.
  { apply includes_spec, Hall. by left. }
  cbn [orb]. f_equal. apply IH. intros c' Hc'. apply Hall. by right.
Qed.

Lemma getSuggestions_of_common_part_witness :
  (∀ c, c ∈ components (AgentAPI_new [Button; unmigrated "Card" None]) →
        is_substring (toLowerCase "") (toLowerCase (name c)))
  ∧ getSuggestions (AgentAPI_new [Button; unmigrated "Card" None]) ""
    = ["Button"; "Card"].
Proof.
  assert (H : ∀ c, c ∈ components (AgentAPI_new [Button; unmigrated "Card" None]) →
                   is_substring (toLowerCase "") (toLowerCase (name c))).
  { intros c _. by exists [], (chars (toLowerCase (name c))). }
  split; [exact H|].
  exact (getSuggestions_of_common_part
           (AgentAPI_new [Button; unmigrated "Card" None]) "" H).
Defined.

(** ** What [validatePropsAgainstSchema] detects *)

Lemma check_prop_keeps schemaPropDefinitions acc entry e :
  e ∈ acc.1 → e ∈ (check_prop schemaPropDefinitions acc entry).1.
Proof.
  destruct acc as [errors warnings], entry as [propName propValue].
  cbn [fst]. intros He. unfold check_prop.
  assert (Hpush : ∀ cond e' (l : list PropValidationError),
            e ∈ l → e ∈ push_if cond e' l).
  { intros [] e' l Hl; cbn; [apply elem_of_app; by left|done]. }
  destruct (member schemaPropDefinitions propName) as [propDef| |] eqn:Hmember;
    cbn [fst]; try done.
  do 3 apply Hpush. case_bool_decide; [|done].
  destruct (def_values _); [by apply Hpush|done].
Qed.

Lemma foldl_check_prop_keeps schemaPropDefinitions props acc e :
  e ∈ acc.1 → e ∈ (foldl (check_prop schemaPropDefinitions) acc props).1.
Proof.
  revert acc. induction props as [|entry props IH]; intros acc He; [done|].
  cbn [foldl]. by apply IH, check_prop_keeps.
Qed.

Lemma foldl_check_required_keeps props defs errors e :
  e ∈ errors → e ∈ foldl (check_required props) errors defs.
Proof.
  revert errors. induction defs as [|[propName propDef] defs IH];
    intros errors He; [done|].
  cbn [foldl]. apply IH. unfold check_required, push_if.
  destruct (_ && _); [apply elem_of_app; by left|done].
Qed.

Lemma foldl_check_required_reports props defs errors propName propDef :
  (propName, propDef) ∈ defs →
  prop_required propDef = true → has_property props propName = false →
  {| pve_prop := propName; pve_value := JSUndefined;
     pve_error := "Required prop " +:+ quoted propName +:+ " is missing";
     pve_expected := None |} ∈ foldl (check_required props) errors defs.
Proof.
  intros Hin Hrequired Hmissing. revert errors.
  induction defs as [|entry defs IH]; intros errors;
    [by apply elem_of_nil in Hin|].
  cbn [foldl]. apply elem_of_cons in Hin as [<-|Hin]; [|by apply IH].
  apply foldl_check_required_keeps. unfold check_required, push_if.
  rewrite Hrequired, Hmissing. cbn. apply elem_of_app. right. by left.
Qed.

Lemma foldl_check_prop_reports schemaPropDefinitions props acc entry e :
  entry ∈ props →
  (∀ acc', e ∈ (check_prop schemaPropDefinitions acc' entry).1) →
  e ∈ (foldl (check_prop schemaPropDefinitions) acc props).1.
Proof.
  intros Hin He. revert acc.
  induction props as [|entry' props IH]; intros acc;
    [by apply elem_of_nil in Hin|].
  cbn [foldl]. apply elem_of_cons in Hin as [<-|Hin]; [|by apply IH].
  apply foldl_check_prop_keeps, He.
Qed.

(** X26 (validatePropsAgainstSchema): what the validator detects.  With a
    schema that has a [props] section, the result is invalid and names
    the property whenever a required property is missing from the props
    and is not the name of a member of [Object.prototype], and whenever a
    supplied property is declared with type [boolean], [number] or
    [string] and its value is of another type. *)
Theorem validatePropsAgainstSchema_detects
    (schema : Schema) (schemaPropDefinitions : JSObj PropDefinition)
    (props : JSObj JSValue) :
  schema_props schema = Some schemaPropDefinitions →
  let r := validatePropsAgainstSchema (Some schema) props in
  (∀ propName propDef,
     (propName, propDef) ∈ schemaPropDefinitions →
     prop_required propDef = true →
     propName ∉ map fst props → propName ∉ Object_prototype_keys →
     pvr_valid r = false
     ∧ {| pve_prop := propName; pve_value := JSUndefined;
          pve_error := "Required prop " +:+ quoted propName +:+ " is missing";
          pve_expected := None |} ∈ pvr_errors r)
  ∧ (∀ propName propValue propDef t,
       (propName, propValue) ∈ props →
       own_property schemaPropDefinitions propName = Some propDef →
       t ∈ ["boolean"; "number"; "string"] →
       prop_type propDef = Some t →
       typeof propValue ≠ t →
       pvr_valid r = false
       ∧ ∃ e, e ∈ pvr_errors r
              ∧ pve_prop e = propName ∧ pve_value e = propValue
              ∧ pve_error e = "Prop " +:+ quoted propName +:+ " must be a " +:+ t).
Proof.
  intros Hschema r. subst r. unfold validatePropsAgainstSchema.
  cbn [mbind option_bind]. rewrite Hschema.
  destruct (foldl (check_prop schemaPropDefinitions) ([], []) props)
    as [errors warnings] eqn:Hfold.
  cbn [pvr_valid pvr_errors].
  assert (Hinvalid : ∀ e (l : list PropValidationError),
            e ∈ l → bool_decide (length l = 0) = false).
  { intros e l He. apply bool_decide_eq_false_2.
    destruct l; [by apply elem_of_nil in He|done]. }
  split.
  - intros propName propDef Hin Hrequired Hprops Hproto.
    assert (has_property props propName = false) as Hmissing.
    { unfold has_property. by rewrite (proj2 (member_missing props propName)). }
    pose proof (foldl_check_required_reports props schemaPropDefinitions errors
                  propName propDef Hin Hrequired Hmissing) as He.
    split; [by eapply Hinvalid|done].
  - intros propName propValue propDef t Hin Hown Ht Htype Htypeof.
    assert (∃ e, e ∈ errors ∧ pve_prop e = propName ∧ pve_value e = propValue
                 ∧ pve_error e = "Prop " +:+ quoted propName +:+ " must be a " +:+ t)
      as (e & He & Hfields).
    { exists {| pve_prop := propName; pve_value := propValue;
                pve_error := "Prop " +:+ quoted propName +:+ " must be a " +:+ t;
                pve_expected :=
                  if bool_decide (t = "boolean") then Some ["true"; "false"]
                  else None |}.
      split; [|done].
      change errors with (errors, warnings).1. rewrite <- Hfold.
      apply (foldl_check_prop_reports _ _ _ (propName, propValue)); [done|].
      intros [errors' warnings']. unfold check_prop, member. rewrite Hown.
      cbn [def_type fst]. rewrite Htype.
      assert (Hpush : ∀ cond e e' (l : list PropValidationError),
                e ∈ l → e ∈ push_if cond e' l).
      { intros [] ? e' l Hl; cbn; [apply elem_of_app; by left|done]. }
      assert (Hpushed : ∀ e (l : list PropValidationError), e ∈ push_if true e l).
      { intros. cbn. apply elem_of_app. right. by left. }
      repeat (apply elem_of_cons in Ht as [->|Ht]);
        [| | |by apply elem_of_nil in Ht].
      + do 2 apply Hpush.
        rewrite (bool_decide_eq_true_2 (Some "boolean" = Some "boolean")) by done.
        rewrite (bool_decide_eq_true_2 (typeof propValue ≠ "boolean")) by done.
        rewrite (bool_decide_eq_true_2 ("boolean" = "boolean")) by done.
        apply Hpushed.
      + apply Hpush.
        rewrite (bool_decide_eq_true_2 (Some "number" = Some "number")) by done.
        rewrite (bool_decide_eq_true_2 (typeof propValue ≠ "number")) by done.
        rewrite (bool_decide_eq_false_2 ("number" = "boolean")) by done.
        apply Hpushed.
      + rewrite (bool_decide_eq_true_2 (Some "string" = Some "string")) by done.
        rewrite (bool_decide_eq_true_2 (typeof propValue ≠ "string")) by done.
        rewrite (bool_decide_eq_false_2 ("string" = "boolean")) by done.
        apply Hpushed. }
    split; [|exists e; split; [by apply foldl_check_required_keeps|done]].
    eapply Hinvalid. by apply foldl_check_required_keeps.
Qed.

Lemma validatePropsAgainstSchema_detects_witness :
  schema_props sampleSchema
  = Some [("variant",
           {| prop_type := Some "enum";
              prop_values := Some ["default"; "destructive"];
              prop_required := false |});
          ("disabled",
           {| prop_type := Some "boolean"; prop_values := None;
              prop_required := false |})]
  ∧ pvr_valid (validatePropsAgainstSchema (Some sampleSchema)
                 [("disabled", JSString "yes")]) = false.
Proof.
  split; [reflexivity|].
  refine (proj1 (proj2 (validatePropsAgainstSchema_detects sampleSchema _
                          [("disabled", JSString "yes")] eq_refl)
                   "disabled" (JSString "yes")
                   {| prop_type := Some "boolean"; prop_values := None;
                      prop_required := false |} "boolean" _ _ _ _ _)).
  - left.
  - reflexivity.
  - left.
  - reflexivity.
  - done.
Defined.

(** ** Loading a schema *)

Lemma startsWith_chars_before q l (p : ascii) t :
  p ∉ q → startsWith_chars q (l ++ p :: t) = true → startsWith_chars q l = true.
Proof.
  revert l. induction q as [|a q IH]; intros l Hq; [done|].
  apply not_elem_of_cons in Hq as [Hp Hq].
  destruct l as [|b l]; cbn [app startsWith_chars].
  - by rewrite (bool_decide_eq_false_2 (a = p)) by (by intros ->).
  - intros [Hab Hrest]%andb_true_iff. rewrite Hab. by apply IH.
Qed.

(** Replacing a pattern at the end of a text that holds no other
    occurrence of it, for a pattern whose first character occurs in it
    only once. *)
Lemma replace_chars_at_end p pat rep l :
  p ∉ pat → includes_chars l (p :: pat) = false →
  replace_chars (p :: pat) rep (l ++ p :: pat) = l ++ rep.
Proof.
  intros Hp. induction l as [|c l IH].
  - intros _. pose proof (replace_chars_here (p :: pat) rep []) as H.
    by rewrite !app_nil_r in H.
  - cbn [includes_chars]. intros [Hstart Hrest]%orb_false_iff.
    cbn [app replace_chars].
    assert (startsWith_chars (p :: pat) (c :: l ++ p :: pat) = false) as ->.
    { apply not_true_iff_false. intros Htrue. apply not_true_iff_false in Hstart.
      apply Hstart. cbn [startsWith_chars] in Htrue |- *.
      apply andb_true_iff in Htrue as [Hpc Hpat]. rewrite Hpc.
      by apply (startsWith_chars_before pat l p pat). }
    by rewrite IH.
Qed.

(** X27 (AgentAPI.loadSchema and the handler [loadSchema] of
    [generation.ts]): which module a schema is loaded from.  For a
    component whose schema is [src/<rest>.json], where [<rest>] holds no
    other [.json], the tool imports [../../<rest>.json] and nothing else:
    it answers with the component's name and category and the default
    export of that module (or the module itself), and with
    [SCHEMA_NOT_AVAILABLE] when that import fails.  It does not fail with
    an exception. *)
Theorem tool_loadSchema_canonical
    (Json : Type) (import_ : string → Thrown Json) (default_or_self : Json → Json)
    (api : AgentAPI) (input_name : string) (component : ComponentMetadata)
    (rest : string) :
  getComponent api input_name = Some component →
  schema component = Some ("src/" +:+ rest +:+ ".json") →
  includes rest ".json" = false →
  tool_loadSchema Json import_ default_or_self api input_name
  = Returns
      match import_ ("../../" +:+ rest +:+ ".json") with
      | Returns module =>
          SchemaLoaded (name component) (category component)
            (default_or_self module)
      | Throws _ =>
          SchemaNotAvailable
            {| tool_error := "SCHEMA_NOT_AVAILABLE";
               tool_message :=
                 "No schema available for component " +:+ quoted input_name |}
            (name component) false
      end.
Proof.
  intros Hget Hschema Hrest. unfold tool_loadSchema, loadSchema.
  rewrite Hget, Hschema.
  assert (missing_or_pending (Some ("src/" +:+ rest +:+ ".json")) = false) as ->.
  { unfold missing_or_pending, truthy.
    rewrite (bool_decide_eq_false_2 (_ = "")) by done.
    rewrite bool_decide_eq_false_2; [done|].
    by intros [=]. }
  assert (replace (replace ("src/" +:+ rest +:+ ".json") "src/" "../../") ".json" ""
          +:+ ".json"
          = "../../" +:+ rest +:+ ".json") as ->.
  { apply chars_inj. unfold replace. rewrite ?chars_append, ?chars_str, ?chars_append.
    rewrite (replace_chars_here (chars "src/")).
    rewrite (app_assoc (chars "../../")).
    change (chars ".json") with ("."%char :: chars "json") at 1 2.
    rewrite replace_chars_at_end.
    - cbn [chars list_ascii_of_string app]. by rewrite app_nil_r.
    - cbn. rewrite !elem_of_cons, elem_of_nil. by intros [?|[?|[?|[?|?]]]].
    - unfold includes in Hrest. cbn. by rewrite !andb_false_r. }
  by destruct (import_ _).
Qed.

Lemma tool_loadSchema_canonical_witness :
  getComponent (AgentAPI_new componentRegistry) "button" = Some Button
  ∧ schema Button
    = Some ("src/" +:+ "components/atoms/button/Button.schema" +:+ ".json")
  ∧ includes "components/atoms/button/Button.schema" ".json" = false
  ∧ tool_loadSchema string (λ specifier, Returns specifier) (λ module, module)
      (AgentAPI_new componentRegistry) "button"
    = Returns (SchemaLoaded "Button" CatAtom
                 "../../components/atoms/button/Button.schema.json").
Proof.
  assert (H1 : getComponent (AgentAPI_new componentRegistry) "button" = Some Button)
    by by vm_compute.
  assert (H2 : schema Button
               = Some ("src/" +:+ "components/atoms/button/Button.schema" +:+ ".json"))
    by reflexivity.
  assert (H3 : includes "components/atoms/button/Button.schema" ".json" = false)
    by by vm_compute.
  do 3 (split; [assumption|]).
  exact (tool_loadSchema_canonical string (λ specifier, Returns specifier)
           (λ module, module) (AgentAPI_new componentRegistry) "button" Button
           "components/atoms/button/Button.schema" H1 H2 H3).
Defined.

(** X28 (AgentAPI.loadSchema and the handler [loadSchema] of
    [generation.ts]): when no schema is loaded.  The tool answers
    [COMPONENT_NOT_FOUND] for a name that [getComponent] does not
    resolve.  For a component whose schema is missing, empty or
    ["pending"] it answers [SCHEMA_NOT_AVAILABLE] without importing
    anything.  Whatever the import does, the tool does not fail with the
    exception of [AgentAPI.loadSchema], and it never answers with a
    schema for a component that [getComponentHealth] reports as having
    none. *)
Theorem tool_loadSchema_outcomes
    (Json : Type) (import_ : string → Thrown Json) (default_or_self : Json → Json)
    (api : AgentAPI) (input_name : string) :
  let answer := tool_loadSchema Json import_ default_or_self api input_name in
  (∀ e, answer ≠ Throws e)
  ∧ (getComponent api input_name = None →
     answer = Returns (SchemaError (component_not_found input_name)))
  ∧ (∀ component, getComponent api input_name = Some component →
     missing_or_pending (schema component) = true →
     answer = Returns (SchemaNotAvailable
                {| tool_error := "SCHEMA_NOT_AVAILABLE";
                   tool_message :=
                     "No schema available for component " +:+ quoted input_name |}
                (name component) false))
  ∧ (∀ componentName cat loaded,
       answer = Returns (SchemaLoaded componentName cat loaded) →
       health_hasSchema <$> getComponentHealth api input_name = Some true
       ∧ ∃ component specifier module,
           getComponent api input_name = Some component
           ∧ componentName = name component ∧ cat = category component
           ∧ import_ specifier = Returns module
           ∧ loaded = default_or_self module).
Proof.
  cbv zeta. unfold tool_loadSchema, loadSchema, getComponentHealth.
  destruct (getComponent api input_name) as [component|]; [|by repeat split].
  cbn [fmap option_fmap option_map health_hasSchema].
  destruct (schema component) as [schemaFile|] eqn:Hschema.
  - rewrite (missing_or_pending_negb (Some schemaFile)).
    destruct (truthy (Some schemaFile)
              && bool_decide (Some schemaFile ≠ Some "pending")) eqn:Hok;
      cbn [negb].
    + destruct (import_ _) as [e|module] eqn:Himport.
      * split; [done|]. split; [done|]. split; [|done].
        intros ? [= <-]. by rewrite Hschema, missing_or_pending_negb, Hok.
      * split; [done|]. split; [done|]. split.
        -- intros ? [= <-]. by rewrite Hschema, missing_or_pending_negb, Hok.
        -- intros ? ? ? [= <- <- <-]. split; [done|]. by do 3 eexists.
    + split; [done|]. split; [done|]. split; [|done]. by intros ? [= <-].
  - split; [done|]. split; [done|]. split; [|done]. by intros ? [= <-].
Qed.
